(** * Rovo Dev <-> OpenAI proxy: serialization queue, backend driver and
      SSE stream transcoders (rovodev-proxy.ts)

    A shallow embedding of the request-serialization and stream-translation
    engine of [rovodev-proxy.ts], followed by the theorems about it.

    Modelled: [enqueue], [setMessage], [waitForAgentIdle], [sendAndStream],
    [extractText], [isStreamEnd], [processSSELines], and the four handlers
    that the server calls ([handleStreamingCompletion],
    [handleNonStreamingCompletion], [handleStreamingResponsesViaCompletions],
    [handleNonStreamingResponsesViaCompletions]) from the built prompt on;
    the construction of that prompt, [formatMessages] and
    [parseResponsesAPIInput]; [streamChatWithRetry], which nothing calls;
    and the URL rewriting of the [fetch] hook of src/plugin.ts.
    [handleStreamingResponsesAPI] and [handleNonStreamingResponsesAPI] are
    never called and are left out, as are routing, the health check and the
    headers that the plugin sets.

    Conventions.
    - A JavaScript string is the list of its UTF-16 code units ([jsstring]).
    - A value produced by [JSON.parse] is a [json]; the result of reading a
      property is an [option json], [None] standing for [undefined].
    - What a transform stream hands to [controller.enqueue] is a [frame];
      the wire bytes are [encoder.encode] of the template string shown next
      to each constructor.
    - The backend is an oracle answering the k-th request made to each of
      its three endpoints; the driver runs in a state-and-exception monad
      over the [world] that records every request made.
    - The body of a backend response is the list of the chunks it
      delivers, and it is delivered to its end.  When it is read, inside
      the thunk of the queue or after it, is the matter of [Wire].
    - A [TypeError] thrown by a conversion or by reading a property of
      [null] is [None] in the functions that can throw it. *)

From Stdlib Require Import ZArith NArith Lia Ascii String DecimalString.
From stdpp Require Import base decidable option list numbers relations.

Set Warnings "-register-all".

Local Open Scope N_scope.

(* ===================================================================== *)
(** ** JavaScript strings                                                  *)
(* ===================================================================== *)

Module Js.

Definition jsstring := list N.

(** An ASCII literal of the source as a list of code units. *)
Definition lit (s : string) : jsstring :=
  map N_of_ascii (list_ascii_of_string s).

Arguments lit : simpl never.

Definition str_eqb (a b : jsstring) : bool := bool_decide (a = b).

(** [s.startsWith(p)] *)
Fixpoint startsWith (s p : jsstring) : bool :=
  match p, s with
  | [], _ => true
  | _ :: _, [] => false
  | c :: p', d :: s' => if N.eqb c d then startsWith s' p' else false
  end.

(** [s.slice(n)] for a non-negative [n]. *)
Definition slice (n : nat) (s : jsstring) : jsstring := drop n s.

(** The code units removed by [String.prototype.trim]: WhiteSpace and
    LineTerminator of ECMAScript. *)
Definition isTrimSpace (c : N) : bool :=
  (9 <=? c) && (c <=? 13)
  || (c =? 32) || (c =? 0xA0) || (c =? 0x1680)
  || (0x2000 <=? c) && (c <=? 0x200A)
  || (c =? 0x2028) || (c =? 0x2029) || (c =? 0x202F)
  || (c =? 0x205F) || (c =? 0x3000) || (c =? 0xFEFF).

Fixpoint trimStart (s : jsstring) : jsstring :=
  match s with
  | c :: s' => if isTrimSpace c then trimStart s' else s
  | [] => []
  end.

Definition trim (s : jsstring) : jsstring :=
  reverse (trimStart (reverse (trimStart s))).

(** [s.split("\n")]: always at least one segment. *)
Fixpoint split_nl (s : jsstring) : list jsstring :=
  match s with
  | [] => [[]]
  | c :: s' =>
      if c =? 10 then [] :: split_nl s'
      else match split_nl s' with
           | seg :: segs => (c :: seg) :: segs
           | [] => [[c]]
           end
  end.

(** [parts.pop()] on a non-empty array: the array without its last element
    and that element.  On an empty array [pop] gives [undefined], which
    the [||] fallback turns into the empty string. *)
Definition pop (parts : list jsstring) : list jsstring * jsstring :=
  (removelast parts, List.last parts []).

(** [parts.join(sep)] *)
Fixpoint join (sep : jsstring) (parts : list jsstring) : jsstring :=
  match parts with
  | [] => []
  | [p] => p
  | p :: ps => p ++ sep ++ join sep ps
  end.

End Js.

(* ===================================================================== *)
(** ** The platform's UTF-8 [TextDecoder]                                  *)
(* ===================================================================== *)

(** [new TextDecoder()] is the WHATWG UTF-8 decoder in replacement mode with
    BOM removal.  [decode(chunk, {stream: true})] runs the byte handler over
    the chunk and keeps the decoder state for the next call. *)
Module Utf8.

Record dstate := mkD {
  code_point : N;
  bytes_seen : N;
  bytes_needed : N;
  lower : N;
  upper : N;
  bom_seen : bool
}.

Definition initial : dstate := mkD 0 0 0 0x80 0xBF false.

Definition reset (st : dstate) : dstate := mkD 0 0 0 0x80 0xBF (bom_seen st).

Definition replacement : N := 0xFFFD.

(** The handler when no continuation byte is expected. *)
Definition lead (b : N) (st : dstate) : list N * dstate :=
  if b <=? 0x7F then ([b], st)
  else if (0xC2 <=? b) && (b <=? 0xDF) then
    ([], mkD (N.land b 0x1F) 0 1 0x80 0xBF (bom_seen st))
  else if (0xE0 <=? b) && (b <=? 0xEF) then
    ([], mkD (N.land b 0xF) 0 2
             (if b =? 0xE0 then 0xA0 else 0x80)
             (if b =? 0xED then 0x9F else 0xBF) (bom_seen st))
  else if (0xF0 <=? b) && (b <=? 0xF4) then
    ([], mkD (N.land b 0x7) 0 3
             (if b =? 0xF0 then 0x90 else 0x80)
             (if b =? 0xF4 then 0x8F else 0xBF) (bom_seen st))
  else ([replacement], st).

(** One byte through the handler: the code points it completes. *)
Definition handler (b : N) (st : dstate) : list N * dstate :=
  if bytes_needed st =? 0 then lead b st
  else if negb ((lower st <=? b) && (b <=? upper st)) then
    (* error, and the byte is put back and read again *)
    let '(out, st') := lead b (reset st) in (replacement :: out, st')
  else
    let cp := N.lor (N.shiftl (code_point st) 6) (N.land b 0x3F) in
    let seen := bytes_seen st + 1 in
    if seen =? bytes_needed st then ([cp], reset st)
    else ([], mkD cp seen (bytes_needed st) 0x80 0xBF (bom_seen st)).

(** A scalar value as UTF-16 code units. *)
Definition units (cp : N) : list N :=
  if cp <? 0x10000 then [cp]
  else let v := cp - 0x10000 in
       [0xD800 + N.shiftr v 10; 0xDC00 + N.land v 0x3FF].

(** Serialising the decoder's output: the first code point is dropped when
    it is U+FEFF. *)
Definition serialize1 (cp : N) (st : dstate) : list N * dstate :=
  let st' := mkD (code_point st) (bytes_seen st) (bytes_needed st)
                 (lower st) (upper st) true in
  if bom_seen st then (units cp, st)
  else if cp =? 0xFEFF then ([], st') else (units cp, st').

Fixpoint serialize (cps : list N) (st : dstate) : list N * dstate :=
  match cps with
  | [] => ([], st)
  | cp :: cps' =>
      let '(o1, st1) := serialize1 cp st in
      let '(o2, st2) := serialize cps' st1 in
      (o1 ++ o2, st2)
  end.

Definition step (b : Byte.byte) (st : dstate) : list N * dstate :=
  let '(cps, st1) := handler (Byte.to_N b) st in serialize cps st1.

(** [decoder.decode(chunk, {stream: true})] *)
Fixpoint decode_stream (chunk : list Byte.byte) (st : dstate)
  : Js.jsstring * dstate :=
  match chunk with
  | [] => ([], st)
  | b :: chunk' =>
      let '(o1, st1) := step b st in
      let '(o2, st2) := decode_stream chunk' st1 in
      (o1 ++ o2, st2)
  end.

(** End of input: an unfinished sequence becomes one replacement
    character. *)
Definition finish (st : dstate) : Js.jsstring :=
  if bytes_needed st =? 0 then []
  else fst (serialize [replacement] st).

(** [await response.text()]: the whole body decoded at once. *)
Definition text (body : list Byte.byte) : Js.jsstring :=
  let '(s, st) := decode_stream body initial in s ++ finish st.

(** The bytes of an ASCII literal. *)
Definition bytes_of (s : string) : list Byte.byte :=
  map byte_of_ascii (list_ascii_of_string s).

End Utf8.

(* ===================================================================== *)
(** ** JSON values and [JSON.parse]                                        *)
(* ===================================================================== *)

Module Json.
Import Js.

(** A JSON number literal, kept as the exact decimal [mant * 10^expo]; it
    stands for the double nearest to it.  The program asks whether a value
    is a number, whether it is zero ([is_zero], which accounts for
    underflow), for its string form and, for the usage counters, for a
    sum.  String form and sum are computed on the decimal: they are the
    platform's for integers below 2^53,
    which is what the backend sends as counters; beyond that the rounding
    of doubles is outside this model. *)
Record number := mkNum { mant : Z; expo : Z }.

Inductive json :=
| JNull
| JBool (b : bool)
| JNumber (n : number)
| JString (s : jsstring)
| JArray (items : list json)
| JObject (fields : list (jsstring * json)).

Definition JInt (z : Z) : json := JNumber (mkNum z 0).
Definition JStr (s : string) : json := JString (lit s).

Definition ch (a : ascii) : N := N_of_ascii a.

(** The double quote. *)
Definition dquote : N := 34.

Definition isWs (c : N) : bool :=
  (c =? 9) || (c =? 10) || (c =? 13) || (c =? 32).

Fixpoint skip_ws (s : jsstring) : jsstring :=
  match s with
  | c :: s' => if isWs c then skip_ws s' else s
  | [] => []
  end.

Definition isDigit (c : N) : bool := (48 <=? c) && (c <=? 57).

(** The longest run of decimal digits at the front: its value, its length
    and what follows. *)
Fixpoint digits (s : jsstring) (acc : Z) (len : Z) : Z * Z * jsstring :=
  match s with
  | c :: s' =>
      if isDigit c then digits s' (10 * acc + Z.of_N (c - 48))%Z (len + 1)%Z
      else (acc, len, s)
  | [] => (acc, len, [])
  end.

Definition parse_int_part (s : jsstring) : option (Z * jsstring) :=
  match s with
  | c :: s' =>
      if c =? 48 then Some (0%Z, s')
      else if isDigit c then
        let '(v, _, r) := digits s 0%Z 0%Z in Some (v, r)
      else None
  | [] => None
  end.

Definition parse_frac (s : jsstring) (m : Z) : option (Z * Z * jsstring) :=
  match s with
  | c :: s' =>
      if c =? ch "." then
        let '(v, len, r) := digits s' m 0%Z in
        if (len =? 0)%Z then None else Some (v, len, r)
      else Some (m, 0%Z, s)
  | [] => Some (m, 0%Z, [])
  end.

Definition parse_exp (s : jsstring) : option (Z * jsstring) :=
  match s with
  | c :: s' =>
      if (c =? ch "e") || (c =? ch "E") then
        let '(neg, s'') :=
          match s' with
          | d :: t => if d =? ch "-" then (true, t)
                      else if d =? ch "+" then (false, t) else (false, s')
          | [] => (false, s')
          end in
        let '(v, len, r) := digits s'' 0%Z 0%Z in
        if (len =? 0)%Z then None
        else Some (if neg then (- v)%Z else v, r)
      else Some (0%Z, s)
  | [] => Some (0%Z, [])
  end.

Definition parse_number (s : jsstring) : option (number * jsstring) :=
  let '(neg, s1) :=
    match s with
    | c :: s' => if c =? ch "-" then (true, s') else (false, s)
    | [] => (false, s)
    end in
  '(i, s2) ← parse_int_part s1;
  '(m, flen, s3) ← parse_frac s2 i;
  '(e, s4) ← parse_exp s3;
  Some (mkNum (if neg then (- m)%Z else m) (e - flen)%Z, s4).

Definition hexval (c : N) : option N :=
  if isDigit c then Some (c - 48)
  else if (97 <=? c) && (c <=? 102) then Some (c - 87)
  else if (65 <=? c) && (c <=? 70) then Some (c - 55)
  else None.

Definition parse_hex4 (s : jsstring) : option (N * jsstring) :=
  match s with
  | a :: b :: c :: d :: r =>
      x ← hexval a; y ← hexval b; z ← hexval c; w ← hexval d;
      Some (((x * 16 + y) * 16 + z) * 16 + w, r)
  | _ => None
  end.

(** The characters of a string literal after its opening quote. *)
Fixpoint parse_chars (fuel : nat) (s : jsstring) : option (jsstring * jsstring) :=
  match fuel with
  | O => None
  | S fuel' =>
      match s with
      | [] => None
      | c :: s' =>
          if c =? dquote then Some ([], s')
          else if c <? 32 then None
          else if c =? ch "\" then
            match s' with
            | e :: s'' =>
                if e =? ch "u" then
                  '(u, r) ← parse_hex4 s'';
                  '(cs, r') ← parse_chars fuel' r;
                  Some (u :: cs, r')
                else
                  u ← (if e =? dquote then Some (dquote)
                       else if e =? ch "\" then Some (ch "\")
                       else if e =? ch "/" then Some (ch "/")
                       else if e =? ch "b" then Some 8
                       else if e =? ch "f" then Some 12
                       else if e =? ch "n" then Some 10
                       else if e =? ch "r" then Some 13
                       else if e =? ch "t" then Some 9
                       else None);
                  '(cs, r') ← parse_chars fuel' s'';
                  Some (u :: cs, r')
            | [] => None
            end
          else
            '(cs, r') ← parse_chars fuel' s';
            Some (c :: cs, r')
      end
  end.

Definition parse_string (s : jsstring) : option (jsstring * jsstring) :=
  match s with
  | c :: s' => if c =? dquote then parse_chars (S (length s')) s' else None
  | [] => None
  end.

Definition keyword (kw : string) (v : json) (s : jsstring)
  : option (json * jsstring) :=
  if startsWith s (lit kw) then Some (v, drop (String.length kw) s) else None.

(** A value, the elements of an array after its first one is due, and the
    members of an object likewise.  Every call that recurses has consumed
    at least one code unit, so [fuel] above the length of the text is never
    exhausted. *)
Fixpoint parse_value (fuel : nat) (s : jsstring) : option (json * jsstring) :=
  match fuel with
  | O => None
  | S fuel' =>
      match skip_ws s with
      | [] => None
      | c :: r =>
          if c =? ch "{" then
            match skip_ws r with
            | d :: r' =>
                if d =? ch "}" then Some (JObject [], r')
                else '(fs, r'') ← parse_members fuel' (d :: r');
                     Some (JObject fs, r'')
            | [] => None
            end
          else if c =? ch "[" then
            match skip_ws r with
            | d :: r' =>
                if d =? ch "]" then Some (JArray [], r')
                else '(vs, r'') ← parse_elements fuel' (d :: r');
                     Some (JArray vs, r'')
            | [] => None
            end
          else if c =? dquote then
            '(str, r') ← parse_string (c :: r); Some (JString str, r')
          else if c =? ch "t" then keyword "true" (JBool true) (c :: r)
          else if c =? ch "f" then keyword "false" (JBool false) (c :: r)
          else if c =? ch "n" then keyword "null" JNull (c :: r)
          else '(n, r') ← parse_number (c :: r); Some (JNumber n, r')
      end
  end
with parse_elements (fuel : nat) (s : jsstring)
  : option (list json * jsstring) :=
  match fuel with
  | O => None
  | S fuel' =>
      '(v, r) ← parse_value fuel' s;
      match skip_ws r with
      | c :: r' =>
          if c =? ch "," then
            '(vs, r'') ← parse_elements fuel' r'; Some (v :: vs, r'')
          else if c =? ch "]" then Some ([v], r')
          else None
      | [] => None
      end
  end
with parse_members (fuel : nat) (s : jsstring)
  : option (list (jsstring * json) * jsstring) :=
  match fuel with
  | O => None
  | S fuel' =>
      '(k, r) ← parse_string (skip_ws s);
      match skip_ws r with
      | c :: r1 =>
          if c =? ch ":" then
            '(v, r2) ← parse_value fuel' r1;
            match skip_ws r2 with
            | d :: r3 =>
                if d =? ch "," then
                  '(fs, r4) ← parse_members fuel' r3; Some ((k, v) :: fs, r4)
                else if d =? ch "}" then Some ([(k, v)], r3)
                else None
            | [] => None
            end
          else None
      | [] => None
      end
  end.

(** [JSON.parse(text)]: [None] stands for the [SyntaxError] that every
    caller catches. *)
Definition parse (text : jsstring) : option json :=
  '(v, r) ← parse_value (2 * length text + 2) text;
  match skip_ws r with
  | [] => Some v
  | _ :: _ => None
  end.

(** *** Reading values the way the program does *)

(** [v.k] (or [v?.k]) for the property names the program reads; [None] is
    [undefined].  A later duplicate key of an object wins, as in
    [JSON.parse].  None of the names read is a property of a string, number,
    boolean or array. *)
Definition get (v : json) (k : string) : option json :=
  match v with
  | JObject fs =>
      fold_left (fun acc kv => if str_eqb (fst kv) (lit k) then Some (snd kv) else acc)
                fs None
  | _ => None
  end.

(** [o?.k] when [o] itself may be [undefined]. *)
Definition get_opt (o : option json) (k : string) : option json :=
  match o with Some v => get v k | None => None end.

(** Whether the double nearest to the literal is zero: the literal is
    zero, or its magnitude is at most 2^-1075, half the least positive
    double. *)
Definition is_zero (n : number) : bool :=
  (mant n =? 0)%Z
  || ((expo n <? 0)%Z
      && (Z.abs (mant n) * 2 ^ 1075 <=? 10 ^ (- expo n))%Z).

(** ToBoolean *)
Definition truthy (v : json) : bool :=
  match v with
  | JNull => false
  | JBool b => b
  | JNumber n => negb (is_zero n)
  | JString s => negb (str_eqb s [])
  | JArray _ | JObject _ => true
  end.

Definition truthy_opt (o : option json) : bool :=
  match o with Some v => truthy v | None => false end.

(** [typeof o === "number"], [typeof o === "string"], [typeof o === "object"] *)
Definition is_number (o : option json) : bool :=
  match o with Some (JNumber _) => true | _ => false end.

Definition is_string (o : option json) : bool :=
  match o with Some (JString _) => true | _ => false end.

Definition is_object (v : json) : bool :=
  match v with JNull | JArray _ | JObject _ => true | _ => false end.

(** [o === "literal"] *)
Definition is_lit (o : option json) (s : string) : bool :=
  match o with Some (JString t) => str_eqb t (lit s) | _ => false end.

(** [o === true] *)
Definition is_true (o : option json) : bool :=
  match o with Some (JBool true) => true | _ => false end.

(** [a || b] and [a ?? b] with [b] a value. *)
Definition or_else (o : option json) (d : json) : json :=
  match o with Some v => if truthy v then v else d | None => d end.

Definition nullish_else (o : option json) (d : json) : json :=
  match o with Some JNull | None => d | Some v => v end.

(** [a + b] on two numbers. *)
Definition num_add (a b : number) : number :=
  let e := Z.min (expo a) (expo b) in
  mkNum (mant a * 10 ^ (expo a - e) + mant b * 10 ^ (expo b - e))%Z e.

Definition num_zero : number := mkNum 0 0.

Definition num_one : number := mkNum 1 0.

End Json.

(* ===================================================================== *)
(** ** Event classifier: [extractText] and [isStreamEnd]                   *)
(* ===================================================================== *)

Module Proxy.
Import Js Json.

(** [extractText(data)]: the value handed back is [JNull] for [null]. *)
Definition extractText (data : json) : json :=
  if negb (truthy data) || negb (is_object data) then JNull
  (* skip user-prompt echo *)
  else if is_lit (get data "part_kind") "user-prompt" then JNull
  (* part_start *)
  else if is_lit (get data "event_kind") "part_start"
          && is_lit (get_opt (get data "part") "part_kind") "text"
  then or_else (get_opt (get data "part") "content") JNull
  (* part_delta *)
  else if is_lit (get data "event_kind") "part_delta"
          && is_lit (get_opt (get data "delta") "part_delta_kind") "text"
  then or_else (get_opt (get data "delta") "content_delta") JNull
  (* top-level text_delta *)
  else if is_string (get data "text_delta") && truthy_opt (get data "text_delta")
  then nullish_else (get data "text_delta") JNull
  (* content_block_delta with text_delta *)
  else if is_lit (get data "type") "content_block_delta"
          && is_lit (get_opt (get data "delta") "type") "text_delta"
  then nullish_else (get_opt (get data "delta") "text") JNull
  (* delta.text (generic) *)
  else if is_string (get_opt (get data "delta") "text")
  then nullish_else (get_opt (get data "delta") "text") JNull
  else JNull.

(** [isStreamEnd(data)] *)
Definition isStreamEnd (data : json) : bool :=
  if negb (truthy data) || negb (is_object data) then false
  else if is_number (get data "input_tokens") || is_number (get data "output_tokens")
  then true
  else if is_lit (get data "type") "message_stop" then true
  else if is_lit (get data "type") "message_delta"
          && truthy_opt (get_opt (get data "delta") "stop_reason")
  then true
  else if is_true (get data "done") then true
  else if is_lit (get data "type") "end" || is_lit (get data "type") "stop" then true
  else if is_lit (get data "event") "done" || is_lit (get data "event") "end" then true
  else false.

(* ===================================================================== *)
(** ** What a transform stream enqueues                                    *)
(* ===================================================================== *)

Inductive frame :=
| DataJson (payload : json)
    (** [data: ${JSON.stringify(payload)}\n\n] *)
| DataDone
    (** [data: [DONE]\n\n] *)
| EventJson (eventType : jsstring) (payload : json)
    (** [event: ${eventType}\ndata: ${JSON.stringify(payload)}\n\n] *).

(** [ToString] of a number: plain decimal notation, which is what the
    platform prints for a decimal literal of magnitude between 1e-6 and 1e21
    that a double holds exactly. *)
Definition string_of_Z (z : Z) : jsstring :=
  lit (NilZero.string_of_int (Z.to_int z)).

Fixpoint strip_zeros (rev_digits : jsstring) : jsstring :=
  match rev_digits with
  | c :: r => if c =? 48 then strip_zeros r else rev_digits
  | [] => []
  end.

Definition num_to_string (n : number) : jsstring :=
  if (0 <=? expo n)%Z then string_of_Z (mant n * 10 ^ expo n)
  else
    let d := (- expo n)%Z in
    let a := Z.abs (mant n) in
    let i := (a / 10 ^ d)%Z in
    let f := (a mod 10 ^ d)%Z in
    let sign := if (mant n <? 0)%Z then lit "-" else [] in
    if (f =? 0)%Z then
      (if (i =? 0)%Z then lit "0" else sign ++ string_of_Z i)
    else
      let fd := string_of_Z f in
      let pad := replicate (Z.to_nat d - length fd) 48 in
      sign ++ string_of_Z i ++ lit "." ++ reverse (strip_zeros (reverse (pad ++ fd))).

(** Whether [v] is an object with an own property [k], whatever its
    value. *)
Definition has_own (v : json) (k : string) : bool :=
  match get v k with Some _ => true | None => false end.

(** [ToString(v)], as used by [s += v], [String(v)] and [join]; [None]
    stands for the [TypeError] thrown for a value without a string form.
    An object made by [JSON.parse] prints as "[object Object]" through
    [Object.prototype.toString], unless it has an own property named
    [toString]: no property of such an object is callable and
    [Object.prototype.valueOf] gives the object back, so the conversion
    finds no primitive and throws.  An array prints through
    [Array.prototype.join], which leaves [null] elements empty and converts
    the others. *)
Fixpoint toString (v : json) : option jsstring :=
  match v with
  | JNull => Some (lit "null")
  | JBool true => Some (lit "true")
  | JBool false => Some (lit "false")
  | JNumber n => Some (num_to_string n)
  | JString s => Some s
  | JArray items =>
      parts ← mapM (fun x => match x with JNull => Some [] | _ => toString x end)
                   items;
      Some (join (lit ",") parts)
  | JObject fs =>
      if has_own (JObject fs) "toString" then None
      else Some (lit "[object Object]")
  end.

(** The line reassembler inside every [transform]: what the successive
    calls split off as complete lines ([parts]), the fragment held back at
    the end ([buffer]) and the decoder state. *)
Fixpoint chat_lines (chunks : list (list Byte.byte)) (dec : Utf8.dstate)
    (buffer : jsstring) : (list jsstring * jsstring) * Utf8.dstate :=
  match chunks with
  | [] => (([], buffer), dec)
  | c :: cs =>
      let '(decoded, dec') := Utf8.decode_stream c dec in
      let '(parts, last) := pop (split_nl (buffer ++ decoded)) in
      let '((more, final), dec'') := chat_lines cs dec' last in
      ((parts ++ more, final), dec'')
  end.

(* ===================================================================== *)
(** ** Chat-completions streaming transcoder                               *)
(* ===================================================================== *)

Section ChatCompletions.

(** Fixed for one call: [chatId], [timestamp] and [model]. *)
Variable chatId : jsstring.
Variable timestamp : number.
Variable model : json.

Definition chunk (delta finish_reason : json) : json :=
  JObject [ (lit "id", JString chatId);
            (lit "object", JStr "chat.completion.chunk");
            (lit "created", JNumber timestamp);
            (lit "model", model);
            (lit "choices",
              JArray [ JObject [ (lit "index", JInt 0);
                                 (lit "delta", delta);
                                 (lit "finish_reason", finish_reason) ] ]) ].

(** The chunk carrying one text fragment. *)
Definition openaiChunk (textContent : json) : json :=
  chunk (JObject [(lit "content", textContent)]) JNull.

(** The chunk with an empty delta and [finish_reason: "stop"]. *)
Definition stopChunk : json := chunk (JObject []) (JStr "stop").

(** The body of the [for] loop of [processSSELines] for one line: what is
    enqueued and the new [sentDone]. *)
Definition processSSELine (line : jsstring) (sentDone : bool)
  : list frame * bool :=
  let trimmed := trim line in
  if str_eqb trimmed [] || startsWith trimmed (lit ":") then ([], sentDone)
  else if negb (startsWith trimmed (lit "data: ")) then ([], sentDone)
  else
    let jsonStr := trim (slice 6 trimmed) in
    if str_eqb jsonStr (lit "[DONE]") then
      if negb sentDone then ([DataDone], true) else ([], sentDone)
    else
      match parse jsonStr with
      | None => ([], sentDone)
      | Some data =>
          let textContent := extractText data in
          let out1 :=
            if truthy textContent then [DataJson (openaiChunk textContent)]
            else [] in
          if negb sentDone && isStreamEnd data
          then (out1 ++ [DataJson stopChunk; DataDone], true)
          else (out1, sentDone)
      end.

(** [processSSELines(lines, chatId, timestamp, model, encoder, controller,
    alreadyDone)] *)
Fixpoint processSSELines (lines : list jsstring) (alreadyDone : bool)
  : list frame * bool :=
  match lines with
  | [] => ([], alreadyDone)
  | line :: rest =>
      let '(out1, sentDone) := processSSELine line alreadyDone in
      let '(out2, sentDone') := processSSELines rest sentDone in
      (out1 ++ out2, sentDone')
  end.

(** Closure state of the transform stream of [handleStreamingCompletion]. *)
Record chat_state := mkChat {
  chat_decoder : Utf8.dstate;
  chat_buffer : jsstring;
  chat_doneSent : bool
}.

Definition chat_init : chat_state := mkChat Utf8.initial [] false.

(** [transform(chunk, controller)] *)
Definition chat_transform (bytes : list Byte.byte) (st : chat_state)
  : list frame * chat_state :=
  let '(decoded, dec) := Utf8.decode_stream bytes (chat_decoder st) in
  let buffer := chat_buffer st ++ decoded in
  let '(parts, last) := pop (split_nl buffer) in
  let '(out, doneSent) := processSSELines parts (chat_doneSent st) in
  (out, mkChat dec last doneSent).

(** [flush(controller)] *)
Definition chat_flush (st : chat_state) : list frame :=
  let '(out, doneSent) :=
    if negb (str_eqb (trim (chat_buffer st)) [])
    then processSSELines [chat_buffer st] (chat_doneSent st)
    else ([], chat_doneSent st) in
  if negb doneSent then out ++ [DataJson stopChunk; DataDone] else out.

(** The chunks of the backend body through [transform], one after the
    other. *)
Fixpoint chat_run (chunks : list (list Byte.byte)) (st : chat_state)
  : list frame * chat_state :=
  match chunks with
  | [] => ([], st)
  | c :: cs =>
      let '(o1, st1) := chat_transform c st in
      let '(o2, st2) := chat_run cs st1 in
      (o1 ++ o2, st2)
  end.

(** Everything enqueued for a backend body that arrives as [chunks] and
    then closes: [rovoResp.body.pipeThrough(transformStream)]. *)
Definition chat_stream (chunks : list (list Byte.byte)) : list frame :=
  let '(out, st) := chat_run chunks chat_init in out ++ chat_flush st.

End ChatCompletions.

(** The loop of [handleNonStreamingCompletion] (and of the non-streaming
    responses handler) over [fullText.split("\n")]: the collected
    [content]. *)
Definition collectLine (line : jsstring) (content : jsstring) : jsstring :=
  let trimmed := trim line in
  if negb (startsWith trimmed (lit "data: ")) then content
  else
    let jsonStr := trim (slice 6 trimmed) in
    if str_eqb jsonStr (lit "[DONE]") then content
    else
      match parse jsonStr with
      | None => content
      | Some data =>
          let text := extractText data in
          if truthy text then
            match toString text with
            | Some s => content ++ s
            | None => content   (* [content += text] throws and is caught *)
            end
          else content
      end.

Definition collectText (fullText : jsstring) : jsstring :=
  fold_left (fun content line => collectLine line content) (split_nl fullText) [].


(** [a + b]: concatenation as soon as one side is a string (or an array or
    object, whose primitive value is a string), addition of numbers
    otherwise, [null] and [false] counting for 0 and [true] for 1.  [None]
    when an operand has no primitive value. *)
Definition is_stringy (v : json) : bool :=
  match v with JString _ | JArray _ | JObject _ => true | _ => false end.

Definition toNumber (v : json) : number :=
  match v with
  | JNumber n => n
  | JBool true => num_one
  | _ => num_zero
  end.

Definition js_add (a b : json) : option json :=
  if is_stringy a || is_stringy b then
    x ← toString a; y ← toString b; Some (JString (x ++ y))
  else Some (JNumber (num_add (toNumber a) (toNumber b))).

(* ===================================================================== *)
(** ** Response-lifecycle streaming transcoder                             *)
(* ===================================================================== *)

Section ResponsesViaCompletions.

(** Fixed for one call: [respId], [itemId] and [model].  [created_at n] is
    [Math.floor(Date.now()/1000)] as read when the response object of the
    event with sequence number [n] is built. *)
Variable respId itemId : jsstring.
Variable model : json.
Variable created_at : nat -> number.

(** [emit(controller, eventType, payload)] for the sequence number at hand;
    the caller moves [seqNum] on. *)
Definition emit (eventType : string) (payload : list (jsstring * json))
    (seqNum : nat) : frame :=
  EventJson (lit eventType)
    (JObject (payload ++ [ (lit "type", JStr eventType);
                           (lit "sequence_number", JInt (Z.of_nat seqNum)) ])).

(** [buildResp(status, items)], with [usage] as the caller overrides it. *)
Definition buildResp (status : string) (items : list json) (usage : json)
    (seqNum : nat) : json :=
  JObject [ (lit "id", JString respId);
            (lit "object", JStr "response");
            (lit "created_at", JNumber (created_at seqNum));
            (lit "status", JStr status);
            (lit "model", model);
            (lit "output", JArray items);
            (lit "usage", usage) ].

Definition textPart (s : jsstring) : json :=
  JObject [ (lit "type", JStr "output_text");
            (lit "text", JString s);
            (lit "annotations", JArray []) ].

Definition messageItem (status : string) (content : list json) : json :=
  JObject [ (lit "id", JString itemId);
            (lit "type", JStr "message");
            (lit "role", JStr "assistant");
            (lit "status", JStr status);
            (lit "content", JArray content) ].

Definition at_item : list (jsstring * json) :=
  [ (lit "item_id", JString itemId);
    (lit "output_index", JInt 0);
    (lit "content_index", JInt 0) ].

(** Closure state of the transform stream. *)
Record resp_state := mkResp {
  r_decoder : Utf8.dstate;
  r_buffer : jsstring;
  r_fullText : jsstring;
  r_preambleSent : bool;
  r_seqNum : nat;
  r_usageData : json;
  r_errored : bool
}.

Definition zeroUsage : json :=
  JObject [ (lit "input_tokens", JInt 0);
            (lit "output_tokens", JInt 0);
            (lit "total_tokens", JInt 0) ].

Definition resp_init : resp_state :=
  mkResp Utf8.initial [] [] false 0 zeroUsage false.

(** [sendPreamble(controller)] *)
Definition sendPreamble (st : resp_state) : list frame * resp_state :=
  if r_preambleSent st then ([], st)
  else
    let n := r_seqNum st in
    ([ emit "response.created"
         [(lit "response", buildResp "in_progress" [] JNull n)] n;
       emit "response.in_progress"
         [(lit "response", buildResp "in_progress" [] JNull (n + 1))] (n + 1);
       emit "response.output_item.added"
         [(lit "output_index", JInt 0);
          (lit "item", messageItem "in_progress" [])] (n + 2);
       emit "response.content_part.added"
         (at_item ++ [(lit "part", textPart [])]) (n + 3) ],
     mkResp (r_decoder st) (r_buffer st) (r_fullText st) true (n + 4)
            (r_usageData st) (r_errored st)).

(** The body of [if (text) { ... }]: preamble if still due, [fullText +=
    text], one [response.output_text.delta].  When [text] has no string
    form, [fullText += text] throws after the preamble: what is given is
    what was enqueued and the state at the throw, and the caller tells what
    the throw does ([transform] lets it through, [flush] catches it). *)
Definition sendDelta (text : json) (st : resp_state) : list frame * resp_state :=
  let '(pre, st1) := sendPreamble st in
  match toString text with
  | Some s =>
      (pre ++ [ emit "response.output_text.delta"
                  (at_item ++ [(lit "delta", text)]) (r_seqNum st1) ],
       mkResp (r_decoder st1) (r_buffer st1) (r_fullText st1 ++ s)
              (r_preambleSent st1) (r_seqNum st1 + 1) (r_usageData st1)
              (r_errored st1))
  | None => (pre, st1)
  end.

(** Whether [fullText += text] throws. *)
Definition throwsAt (text : json) : bool :=
  match toString text with Some _ => false | None => true end.

(** [usageData = { input_tokens: ..., ... }] from a usage event; [None]
    when the sum throws. *)
Definition captureUsage (data : json) : option json :=
  let i := or_else (get data "input_tokens") (JInt 0) in
  let o := or_else (get data "output_tokens") (JInt 0) in
  total ← js_add i o;
  Some (JObject [ (lit "input_tokens", i);
                  (lit "output_tokens", o);
                  (lit "total_tokens", total) ]).

(** The stream has errored: [transform] threw. *)
Definition errored (st : resp_state) : resp_state :=
  mkResp (r_decoder st) (r_buffer st) (r_fullText st) (r_preambleSent st)
         (r_seqNum st) (r_usageData st) true.

(** One line of the [for] loop of [transform].  Nothing after
    [JSON.parse] is inside a [try], so each of these throws errors the
    stream, [r_errored] is set and nothing more is processed: reading
    [data.input_tokens] on [null], the sum of the usage counters, and
    [fullText += text]. *)
Definition resp_line (line : jsstring) (st : resp_state)
  : list frame * resp_state :=
  let trimmed := trim line in
  if str_eqb trimmed [] || startsWith trimmed (lit ":")
     || negb (startsWith trimmed (lit "data: ")) then ([], st)
  else
    let jsonStr := trim (slice 6 trimmed) in
    if str_eqb jsonStr (lit "[DONE]") then ([], st)
    else
      match parse jsonStr with
      | None => ([], st)
      | Some JNull => ([], errored st)
      | Some data =>
          match (if is_number (get data "input_tokens")
                 then captureUsage data else Some (r_usageData st)) with
          | None => ([], errored st)
          | Some usageData =>
              let st1 :=
                mkResp (r_decoder st) (r_buffer st) (r_fullText st)
                       (r_preambleSent st) (r_seqNum st) usageData
                       (r_errored st) in
              let text := extractText data in
              if truthy text then
                let '(out, st2) := sendDelta text st1 in
                (out, if throwsAt text then errored st2 else st2)
              else ([], st1)
          end
      end.

Fixpoint resp_lines (lines : list jsstring) (st : resp_state)
  : list frame * resp_state :=
  match lines with
  | [] => ([], st)
  | line :: rest =>
      let '(o1, st1) := resp_line line st in
      if r_errored st1 then (o1, st1)
      else let '(o2, st2) := resp_lines rest st1 in (o1 ++ o2, st2)
  end.

(** [transform(chunk, controller)] *)
Definition resp_transform (bytes : list Byte.byte) (st : resp_state)
  : list frame * resp_state :=
  let '(decoded, dec) := Utf8.decode_stream bytes (r_decoder st) in
  let buffer := r_buffer st ++ decoded in
  let '(parts, last) := pop (split_nl buffer) in
  resp_lines parts
    (mkResp dec last (r_fullText st) (r_preambleSent st) (r_seqNum st)
            (r_usageData st) (r_errored st)).

(** The first half of [flush]: the held-back fragment.  Here everything
    is inside the [try], so a throw of [fullText += text] is caught: the
    preamble stays enqueued, no delta follows and [flush] goes on. *)
Definition resp_drain (st : resp_state) : list frame * resp_state :=
  if negb (str_eqb (trim (r_buffer st)) []) then
    let trimmed := trim (r_buffer st) in
    if startsWith trimmed (lit "data: ") then
      let jsonStr := trim (slice 6 trimmed) in
      if negb (str_eqb jsonStr (lit "[DONE]")) then
        match parse jsonStr with
        | None => ([], st)
        | Some data =>
            let text := extractText data in
            if truthy text then sendDelta text st else ([], st)
        end
      else ([], st)
    else ([], st)
  else ([], st).

(** The second half of [flush]: the closing events. *)
Definition resp_close (st : resp_state) : list frame :=
  if r_preambleSent st then
    let n := r_seqNum st in
    let completedItem := messageItem "completed" [textPart (r_fullText st)] in
    [ emit "response.output_text.done"
        (at_item ++ [(lit "text", JString (r_fullText st))]) n;
      emit "response.content_part.done"
        (at_item ++ [(lit "part", textPart (r_fullText st))]) (n + 1);
      emit "response.output_item.done"
        [(lit "output_index", JInt 0); (lit "item", completedItem)] (n + 2);
      emit "response.completed"
        [(lit "response",
           buildResp "completed" [completedItem] (r_usageData st) (n + 3))]
        (n + 3) ]
  else [].

(** [flush(controller)] *)
Definition resp_flush (st : resp_state) : list frame :=
  let '(out, st1) := resp_drain st in out ++ resp_close st1.

(** The chunks through [transform] until one throws. *)
Fixpoint resp_run (chunks : list (list Byte.byte)) (st : resp_state)
  : list frame * resp_state :=
  match chunks with
  | [] => ([], st)
  | c :: cs =>
      let '(o1, st1) := resp_transform c st in
      if r_errored st1 then (o1, st1)
      else let '(o2, st2) := resp_run cs st1 in (o1 ++ o2, st2)
  end.

(** Everything handed to [controller.enqueue] for a backend body that
    arrives as [chunks] and then closes; [flush] does not run on a stream
    that has errored.  (Of what was enqueued before the throw, the reader
    of an errored stream gets what it had already read.) *)
Definition resp_stream (chunks : list (list Byte.byte)) : list frame :=
  let '(out, st) := resp_run chunks resp_init in
  if r_errored st then out else out ++ resp_flush st.

End ResponsesViaCompletions.

End Proxy.

(* ===================================================================== *)
(** ** Backend session driver                                              *)
(* ===================================================================== *)

Module Driver.
Import Js Json Proxy.

(** What [fetch] resolves with: the status and the body stream, if any. *)
Record Response := mkResponse {
  status : Z;
  body : option (list (list Byte.byte))
}.

(** [resp.ok] *)
Definition ok (r : Response) : bool := (200 <=? status r)%Z && (status r <=? 299)%Z.

(** How one request ends: [fetch] rejects (network error) or resolves, after
    [elapsed] milliseconds. *)
Inductive outcome :=
| Rejects (message : jsstring)
| Resolves (r : Response).

Record reply := mkReply { elapsed : N; result : outcome }.

(** The backend as seen by one run of the proxy: the reply to the k-th
    request sent to each endpoint. *)
Record backend := mkBackend {
  set_chat_message : nat -> reply;
  sessions_create : nat -> reply;
  stream_chat : nat -> reply
}.

Inductive request :=
| SetChatMessage (message : jsstring)   (* POST /v3/set_chat_message *)
| SessionsCreate                        (* POST /v3/sessions/create  *)
| StreamChat.                           (* GET  /v3/stream_chat      *)

(** The clock ([Date.now()], in milliseconds), how many requests each
    endpoint has served, and every request sent so far, oldest first. *)
Record world := mkWorld {
  clock : Z;
  n_set : nat;
  n_probe : nat;
  n_stream : nat;
  log : list request
}.

Definition world0 : world := mkWorld 0 0 0 0 [].

(** A computation that may throw. *)
Inductive res (A : Type) :=
| Ret (a : A)
| Throw (message : jsstring).
Arguments Ret {A} a.
Arguments Throw {A} message.

Definition M (A : Type) : Type := world -> res A * world.

Definition ret {A} (a : A) : M A := fun w => (Ret a, w).
Definition throw {A} (message : string) : M A := fun w => (Throw (lit message), w).
Definition bind {A B} (m : M A) (k : A -> M B) : M B :=
  fun w => match m w with
           | (Ret a, w') => k a w'
           | (Throw e, w') => (Throw e, w')
           end.

#[export] Instance M_ret : MRet M := @ret.
#[export] Instance M_bind : MBind M := fun A B k m => bind m k.

(** [try { m } catch { h }] *)
Definition try_catch {A} (m : M A) (h : jsstring -> M A) : M A :=
  fun w => match m w with
           | (Ret a, w') => (Ret a, w')
           | (Throw e, w') => h e w'
           end.

Section WithBackend.

Variable be : backend.

Definition tick (ms : Z) (w : world) : world :=
  mkWorld (clock w + ms) (n_set w) (n_probe w) (n_stream w) (log w).

(** [Date.now()] *)
Definition now : M Z := fun w => (Ret (clock w), w).

(** [await new Promise((r) => setTimeout(r, ms))] *)
Definition sleep (ms : Z) : M unit := fun w => (Ret tt, tick ms w).

Definition settle (r : reply) (w : world) : res Response * world :=
  match result r with
  | Resolves resp => (Ret resp, tick (Z.of_N (elapsed r)) w)
  | Rejects e => (Throw e, tick (Z.of_N (elapsed r)) w)
  end.

(** [fetch(`${ROVODEV_BASE}/v3/set_chat_message`, { method: "POST", ... })] *)
Definition fetch_set_chat_message (text : jsstring) : M Response :=
  fun w =>
    settle (set_chat_message be (n_set w))
      (mkWorld (clock w) (S (n_set w)) (n_probe w) (n_stream w)
               (log w ++ [SetChatMessage text])).

(** [fetch(`${ROVODEV_BASE}/v3/sessions/create`, { method: "POST",
    signal: AbortSignal.timeout(5000) })]: a reply that takes longer than
    the timeout is an abort, thrown at the timeout. *)
Definition fetch_sessions_create : M Response :=
  fun w =>
    let r := sessions_create be (n_probe w) in
    let w1 := mkWorld (clock w) (n_set w) (S (n_probe w)) (n_stream w)
                      (log w ++ [SessionsCreate]) in
    if (5000 <? elapsed r)%N
    then (Throw (lit "The operation timed out."), tick 5000 w1)
    else settle r w1.

(** [fetch(`${ROVODEV_BASE}/v3/stream_chat`, { method: "GET", ... })] *)
Definition fetch_stream_chat : M Response :=
  fun w =>
    settle (stream_chat be (n_stream w))
      (mkWorld (clock w) (n_set w) (n_probe w) (S (n_stream w))
               (log w ++ [StreamChat])).

(** [setMessage(text)] *)
Definition setMessage (text : jsstring) : M bool :=
  try_catch (resp ← fetch_set_chat_message text; ret (ok resp))
            (fun _ => ret false).

Definition interval : Z := 1500.

(** The [while] loop of [waitForAgentIdle]: [true] when the probe succeeded
    and the function returned from inside the loop.  Every iteration that
    does not return sleeps for [interval], so [polls] iterations are
    available whenever [polls] exceeds [maxWaitMs / interval]. *)
Fixpoint waitLoop (polls : nat) (start maxWaitMs : Z) : M bool :=
  match polls with
  | O => ret false
  | S polls' =>
      t ← now;
      if (t - start <? maxWaitMs)%Z then
        idle ← try_catch (resp ← fetch_sessions_create; ret (ok resp))
                          (fun _ => ret false);
        if (idle : bool) then ret true
        else sleep interval;; waitLoop polls' start maxWaitMs
      else ret false
  end.

(** [waitForAgentIdle(maxWaitMs)] *)
Definition waitForAgentIdle (maxWaitMs : Z) : M unit :=
  start ← now;
  waitLoop (S (Z.to_nat (maxWaitMs / interval))) start maxWaitMs;;
  ret tt.

(** The [for] loop of [sendAndStream] from [attempt] on, with
    [left = maxRetries - attempt] iterations to go. *)
Fixpoint sendAndStream_from (prompt : jsstring) (maxRetries : nat)
    (left : nat) (attempt : nat) : M Response :=
  match left with
  | O => throw "Rovo Dev agent remained busy after all retries"
  | S left' =>
      (if (0 <? attempt)%nat then waitForAgentIdle 30000 else ret tt);;
      msgOk ← setMessage prompt;
      if negb msgOk then
        if (attempt <? maxRetries - 1)%nat then
          waitForAgentIdle 15000;;
          sendAndStream_from prompt maxRetries left' (S attempt)
        else throw "Failed to send message to Rovo Dev after retries"
      else
        resp ← fetch_stream_chat;
        if ok resp then ret resp
        else if (status resp =? 409)%Z then
          sendAndStream_from prompt maxRetries left' (S attempt)
        else ret resp
  end.

(** [sendAndStream(prompt, maxRetries = 4)] *)
Definition sendAndStream (prompt : jsstring) (maxRetries : nat) : M Response :=
  sendAndStream_from prompt maxRetries maxRetries 0.

(** *** The handlers, from the built prompt on *)

(** What a handler resolves with. *)
Inductive http_response :=
| JsonResponse (code : Z) (payload : json)    (* Response.json(payload, { status }) *)
| EventStream (frames : list frame).          (* new Response(transformed, { status: 200 }) *)

Definition proxy_error (message : jsstring) : http_response :=
  JsonResponse 502
    (JObject [ (lit "error",
                JObject [ (lit "message", JString message);
                          (lit "type", JStr "proxy_error") ]) ]).

(** [`Rovo Dev stream_chat returned ${rovoResp.status}`] *)
Definition returned (r : Response) : jsstring :=
  lit "Rovo Dev stream_chat returned " ++ string_of_Z (status r).

(** [e?.message || "Failed to communicate with Rovo Dev."] *)
Definition message_of (e : jsstring) : jsstring :=
  if str_eqb e [] then lit "Failed to communicate with Rovo Dev." else e.

(** The opening of every handler: [sendAndStream] under [try]/[catch], then
    the check of the response.  [needBody] tells the streaming handlers
    ([!rovoResp.ok || !rovoResp.body]) from the others ([!rovoResp.ok]). *)
Definition openTurn (needBody : bool) (prompt : jsstring)
  : M (http_response + Response) :=
  try_catch
    (rovoResp ← sendAndStream prompt 4;
     if negb (ok rovoResp) || needBody && negb (bool_decide (is_Some (body rovoResp)))
     then ret (inl (proxy_error (returned rovoResp)))
     else ret (inr rovoResp))
    (fun e => ret (inl (proxy_error (message_of e)))).

Definition chunks_of (r : Response) : list (list Byte.byte) :=
  default [] (body r).

(** [handleStreamingCompletion]; [chatId] is the generated id. *)
Definition handleStreamingCompletion (chatId : jsstring) (prompt : jsstring)
    (model : json) : M http_response :=
  t ← now;
  let timestamp := mkNum (t / 1000) 0 in
  r ← openTurn true prompt;
  match r with
  | inl err => ret err
  | inr rovoResp =>
      ret (EventStream (chat_stream chatId timestamp model (chunks_of rovoResp)))
  end.

(** [handleNonStreamingCompletion]; [await rovoResp.text()] is the whole
    body decoded at once. *)
Definition handleNonStreamingCompletion (chatId : jsstring) (prompt : jsstring)
    (model : json) : M http_response :=
  t ← now;
  let timestamp := mkNum (t / 1000) 0 in
  r ← openTurn false prompt;
  match r with
  | inl err => ret err
  | inr rovoResp =>
      let fullText := Utf8.text (concat (chunks_of rovoResp)) in
      let content := collectText fullText in
      ret (JsonResponse 200
             (JObject [ (lit "id", JString chatId);
                        (lit "object", JStr "chat.completion");
                        (lit "created", JNumber timestamp);
                        (lit "model", model);
                        (lit "choices",
                          JArray [ JObject [ (lit "index", JInt 0);
                                             (lit "message",
                                               JObject [ (lit "role", JStr "assistant");
                                                         (lit "content", JString content) ]);
                                             (lit "finish_reason", JStr "stop") ] ]);
                        (lit "usage",
                          JObject [ (lit "prompt_tokens", JInt 0);
                                    (lit "completion_tokens", JInt 0);
                                    (lit "total_tokens", JInt 0) ]) ]))
  end.

(** [handleStreamingResponsesViaCompletions] *)
Definition handleStreamingResponsesViaCompletions (respId itemId : jsstring)
    (created_at : nat -> number) (prompt : jsstring) (model : json)
  : M http_response :=
  r ← openTurn true prompt;
  match r with
  | inl err => ret err
  | inr rovoResp =>
      ret (EventStream
             (resp_stream respId itemId model created_at (chunks_of rovoResp)))
  end.

(** [handleNonStreamingResponsesViaCompletions] *)
Definition handleNonStreamingResponsesViaCompletions (respId itemId : jsstring)
    (prompt : jsstring) (model : json) : M http_response :=
  r ← openTurn false prompt;
  match r with
  | inl err => ret err
  | inr rovoResp =>
      let fullSSE := Utf8.text (concat (chunks_of rovoResp)) in
      let content := collectText fullSSE in
      ret (JsonResponse 200
             (JObject [ (lit "id", JString respId);
                        (lit "object", JStr "response");
                        (lit "status", JStr "completed");
                        (lit "model", model);
                        (lit "output",
                          JArray [ JObject [ (lit "id", JString itemId);
                                             (lit "type", JStr "message");
                                             (lit "role", JStr "assistant");
                                             (lit "status", JStr "completed");
                                             (lit "content",
                                               JArray [ JObject [ (lit "type", JStr "output_text");
                                                                  (lit "text", JString content);
                                                                  (lit "annotations", JArray []) ] ]) ] ]);
                        (lit "usage", zeroUsage) ]))
  end.

End WithBackend.

End Driver.

(* ===================================================================== *)
(** ** Request serialization queue                                         *)
(* ===================================================================== *)

(** [enqueue(fn)] replaces [requestQueue] by
    [requestQueue.then(() => fn().then(resolve, reject)).catch(() => {})].
    The k-th call of [enqueue] therefore adds the k-th link of a chain of
    promises that starts at [Promise.resolve()]:
    - the callback of link k, which calls [fn], runs once link k-1 is
      fulfilled;
    - when the promise of [fn()] settles, [resolve] or [reject] hands the
      outcome to the promise that [enqueue] returned to the caller;
    - after that link k is fulfilled, whatever the outcome ([catch]).
    Between these reactions the event loop runs whatever else is ready:
    further calls of [enqueue] and the backend requests of the thunk that
    is running. *)
Module Queue.
Import Js Driver.

Section WithResult.

(** What a thunk resolves with. *)
Variable T : Type.

Inductive settlement :=
| Fulfilled (v : T)
| Rejected (reason : jsstring).

Inductive thunk_state :=
| Waiting                 (* [fn] not called yet *)
| Running                 (* [fn()] pending *)
| Done (o : settlement).  (* [fn()] settled and the caller's promise with it *)

Record slot := mkSlot {
  thunk : thunk_state;
  link : bool             (* this link of [requestQueue] is fulfilled *)
}.

(** What can be observed, each entry one instant. *)
Inductive event :=
| Enqueued (c : nat)
| Began (c : nat)
| Sent (c : nat) (r : request)
| Settled (c : nat) (o : settlement).

Record qstate := mkQ {
  slots : list slot;      (* the chain, oldest link first *)
  trace : list event      (* oldest event first *)
}.

Definition q0 : qstate := mkQ [] [].

(** The promise that link [c] was chained to is fulfilled. *)
Definition prev_fulfilled (q : qstate) (c : nat) : Prop :=
  match c with
  | O => True
  | S p => ∃ s, slots q !! p = Some s ∧ link s = true
  end.

(** [enqueue(fn)], the synchronous part: one more link is chained to
    [requestQueue]; its thunk waits. *)
Definition enqueue (q : qstate) : qstate :=
  mkQ (slots q ++ [mkSlot Waiting false])
      (trace q ++ [Enqueued (length (slots q))]).

Inductive step : qstate -> qstate -> Prop :=
| step_enqueue q :
    step q (enqueue q)
| step_begin q c s :
    slots q !! c = Some s -> thunk s = Waiting -> prev_fulfilled q c ->
    step q (mkQ (<[c := mkSlot Running (link s)]> (slots q))
                (trace q ++ [Began c]))
| step_send q c s r :
    slots q !! c = Some s -> thunk s = Running ->
    step q (mkQ (slots q) (trace q ++ [Sent c r]))
| step_settle q c s o :
    slots q !! c = Some s -> thunk s = Running ->
    step q (mkQ (<[c := mkSlot (Done o) (link s)]> (slots q))
                (trace q ++ [Settled c o]))
| step_link q c s o :
    slots q !! c = Some s -> thunk s = Done o ->
    step q (mkQ (<[c := mkSlot (Done o) true]> (slots q)) (trace q)).

Definition reachable (q : qstate) : Prop := rtc step q0 q.

Definition is_enqueued (e : event) : bool :=
  match e with Enqueued _ => true | _ => false end.

(** What holds of every reachable state; positions in the trace are
    instants. *)
Record invariant (q : qstate) : Prop := mkInv {
  (* a thunk that has begun has every earlier thunk settled *)
  inv_order : ∀ c s, slots q !! c = Some s -> thunk s ≠ Waiting ->
      ∀ p, (p < c)%nat -> ∃ sp o, slots q !! p = Some sp ∧ thunk sp = Done o;
  inv_link : ∀ c s, slots q !! c = Some s -> link s = true ->
      ∃ o, thunk s = Done o;
  inv_began : ∀ c s, slots q !! c = Some s -> thunk s ≠ Waiting ->
      ∃ b, trace q !! b = Some (Began c);
  (* a request belongs to a thunk that began before it *)
  inv_sent : ∀ i c r, trace q !! i = Some (Sent c r) ->
      ∃ s b, slots q !! c = Some s ∧ thunk s ≠ Waiting
             ∧ (b < i)%nat ∧ trace q !! b = Some (Began c);
  (* a settled thunk settled after all its requests *)
  inv_done : ∀ c s o, slots q !! c = Some s -> thunk s = Done o ->
      ∃ k, trace q !! k = Some (Settled c o)
           ∧ ∀ i r, trace q !! i = Some (Sent c r) -> (i < k)%nat;
  inv_settled : ∀ k c o, trace q !! k = Some (Settled c o) ->
      ∃ s, slots q !! c = Some s ∧ thunk s = Done o;
  inv_settled_once : ∀ k k' c o o',
      trace q !! k = Some (Settled c o) ->
      trace q !! k' = Some (Settled c o') -> k = k';
  (* requests in submission order, those of two calls separated by the
     settlement of the earlier call *)
  inv_fifo : ∀ i j c1 c2 r1 r2, (i < j)%nat ->
      trace q !! i = Some (Sent c1 r1) -> trace q !! j = Some (Sent c2 r2) ->
      (c1 <= c2)%nat ∧ ((c1 < c2)%nat -> ∃ k o, (i < k < j)%nat
                                    ∧ trace q !! k = Some (Settled c1 o));
  (* a thunk begins after every earlier one has settled *)
  inv_begin : ∀ j c2, trace q !! j = Some (Began c2) ->
      ∀ c1, (c1 < c2)%nat -> ∃ k o, (k < j)%nat ∧ trace q !! k = Some (Settled c1 o);
  (* calls are numbered in the order of their [enqueue] *)
  inv_enqueued :
      filter (fun e => is_enqueued e = true) (trace q)
      = map Enqueued (seq 0%nat (length (slots q)))
}.

End WithResult.

Arguments Fulfilled {T} v.
Arguments Rejected {T} reason.
Arguments Waiting {T}.
Arguments Running {T}.
Arguments Done {T} o.
Arguments mkSlot {T} thunk link.
Arguments thunk {T} s.
Arguments link {T} s.
Arguments Enqueued {T} c.
Arguments Began {T} c.
Arguments Sent {T} c r.
Arguments Settled {T} c o.
Arguments mkQ {T} slots trace.
Arguments slots {T} q.
Arguments trace {T} q.
Arguments q0 {T}.
Arguments prev_fulfilled {T} q c.
Arguments enqueue {T} q.
Arguments step {T} _ _.
Arguments reachable {T} q.
Arguments is_enqueued {T} e.
Arguments step_enqueue {T} q.
Arguments step_begin {T} q c s _ _ _.
Arguments step_send {T} q c s r _ _.
Arguments step_settle {T} q c s o _ _.
Arguments step_link {T} q c s o _ _.
Arguments invariant {T} q.

End Queue.

(* ===================================================================== *)
(** ** Observations on emitted frames                                      *)
(* ===================================================================== *)

Module Observe.
Import Js Json Proxy.

(** [payload.choices[0].finish_reason] and [payload.choices[0].delta.content]
    of a chat-completions chunk. *)
Definition first_choice (payload : json) : option json :=
  match get payload "choices" with
  | Some (JArray (c :: _)) => Some c
  | _ => None
  end.

Definition is_stop_chunk (f : frame) : bool :=
  match f with
  | DataJson p => is_lit (get_opt (first_choice p) "finish_reason") "stop"
  | _ => false
  end.

Definition is_done (f : frame) : bool :=
  match f with DataDone => true | _ => false end.

Definition delta_content (f : frame) : option json :=
  match f with
  | DataJson p => get_opt (get_opt (first_choice p) "delta") "content"
  | _ => None
  end.

Definition event_type (f : frame) : jsstring :=
  match f with EventJson t _ => t | _ => [] end.

Definition is_event (t : string) (f : frame) : bool :=
  str_eqb (event_type f) (lit t).

(** [payload.delta] of a [response.output_text.delta] event. *)
Definition event_delta (f : frame) : option json :=
  match f with
  | EventJson _ p => get p "delta"
  | _ => None
  end.

(** [payload.sequence_number] *)
Definition sequence_number (f : frame) : option json :=
  match f with
  | EventJson _ p => get p "sequence_number"
  | _ => None
  end.

Definition count (p : frame -> bool) (out : list frame) : nat :=
  length (filter (fun f => p f = true) out).

(** Every stop chunk of [out] is directly followed by [data: [DONE]]. *)
Definition stop_then_done (out : list frame) : Prop :=
  ∀ i f, out !! i = Some f -> is_stop_chunk f = true ->
         out !! S i = Some DataDone.

(** The JSON text of a [data: ] line, [None] for any other line. *)
Definition sseData (line : jsstring) : option jsstring :=
  if startsWith (trim line) (lit "data: ")
  then Some (trim (slice 6 (trim line))) else None.

(** The backend's own [data: [DONE]] line. *)
Definition is_sentinel (line : jsstring) : bool :=
  match sseData line with
  | Some s => str_eqb s (lit "[DONE]")
  | None => false
  end.

(** A line carrying an event that [isStreamEnd] accepts. *)
Definition is_end_of_turn (line : jsstring) : bool :=
  match sseData line with
  | Some s =>
      negb (str_eqb s (lit "[DONE]"))
      && match parse s with Some data => isStreamEnd data | None => false end
  | None => false
  end.

(** Whether the first line of [lines] that ends the turn, if any, is the
    backend's own sentinel. *)
Fixpoint sentinel_first (lines : list jsstring) : bool :=
  match lines with
  | [] => false
  | l :: ls =>
      if is_sentinel l then true
      else if is_end_of_turn l then false
      else sentinel_first ls
  end.

(** The text that a line contributes, [JNull] when it contributes none. *)
Definition line_text (line : jsstring) : json :=
  match sseData line with
  | Some s =>
      if str_eqb s (lit "[DONE]") then JNull
      else match parse s with Some data => extractText data | None => JNull end
  | None => JNull
  end.

Definition preamble_types : list jsstring :=
  [ lit "response.created"; lit "response.in_progress";
    lit "response.output_item.added"; lit "response.content_part.added" ].

Definition closing_types : list jsstring :=
  [ lit "response.output_text.done"; lit "response.content_part.done";
    lit "response.output_item.done"; lit "response.completed" ].

(** A [data: null] line, on which [transform] of the response-lifecycle
    transcoder throws. *)
Definition is_null_line (line : jsstring) : bool :=
  match sseData line with
  | Some s =>
      negb (str_eqb s (lit "[DONE]"))
      && match parse s with Some JNull => true | _ => false end
  | None => false
  end.

Definition text_of_line (line : jsstring) : list json :=
  if truthy (line_text line) then [line_text line] else [].

(** A line on which [transform] of the response-lifecycle transcoder
    throws before it looks for text: [data: null], or a usage event whose
    counters have no sum. *)
Definition throws_early (line : jsstring) : bool :=
  match sseData line with
  | Some s =>
      negb (str_eqb s (lit "[DONE]"))
      && match parse s with
         | Some JNull => true
         | Some data =>
             is_number (get data "input_tokens")
             && match captureUsage data with None => true | Some _ => false end
         | None => false
         end
  | None => false
  end.

(** The text fragments that [transform] extracts from [lines], in order,
    up to the point where it throws, and whether it does.  A fragment
    without a string form is extracted and is the last one: [fullText +=
    text] throws on it. *)
Fixpoint texts_of (lines : list jsstring) : list json * bool :=
  match lines with
  | [] => ([], false)
  | l :: ls =>
      if throws_early l then ([], true)
      else if truthy (line_text l) then
        if throwsAt (line_text l) then ([line_text l], true)
        else let '(ts, e) := texts_of ls in (line_text l :: ts, e)
      else texts_of ls
  end.

(** The text fragments extracted from a whole decoded body and whether the
    stream errored: complete lines go through [transform], the last
    fragment through [flush], which catches what it throws. *)
Definition texts_of_body (whole : jsstring) : list json * bool :=
  let '(lines, frag) := pop (split_nl whole) in
  let '(ts, e) := texts_of lines in
  if e then (ts, true) else (ts ++ text_of_line frag, false).

(** Of the fragments extracted, those that have a string form: the ones
    for which a delta is emitted. *)
Definition printed (texts : list json) : list json :=
  filter (fun t => throwsAt t = false) texts.

(** The string forms of [texts], those without one left out. *)
Definition strings_of (texts : list json) : list jsstring :=
  omap toString texts.

Definition delta_type : jsstring := lit "response.output_text.delta".


(** The state of the response-lifecycle transcoder with another decoder
    and line buffer. *)
Definition with_io (dec : Utf8.dstate) (buf : jsstring) (st : resp_state)
  : resp_state :=
  mkResp dec buf (r_fullText st) (r_preambleSent st) (r_seqNum st)
         (r_usageData st) (r_errored st).



(** Whether a reply is a response with a success status. *)
Definition accepts (r : Driver.reply) : bool :=
  match Driver.result r with
  | Driver.Resolves resp => Driver.ok resp
  | Driver.Rejects _ => false
  end.

(** Whether a reply is a response with status 409. *)
Definition busy (r : Driver.reply) : bool :=
  match Driver.result r with
  | Driver.Resolves resp => (Driver.status resp =? 409)%Z
  | Driver.Rejects _ => false
  end.

(** Only idle probes, no submission and no stream-open, and the clock does
    not go back. *)
Definition only_probes (w w' : Driver.world) : Prop :=
  Driver.n_set w' = Driver.n_set w ∧ Driver.n_stream w' = Driver.n_stream w
  ∧ (Driver.clock w <= Driver.clock w')%Z
  ∧ ∃ k, Driver.log w' = Driver.log w ++ replicate k Driver.SessionsCreate
         ∧ Driver.n_probe w' = (Driver.n_probe w + k)%nat.

(** The world after one request to an endpoint has been answered. *)
Definition after_set (be : Driver.backend) (text : jsstring) (w : Driver.world)
  : Driver.world :=
  Driver.mkWorld
    (Driver.clock w + Z.of_N (Driver.elapsed (Driver.set_chat_message be (Driver.n_set w))))
    (S (Driver.n_set w)) (Driver.n_probe w) (Driver.n_stream w)
    (Driver.log w ++ [Driver.SetChatMessage text]).

Definition after_stream (be : Driver.backend) (w : Driver.world) : Driver.world :=
  Driver.mkWorld
    (Driver.clock w + Z.of_N (Driver.elapsed (Driver.stream_chat be (Driver.n_stream w))))
    (Driver.n_set w) (Driver.n_probe w) (S (Driver.n_stream w))
    (Driver.log w ++ [Driver.StreamChat]).

Definition after_probe (be : Driver.backend) (w : Driver.world) : Driver.world :=
  Driver.mkWorld
    (Driver.clock w + Z.of_N (Driver.elapsed (Driver.sessions_create be (Driver.n_probe w))))
    (Driver.n_set w) (S (Driver.n_probe w)) (Driver.n_stream w)
    (Driver.log w ++ [Driver.SessionsCreate]).

(** The world in which an attempt submits the prompt: after the idle wait
    at the top of the loop, which the first attempt skips. *)
Definition top_wait (be : Driver.backend) (attempt : nat) (w : Driver.world)
  : Driver.world :=
  if (0 <? attempt)%nat then snd (Driver.waitForAgentIdle be 30000 w) else w.

Definition busy_message : jsstring :=
  lit "Rovo Dev agent remained busy after all retries".

Definition unreachable_message : jsstring :=
  lit "Failed to send message to Rovo Dev after retries".

Definition is_probe (r : Driver.request) : bool :=
  match r with Driver.SessionsCreate => true | _ => false end.

(** The requests of a log that are not idle probes. *)
Definition turns (l : list Driver.request) : list Driver.request :=
  filter (fun r => is_probe r = false) l.

End Observe.

(* ===================================================================== *)
(** ** Sample inputs                                                       *)
(* ===================================================================== *)

Module Samples.
Import Js Json Proxy Driver.

(** Sample texts are written with an apostrophe where the JSON text has a
    double quote. *)
Fixpoint quoted (s : string) : string :=
  match s with
  | EmptyString => EmptyString
  | String c s' =>
      String (if Ascii.eqb c (ascii_of_nat 39) then ascii_of_nat 34 else c)
             (quoted s')
  end.

Definition hel_line : string :=
  (quoted "data: {'event_kind':'part_delta','delta':{'part_delta_kind':'text','content_delta':'Hel'}}").
Definition lo_line : string :=
  (quoted "data: {'event_kind':'part_delta','delta':{'part_delta_kind':'text','content_delta':'lo'}}").
Definition usage_line : string :=
  (quoted "data: {'input_tokens':3,'output_tokens':2}").

Definition nl : string := String (ascii_of_nat 10) EmptyString.

(** The three lines as a backend body, each ended by a newline. *)
Definition hello_body : list Byte.byte :=
  Utf8.bytes_of (hel_line ++ nl ++ lo_line ++ nl ++ usage_line ++ nl).

Definition quick (code : Z) (body : option (list (list Byte.byte))) : reply :=
  mkReply 10 (Resolves (mkResponse code body)).

(** A backend that accepts every message, is idle at every probe and
    streams [hello_body] in one chunk. *)
Definition hello_backend : backend :=
  mkBackend (fun _ => quick 200 None) (fun _ => quick 200 None)
            (fun _ => quick 200 (Some [hello_body])).

(** A backend that is busy at every stream-open. *)
Definition busy_backend : backend :=
  mkBackend (fun _ => quick 200 None) (fun _ => quick 409 None)
            (fun _ => quick 409 None).

(** Busy at the first stream-open only; idle at every probe. *)
Definition busy_once_backend : backend :=
  mkBackend (fun _ => quick 200 None) (fun _ => quick 200 None)
            (fun k => match k with
                      | O => quick 409 None
                      | S _ => quick 200 (Some [hello_body])
                      end).

(** Busy at the first stream-open, then the re-submission is refused once. *)
Definition refusing_backend : backend :=
  mkBackend (fun k => match k with
                      | 1%nat => quick 500 None
                      | _ => quick 200 None
                      end)
            (fun _ => quick 200 None)
            (fun k => match k with
                      | O => quick 409 None
                      | S _ => quick 200 (Some [hello_body])
                      end).

(** A backend whose stream-open answers 500. *)
Definition failing_backend : backend :=
  mkBackend (fun _ => quick 200 None) (fun _ => quick 200 None)
            (fun _ => quick 500 None).


(** The backend's own sentinel and nothing else. *)
Definition sentinel_body : list Byte.byte := Utf8.bytes_of "data: [DONE]".

(** A usage event and no text. *)
Definition usage_only_body : list Byte.byte :=
  Utf8.bytes_of (usage_line ++ nl).

(** "data: é\n" cut inside the two bytes of "é". *)
Definition split_body : list (list Byte.byte) :=
  [ Utf8.bytes_of (quoted "data: {'text_delta':'caf") ++ [Byte.xc3];
    [Byte.xa9] ++ Utf8.bytes_of (quoted "'}") ++ Utf8.bytes_of nl ++ Utf8.bytes_of (quoted "data: {'do");
    Utf8.bytes_of (quoted "ne':true}") ].

(** Two calls through the queue, the second enqueued while the first is
    still waiting: the first runs a whole turn and settles, then the
    second. *)
Definition two_calls : Queue.qstate unit :=
  Queue.mkQ
    [ Queue.mkSlot (Queue.Done (Queue.Fulfilled tt)) true;
      Queue.mkSlot (Queue.Done (Queue.Rejected (lit "boom"))) false ]
    [ Queue.Enqueued 0%nat; Queue.Enqueued 1%nat; Queue.Began 0%nat;
      Queue.Sent 0%nat (SetChatMessage (lit "a")); Queue.Sent 0%nat StreamChat;
      Queue.Settled 0%nat (Queue.Fulfilled tt); Queue.Began 1%nat;
      Queue.Sent 1%nat (SetChatMessage (lit "b"));
      Queue.Settled 1%nat (Queue.Rejected (lit "boom")) ].


(** A text event without its newline, then the first byte of a two-byte
    character, and nothing more. *)
Definition cut_body : list Byte.byte :=
  Utf8.bytes_of (quoted "data: {'text_delta':'a'}") ++ [Byte.xc3].


Definition empty_delta : string :=
  (quoted "{'event_kind':'part_delta','delta':{'part_delta_kind':'text','content_delta':''}}").

End Samples.

(* ===================================================================== *)
(** ** Prompt construction: [formatMessages], [parseResponsesAPIInput]     *)
(* ===================================================================== *)

(** Both functions receive what [JSON.parse] made of the request body, so
    their arguments are [json] values.  Reading a property of [null] throws
    a [TypeError], as does calling [map] on a value that is not an array:
    [None] stands for that exception. *)
Module Prompt.
Import Js Json Proxy.

(** ["\n"] *)
Definition newline : jsstring := [10].

(** An element as [Array.prototype.join] prints it: nothing for
    [undefined] and [null], [ToString] for the rest, which throws for a
    value without a string form. *)
Definition join_item (o : option json) : option jsstring :=
  match o with
  | None | Some JNull => Some []
  | Some v => toString v
  end.

(** [texts.join("\n")] *)
Definition joinTexts (texts : list (option json)) : option jsstring :=
  parts ← mapM join_item texts;
  Some (join newline parts).

(** [blocks.filter((b) => b.type === k1 || ... ).map((b) => b.text)] for the
    literals [kinds]. *)
Fixpoint textsOfBlocks (kinds : list string) (blocks : list json)
  : option (list (option json)) :=
  match blocks with
  | [] => Some []
  | JNull :: _ => None
  | b :: rest =>
      ts ← textsOfBlocks kinds rest;
      Some (if existsb (is_lit (get b "type")) kinds then get b "text" :: ts
            else ts)
  end.

(** The [content] that the callback of [formatMessages] computes for one
    message. *)
Definition contentOf (m : json) : option jsstring :=
  match get m "content" with
  | Some (JString s) => Some s
  | Some (JArray blocks) =>
      ts ← textsOfBlocks ["text"%string] blocks;
      joinTexts ts
  | Some JNull | None => Some []
  | Some v => toString v
  end.

(** The callback of [messages.map] in [formatMessages]. *)
Definition formatMessage (m : json) : option jsstring :=
  match m with
  | JNull => None
  | _ =>
      content ← contentOf m;
      Some (if is_lit (get m "role") "system"
            then lit "[System Instructions]" ++ newline ++ content
            else if is_lit (get m "role") "assistant"
            then lit "[Assistant]" ++ newline ++ content
            else if is_lit (get m "role") "user"
            then lit "[User]" ++ newline ++ content
            else content)
  end.

(** [formatMessages(messages)] *)
Definition formatMessages (messages : json) : option jsstring :=
  match messages with
  | JArray ms =>
      parts ← mapM formatMessage ms;
      Some (join (newline ++ newline) parts)
  | _ => None
  end.

(** [{ role, content }] *)
Definition message (role content : json) : json :=
  JObject [ (lit "role", role); (lit "content", content) ].

(** The body of [for (const item of input)] in [parseResponsesAPIInput]:
    the messages pushed for one item. *)
Definition parseItem (item : json) : option (list json) :=
  match item with
  | JString _ => Some [message (JStr "user") item]
  | JArray _ | JObject _ =>
      match get item "content" with
      | Some (JArray blocks) =>
          if is_lit (get item "type") "message" then
            ts ← textsOfBlocks ["input_text"; "output_text"; "text"]%string blocks;
            text ← joinTexts ts;
            Some (if negb (str_eqb text [])
                  then [message (or_else (get item "role") (JStr "user"))
                                (JString text)]
                  else [])
          else
            match get item "role" with
            | Some role =>
                if truthy role
                then Some [message role (JArray blocks)]
                else Some []
            | None => Some []
            end
      | Some content =>
          match get item "role" with
          | Some role =>
              if truthy role && truthy content
              then Some [message role content]
              else Some []
          | None => Some []
          end
      | None => Some []
      end
  | _ => Some []
  end.

(** [parseResponsesAPIInput(body)] *)
Definition parseResponsesAPIInput (body : json) : option (list json) :=
  match body with
  | JNull => None
  | _ =>
      let system :=
        match get body "instructions" with
        | Some (JString s) =>
            if negb (str_eqb s []) then [message (JStr "system") (JString s)]
            else []
        | _ => []
        end in
      pushed ←
        match get body "input" with
        | Some (JString s) => Some [message (JStr "user") (JString s)]
        | Some (JArray items) =>
            each ← mapM parseItem items; Some (concat each)
        | _ => Some []
        end;
      Some (match system ++ pushed with
            | [] => [message (JStr "user") (JStr "(empty)")]
            | messages => messages
            end)
  end.

End Prompt.

(* ===================================================================== *)
(** ** The plugin's URL rewriting (src/plugin.ts)                          *)
(* ===================================================================== *)

Module Plugin.
Import Js.

Definition PROXY_BASE : jsstring := lit "http://localhost:4100".

(** [s.indexOf(p)], [None] for -1. *)
Fixpoint indexOf (s p : jsstring) : option nat :=
  if startsWith s p then Some 0%nat
  else match s with
       | [] => None
       | _ :: s' => S <$> indexOf s' p
       end.

(** [s.substring(n)] for an index [n] within [s]. *)
Definition substring (n : nat) (s : jsstring) : jsstring := drop n s.

(** The pattern of [rawUrl.match] is a slash, a first group that is one of
    four alternatives, and a second group that takes every character up to
    the next line terminator.  The alternatives, in the order in which the
    matcher tries them: *)
Definition alternatives : list jsstring :=
  [ lit "chat/completions"; lit "models"; lit "completions"; lit "responses" ].

(** LineTerminator of ECMAScript, which [.] does not match. *)
Definition isLineTerminator (c : N) : bool :=
  (c =? 10) || (c =? 13) || (c =? 0x2028) || (c =? 0x2029).

(** What the second group captures: it is greedy. *)
Fixpoint dotStar (s : jsstring) : jsstring :=
  match s with
  | c :: s' => if isLineTerminator c then [] else c :: dotStar s'
  | [] => []
  end.

(** The pattern tried at the front of [s]: the two captures.  The second
    group matches the empty string as well, so the first alternative that
    fits is the one kept. *)
Definition matchHere (s : jsstring) : option (jsstring * jsstring) :=
  match s with
  | c :: r =>
      if c =? 47 then
        alt ← find (startsWith r) alternatives;
        Some (alt, dotStar (drop (length alt) r))
      else None
  | [] => None
  end.

(** [rawUrl.match(/.../)]: the leftmost position at which the pattern
    fits. *)
Fixpoint pathMatch (s : jsstring) : option (jsstring * jsstring) :=
  match matchHere s with
  | Some m => Some m
  | None => match s with
            | [] => None
            | _ :: s' => pathMatch s'
            end
  end.

(** [targetUrl] as the [fetch] hook computes it from [rawUrl]. *)
Definition targetUrl (rawUrl : jsstring) : jsstring :=
  match indexOf rawUrl (lit "/v1") with
  | Some v1Idx => PROXY_BASE ++ substring v1Idx rawUrl
  | None =>
      match pathMatch rawUrl with
      | Some (g1, g2) => PROXY_BASE ++ lit "/v1/" ++ g1 ++ g2
      | None => PROXY_BASE ++ lit "/v1/chat/completions"
      end
  end.

End Plugin.

(* ===================================================================== *)
(** ** [streamChatWithRetry]                                               *)
(* ===================================================================== *)

(** The function is defined in rovodev-proxy.ts but never called. *)
Module Unused.
Import Js Json Proxy Driver.

Section WithBackend.

Variable be : backend.

(** The [for] loop of [streamChatWithRetry] from [attempt] on, with [left]
    iterations to go, and the request after the loop.  Every path through
    the body of the loop ends in [return], so no iteration is followed by
    another. *)
Definition streamChatWithRetry_from (maxRetries left attempt : nat)
  : M Response :=
  match left with
  | O => fetch_stream_chat be
  | S _ =>
      resp ← fetch_stream_chat be;
      if ok resp then ret resp
      else if (status resp =? 409)%Z && (attempt <? maxRetries - 1)%nat then
        waitForAgentIdle be 30000;; ret resp
      else ret resp
  end.

(** [streamChatWithRetry(maxRetries = 5)] *)
Definition streamChatWithRetry (maxRetries : nat) : M Response :=
  streamChatWithRetry_from maxRetries maxRetries 0.

End WithBackend.

End Unused.

(* ===================================================================== *)
(** ** The handlers, from the messages on                                  *)
(* ===================================================================== *)

(** Each handler builds its prompt with [formatMessages(messages)] outside
    its [try]: a [TypeError] thrown there rejects the promise of the
    handler.  [typeError messages] is the message that the engine gives to
    that error. *)
Module Entry.
Import Js Json Proxy Driver Prompt.

Section WithBackend.

Variable be : backend.
Variable typeError : json -> jsstring.

(** [const prompt = formatMessages(messages);] and what follows it. *)
Definition withPrompt {A} (messages : json) (rest : jsstring -> M A) : M A :=
  match formatMessages messages with
  | Some prompt => rest prompt
  | None => fun w => (Throw (typeError messages), w)
  end.

Definition handleStreamingCompletion (chatId : jsstring) (messages model : json)
  : M http_response :=
  withPrompt messages
    (fun prompt => Driver.handleStreamingCompletion be chatId prompt model).

Definition handleNonStreamingCompletion (chatId : jsstring)
    (messages model : json) : M http_response :=
  withPrompt messages
    (fun prompt => Driver.handleNonStreamingCompletion be chatId prompt model).

Definition handleStreamingResponsesViaCompletions (respId itemId : jsstring)
    (created_at : nat -> number) (messages model : json) : M http_response :=
  withPrompt messages
    (fun prompt =>
       Driver.handleStreamingResponsesViaCompletions be respId itemId created_at
         prompt model).

Definition handleNonStreamingResponsesViaCompletions (respId itemId : jsstring)
    (messages model : json) : M http_response :=
  withPrompt messages
    (fun prompt =>
       Driver.handleNonStreamingResponsesViaCompletions be respId itemId
         prompt model).

End WithBackend.

End Entry.

(* ===================================================================== *)
(** ** Further observations                                                *)
(* ===================================================================== *)

Module Account.
Import Js Json Proxy Driver Observe.

(** *** Backend requests of one [sendAndStream] *)

(** The requests of one attempt: the submission and, when it was accepted,
    the stream-open. *)
Definition attempt_requests (prompt : jsstring) (opened : bool) : list request :=
  if opened then [SetChatMessage prompt; StreamChat]
  else [SetChatMessage prompt].

Definition attempts_requests (prompt : jsstring) (attempts : list bool)
  : list request :=
  concat (map (attempt_requests prompt) attempts).

(** *** Response-lifecycle events *)

Section Lifecycle.

Variable respId itemId : jsstring.
Variable model : json.
Variable created_at : nat -> number.

(** One [response.output_text.delta] after the other. *)
Fixpoint sendDeltas (texts : list json) (st : resp_state)
  : list frame * resp_state :=
  match texts with
  | [] => ([], st)
  | t :: ts =>
      let '(o1, st1) := sendDelta respId itemId model created_at t st in
      let '(o2, st2) := sendDeltas ts st1 in
      (o1 ++ o2, st2)
  end.

End Lifecycle.

(** The state of the transcoder with other usage counters and error
    flag. *)
Definition with_usage (usage : json) (errored : bool) (st : resp_state)
  : resp_state :=
  mkResp (r_decoder st) (r_buffer st) (r_fullText st) (r_preambleSent st)
         (r_seqNum st) usage errored.

(** The usage counters that a line sets, if it does. *)
Definition line_usage (line : jsstring) : option json :=
  match sseData line with
  | Some s =>
      if str_eqb s (lit "[DONE]") then None
      else match parse s with
           | Some data =>
               if is_number (get data "input_tokens")
               then captureUsage data else None
           | None => None
           end
  | None => None
  end.

(** The usage counters after [lines], up to the first line on which
    [transform] throws. *)
Fixpoint usage_of (lines : list jsstring) (usage : json) : json :=
  match lines with
  | [] => usage
  | l :: ls =>
      if throws_early l then usage
      else if truthy (line_text l) && throwsAt (line_text l)
      then default usage (line_usage l)
      else usage_of ls (default usage (line_usage l))
  end.

(** [payload.text] of a [response.output_text.done] event. *)
Definition event_text (f : frame) : option json :=
  match f with
  | EventJson _ p => get p "text"
  | _ => None
  end.

(** [payload.response.usage] of a [response.completed] event. *)
Definition event_usage (f : frame) : option json :=
  match f with
  | EventJson _ p => get_opt (get p "response") "usage"
  | _ => None
  end.

(** [id], [object], [created] and [model] of a chat-completions chunk. *)
Definition chunk_head (f : frame) : list (option json) :=
  match f with
  | DataJson p => [get p "id"; get p "object"; get p "created"; get p "model"]
  | _ => []
  end.

(** A chunk of a chat-completions stream that is not the terminator has
    the head fixed for the call. *)
Definition has_head (chatId : jsstring) (timestamp : number) (model : json)
    (f : frame) : Prop :=
  f = DataDone
  ∨ chunk_head f = [ Some (JString chatId); Some (JStr "chat.completion.chunk");
                     Some (JNumber timestamp); Some model ].

(** The sequence number [n] as an event carries it. *)
Definition numbered (n : nat) : option json := Some (JInt (Z.of_nat n)).

(** The events of [out] are numbered [n], [n + 1], ... in this order. *)
Definition numbered_from (n : nat) (out : list frame) : Prop :=
  map sequence_number out = map numbered (seq n (length out)).


End Account.

(* ===================================================================== *)
(** ** Well-formed requests and further samples                            *)
(* ===================================================================== *)

Module Shape.
Import Js Json Proxy Driver Prompt Samples.

(** A value that [String], [join] and [+] can print: [ToString] does not
    throw on it. *)
Definition printable (v : json) : Prop := is_Some (toString v).

(** Blocks that [filter], [map] and [join] can read: none is [null], and
    the [text] of each block of one of the kinds [kinds] is printable. *)
Definition readable_blocks (kinds : list string) (blocks : list json) : Prop :=
  Forall (fun b => b ≠ JNull
                   ∧ (existsb (is_lit (get b "type")) kinds = true ->
                      ∀ t, get b "text" = Some t -> printable t))
         blocks.

(** A message that [formatMessages] can read: not [null]; an array
    content has readable blocks, any other content is printable. *)
Definition readable (m : json) : Prop :=
  m ≠ JNull
  ∧ ∀ v, get m "content" = Some v ->
         match v with
         | JArray blocks => readable_blocks ["text"%string] blocks
         | _ => printable v
         end.

(** An input item that [parseResponsesAPIInput] can read: when it is of
    type ["message"] with an array content, its blocks are readable. *)
Definition readable_item (item : json) : Prop :=
  ∀ blocks, is_lit (get item "type") "message" = true ->
            get item "content" = Some (JArray blocks) ->
            readable_blocks ["input_text"; "output_text"; "text"]%string blocks.


(** The system part of the prompt built from [body.instructions]. *)
Definition instructions_header (body : json) : jsstring :=
  match get body "instructions" with
  | Some (JString s) =>
      if str_eqb s [] then []
      else lit "[System Instructions]" ++ newline ++ s ++ newline ++ newline
  | _ => []
  end.

(** A backend that refuses every submission. *)
Definition refusing_all_backend : backend :=
  mkBackend (fun _ => mkReply 10 (Resolves (mkResponse 500 None)))
            (fun _ => mkReply 10 (Resolves (mkResponse 200 None)))
            (fun _ => mkReply 10 (Resolves (mkResponse 200 None))).

Definition system_brief : json := message (JStr "system") (JStr "be brief").

Definition user_hi : json := message (JStr "user") (JStr "hi").

(** A text event, then a [data: null] line, then more text. *)
Definition null_line_body : list Byte.byte :=
  Utf8.bytes_of (quoted "data: {'text_delta':'a'}" ++ nl ++ "data: null" ++ nl
                 ++ quoted "data: {'text_delta':'b'}" ++ nl).

End Shape.

(* ===================================================================== *)
(** ** Further observations on the queue                                   *)
(* ===================================================================== *)

Module Turns.
Import Js Driver Queue.

Section WithResult.

Variable T : Type.

(** Each call begins once, after its [enqueue], and settles after it
    began. *)
Record runs_once (q : qstate T) : Prop := mkOnce {
  once_began_slot : ∀ b c, trace q !! b = Some (Began c) ->
      ∃ s, slots q !! c = Some s ∧ thunk s ≠ Waiting;
  once_began : ∀ b b' c,
      trace q !! b = Some (Began c) -> trace q !! b' = Some (Began c) -> b = b';
  once_settled_after : ∀ k c o, trace q !! k = Some (Settled c o) ->
      ∃ b, (b < k)%nat ∧ trace q !! b = Some (Began c);
  once_began_after : ∀ b c, trace q !! b = Some (Began c) ->
      ∃ e, (e < b)%nat ∧ trace q !! e = Some (Enqueued c);
  once_enqueued : ∀ c, (c < length (slots q))%nat ->
      ∃ e, trace q !! e = Some (Enqueued c)
}.

(** The state of every thunk of the chain, oldest first. *)
Definition thunks (q : qstate T) : list (thunk_state T) :=
  map thunk (slots q).

(** How call [c] ends when every call that has not settled yet settles
    with [out c]. *)
Definition final (out : nat -> settlement T) (c : nat) (t : thunk_state T)
  : settlement T :=
  match t with
  | Done o => o
  | _ => out c
  end.

End WithResult.

Arguments runs_once {T} q.
Arguments thunks {T} q.
Arguments final {T} out c t.

End Turns.

(* ===================================================================== *)
(** ** The chain and the body of a streamed answer                         *)
(* ===================================================================== *)

(** A thunk of the queue is a call of one of the handlers.  The
    non-streaming handlers read the backend's body to its end
    ([await rovoResp.text()]) before they return, so inside the thunk.  The
    streaming handlers return [new Response(transformed)] with the
    backend's body piped through the transform and not read yet: the
    thunk settles with that response, and the backend's body is pulled
    afterwards, as the server reads the response it was given. *)
Module Wire.
Import Js Json Proxy Driver Queue Samples.

(** Whether the response that a thunk resolved with is a stream whose
    source, the backend's body, is still to be read. *)
Definition streams (r : http_response) : bool :=
  match r with EventStream _ => true | _ => false end.

(** What goes on between the proxy and the backend, each entry one
    instant: the events of the chain, and the reads of the body of the
    stream-open of call [c], chunk after chunk up to its end. *)
Inductive wire_event :=
| Chain (e : event http_response)
| Pulled (c : nat).

Record wstate := mkW {
  chain : qstate http_response;
  wire : list wire_event          (* oldest event first *)
}.

Definition w0 : wstate := mkW q0 [].

(** The events that a step of the chain adds to its trace. *)
Definition added (q q' : qstate http_response) : list (event http_response) :=
  drop (length (trace q)) (trace q').

Section WithKinds.

(** Whether call [c] is served by a streaming handler. *)
Variable streaming : nat -> bool.

Inductive wstep : wstate -> wstate -> Prop :=
| wstep_chain w q' :
    step (chain w) q' ->
    wstep w (mkW q' (wire w ++ (Chain <$> added (chain w) q')))
(* [await rovoResp.text()] in a non-streaming handler *)
| wstep_text w c s :
    slots (chain w) !! c = Some s -> thunk s = Running ->
    streaming c = false ->
    wstep w (mkW (chain w) (wire w ++ [Pulled c]))
(* a pull through the piped stream that the thunk resolved with *)
| wstep_pull w c s v :
    slots (chain w) !! c = Some s -> thunk s = Done (Fulfilled v) ->
    streaming c = true -> streams v = true ->
    wstep w (mkW (chain w) (wire w ++ [Pulled c])).

Definition wreachable (w : wstate) : Prop := rtc wstep w0 w.

End WithKinds.

(** Two streaming chat-completions calls, enqueued together. *)
Definition first_prompt : jsstring := lit "one".
Definition second_prompt : jsstring := lit "two".

(** What the first call resolves with. *)
Definition first_response : http_response :=
  EventStream (chat_stream (lit "c0") (mkNum 0 0) (JStr "m") [hello_body]).

(** The first call has settled with its stream, of which nothing is read
    yet when the second call submits its prompt. *)
Definition overlapping : wstate :=
  mkW (mkQ [ mkSlot (Done (Fulfilled first_response)) true;
             mkSlot Running false ]
           [ Enqueued 0%nat; Enqueued 1%nat; Began 0%nat;
             Sent 0%nat (SetChatMessage first_prompt); Sent 0%nat StreamChat;
             Settled 0%nat (Fulfilled first_response); Began 1%nat;
             Sent 1%nat (SetChatMessage second_prompt) ])
      [ Chain (Enqueued 0%nat); Chain (Enqueued 1%nat); Chain (Began 0%nat);
        Chain (Sent 0%nat (SetChatMessage first_prompt));
        Chain (Sent 0%nat StreamChat);
        Chain (Settled 0%nat (Fulfilled first_response));
        Chain (Began 1%nat);
        Chain (Sent 1%nat (SetChatMessage second_prompt));
        Pulled 0%nat ].

End Wire.

(* ===================================================================== *)
(** * Theorems                                                             *)
(* ===================================================================== *)

Local Close Scope N_scope.

Import Js Json Proxy Driver Queue Observe Samples Account.

(** ** The sample transcript *)


(** ** [JSON.parse]: the recursion allowance is never what makes it fail *)

Lemma skip_ws_length (s : jsstring) : length (skip_ws s) <= length s.
Proof.
  induction s as [|c s IH]; [reflexivity|].
  cbn [skip_ws]. destruct (isWs c); cbn [length]; lia.
Qed.

Lemma digits_length (s : jsstring) (acc len : Z) :
  length (snd (digits s acc len)) <= length s.
Proof.
  revert acc len. induction s as [|c s IH]; intros acc len; [reflexivity|].
  cbn [digits]. destruct (isDigit c); cbn [length snd]; [|lia].
  etransitivity; [apply IH|lia].
Qed.

Lemma parse_int_part_shorter (s : jsstring) (v : Z) (r : jsstring) :
  parse_int_part s = Some (v, r) -> length r < length s.
Proof.
  destruct s as [|c s]; [discriminate|]. cbn [parse_int_part].
  destruct (c =? 48)%N; [intros [= <- <-]; cbn; lia|].
  destruct (isDigit c) eqn:Ed; [|discriminate].
  cbn [digits]. rewrite Ed.
  pose proof (digits_length s (10 * 0 + Z.of_N (c - 48)) (0 + 1)) as H.
  destruct (digits s _ _) as [[v' l'] r']. intros [= <- <-]. cbn in *. lia.
Qed.

Lemma parse_frac_shorter (s : jsstring) (m v l : Z) (r : jsstring) :
  parse_frac s m = Some (v, l, r) -> length r <= length s.
Proof.
  destruct s as [|c s]; [intros [= <- <- <-]; reflexivity|].
  cbn [parse_frac]. destruct (c =? ch ".")%N; [|intros [= <- <- <-]; reflexivity].
  pose proof (digits_length s m 0) as H.
  destruct (digits s m 0) as [[v' l'] r'].
  destruct (l' =? 0)%Z; [discriminate|]. intros [= <- <- <-]. cbn in *. lia.
Qed.

Lemma parse_exp_shorter (s : jsstring) (v : Z) (r : jsstring) :
  parse_exp s = Some (v, r) -> length r <= length s.
Proof.
  destruct s as [|c s]; [intros [= <- <-]; reflexivity|].
  cbn [parse_exp].
  destruct ((c =? ch "e")%N || (c =? ch "E")%N); [|intros [= <- <-]; reflexivity].
  assert (Hs : ∀ neg s'', (neg, s'')
                = match s with
                  | d :: t => if (d =? ch "-")%N then (true, t)
                              else if (d =? ch "+")%N then (false, t) else (false, s)
                  | [] => (false, s)
                  end -> length s'' <= length s).
  { intros neg s''. destruct s as [|d t]; [intros [= -> ->]; reflexivity|].
    destruct (d =? ch "-")%N; [intros [= -> ->]; cbn; lia|].
    destruct (d =? ch "+")%N; intros [= -> ->]; cbn; lia. }
  destruct (match s with
            | d :: t => if (d =? ch "-")%N then (true, t)
                        else if (d =? ch "+")%N then (false, t) else (false, s)
            | [] => (false, s)
            end) as [neg s''] eqn:E.
  specialize (Hs neg s'' eq_refl).
  pose proof (digits_length s'' 0 0) as H.
  destruct (digits s'' 0 0) as [[v' l'] r'].
  destruct (l' =? 0)%Z; [discriminate|]. intros [= <- <-]. cbn in *. lia.
Qed.

Lemma parse_number_shorter (s : jsstring) (n : number) (r : jsstring) :
  parse_number s = Some (n, r) -> length r < length s.
Proof.
  unfold parse_number.
  assert (Hs : ∀ neg s1, (neg, s1)
                = match s with
                  | c :: s' => if (c =? ch "-")%N then (true, s') else (false, s)
                  | [] => (false, s)
                  end -> length s1 <= length s).
  { intros neg s1. destruct s as [|c s']; [intros [= -> ->]; reflexivity|].
    destruct (c =? ch "-")%N; intros [= -> ->]; cbn; lia. }
  destruct (match s with
            | c :: s' => if (c =? ch "-")%N then (true, s') else (false, s)
            | [] => (false, s)
            end) as [neg s1].
  specialize (Hs neg s1 eq_refl).
  intros H. apply bind_Some in H as ([i s2] & H1 & H).
  apply bind_Some in H as ([[m fl] s3] & H2 & H).
  apply bind_Some in H as ([e s4] & H3 & H).
  injection H as <- <-.
  apply parse_int_part_shorter in H1. apply parse_frac_shorter in H2.
  apply parse_exp_shorter in H3. lia.
Qed.

Lemma parse_hex4_shorter (s : jsstring) (u : N) (r : jsstring) :
  parse_hex4 s = Some (u, r) -> length r < length s.
Proof.
  destruct s as [|a [|b [|c [|d s]]]]; try discriminate.
  cbn [parse_hex4]. intros H.
  apply bind_Some in H as (x & _ & H). apply bind_Some in H as (y & _ & H).
  apply bind_Some in H as (z & _ & H). apply bind_Some in H as (t & _ & H).
  injection H as <- <-. cbn. lia.
Qed.

Lemma parse_chars_shorter (fuel : nat) (s cs r : jsstring) :
  parse_chars fuel s = Some (cs, r) -> length r < length s.
Proof.
  revert s cs r. induction fuel as [|fuel IH]; intros s cs r; [discriminate|].
  cbn [parse_chars]. destruct s as [|c s]; [discriminate|].
  destruct (c =? dquote)%N; [intros [= <- <-]; cbn; lia|].
  destruct (c <? 32)%N; [discriminate|].
  destruct (c =? ch "\")%N.
  - destruct s as [|e s]; [discriminate|].
    destruct (e =? ch "u")%N.
    + intros H. apply bind_Some in H as ([u r1] & H1 & H).
      apply bind_Some in H as ([cs' r2] & H2 & H). injection H as <- <-.
      apply parse_hex4_shorter in H1. apply IH in H2. cbn. lia.
    + intros H. apply bind_Some in H as (u & _ & H).
      apply bind_Some in H as ([cs' r2] & H2 & H). injection H as <- <-.
      apply IH in H2. cbn. lia.
  - intros H. apply bind_Some in H as ([cs' r2] & H2 & H). injection H as <- <-.
    apply IH in H2. cbn. lia.
Qed.

Lemma parse_string_shorter (s k r : jsstring) :
  parse_string s = Some (k, r) -> S (length r) < length s.
Proof.
  destruct s as [|c s]; [discriminate|]. cbn [parse_string].
  destruct (c =? dquote)%N; [|discriminate].
  intros H. apply parse_chars_shorter in H. cbn. lia.
Qed.

Lemma keyword_shorter (kw : string) (v x : json) (s r : jsstring) :
  0 < String.length kw -> keyword kw v s = Some (x, r) ->
  s ≠ [] ∧ length r < length s.
Proof.
  intros Hk. unfold keyword.
  destruct (startsWith s (lit kw)) eqn:E; [|discriminate].
  intros [= <- <-]. destruct s as [|c s].
  - destruct kw; [cbn in Hk; lia|discriminate].
  - split; [discriminate|]. rewrite length_drop. cbn [length]. lia.
Qed.

(** What a parser leaves is shorter than what it was given. *)
Lemma parse_shorter (fuel : nat) :
  (∀ s v r, parse_value fuel s = Some (v, r) -> length r < length s)
  ∧ (∀ s vs r, parse_elements fuel s = Some (vs, r) -> S (length r) < length s)
  ∧ (∀ s fs r, parse_members fuel s = Some (fs, r) -> S (length r) < length s).
Proof.
  induction fuel as [|fuel (IHv & IHe & IHm)];
    [repeat split; intros; discriminate|].
  split; [|split].
  - intros s v r. cbn [parse_value].
    pose proof (skip_ws_length s) as Hs.
    destruct (skip_ws s) as [|c t]; [discriminate|]. cbn [length] in Hs.
    destruct (c =? ch "{")%N.
    { pose proof (skip_ws_length t) as Ht.
      destruct (skip_ws t) as [|d t']; [discriminate|]. cbn [length] in Ht.
      destruct (d =? ch "}")%N; [intros [= <- <-]; lia|].
      intros H. apply bind_Some in H as ([fs r'] & H1 & H). injection H as <- <-.
      apply IHm in H1. cbn [length] in H1. lia. }
    destruct (c =? ch "[")%N.
    { pose proof (skip_ws_length t) as Ht.
      destruct (skip_ws t) as [|d t']; [discriminate|]. cbn [length] in Ht.
      destruct (d =? ch "]")%N; [intros [= <- <-]; lia|].
      intros H. apply bind_Some in H as ([vs r'] & H1 & H). injection H as <- <-.
      apply IHe in H1. cbn [length] in H1. lia. }
    destruct (c =? dquote)%N.
    { intros H. apply bind_Some in H as ([str r'] & H1 & H). injection H as <- <-.
      apply parse_string_shorter in H1. cbn [length] in H1. lia. }
    destruct (c =? ch "t")%N.
    { intros H. apply keyword_shorter in H as [_ H]; [|cbn; lia].
      cbn [length] in H. lia. }
    destruct (c =? ch "f")%N.
    { intros H. apply keyword_shorter in H as [_ H]; [|cbn; lia].
      cbn [length] in H. lia. }
    destruct (c =? ch "n")%N.
    { intros H. apply keyword_shorter in H as [_ H]; [|cbn; lia].
      cbn [length] in H. lia. }
    intros H. apply bind_Some in H as ([n r'] & H1 & H). injection H as <- <-.
    apply parse_number_shorter in H1. cbn [length] in H1. lia.
  - intros s vs r. cbn [parse_elements]. intros H.
    apply bind_Some in H as ([v r1] & H1 & H). apply IHv in H1.
    pose proof (skip_ws_length r1) as Hs.
    destruct (skip_ws r1) as [|c t]; [discriminate|]. cbn [length] in Hs.
    destruct (c =? ch ",")%N.
    { apply bind_Some in H as ([vs' r2] & H2 & H). injection H as <- <-.
      apply IHe in H2. lia. }
    destruct (c =? ch "]")%N; [|discriminate]. injection H as <- <-. lia.
  - intros s fs r. cbn [parse_members]. intros H.
    apply bind_Some in H as ([k r1] & H1 & H). apply parse_string_shorter in H1.
    pose proof (skip_ws_length s) as Hs0.
    pose proof (skip_ws_length r1) as Hs.
    destruct (skip_ws r1) as [|c t]; [discriminate|]. cbn [length] in Hs.
    destruct (c =? ch ":")%N; [|discriminate].
    apply bind_Some in H as ([v r2] & H2 & H). apply IHv in H2.
    pose proof (skip_ws_length r2) as Hs2.
    destruct (skip_ws r2) as [|d t2]; [discriminate|]. cbn [length] in Hs2.
    destruct (d =? ch ",")%N.
    { apply bind_Some in H as ([fs' r4] & H4 & H). injection H as <- <-.
      apply IHm in H4. lia. }
    destruct (d =? ch "}")%N; [|discriminate]. injection H as <- <-. lia.
Qed.

Lemma parse_value_unfold (fuel : nat) (s : jsstring) :
  parse_value (S fuel) s
  = match skip_ws s with
    | [] => None
    | c :: r =>
        if (c =? ch "{")%N then
          match skip_ws r with
          | d :: r' =>
              if (d =? ch "}")%N then Some (JObject [], r')
              else '(fs, r'') ← parse_members fuel (d :: r');
                   Some (JObject fs, r'')
          | [] => None
          end
        else if (c =? ch "[")%N then
          match skip_ws r with
          | d :: r' =>
              if (d =? ch "]")%N then Some (JArray [], r')
              else '(vs, r'') ← parse_elements fuel (d :: r');
                   Some (JArray vs, r'')
          | [] => None
          end
        else if (c =? dquote)%N then
          '(str, r') ← parse_string (c :: r); Some (JString str, r')
        else if (c =? ch "t")%N then keyword "true" (JBool true) (c :: r)
        else if (c =? ch "f")%N then keyword "false" (JBool false) (c :: r)
        else if (c =? ch "n")%N then keyword "null" JNull (c :: r)
        else '(n, r') ← parse_number (c :: r); Some (JNumber n, r')
    end.
Proof. reflexivity. Qed.

Lemma parse_elements_unfold (fuel : nat) (s : jsstring) :
  parse_elements (S fuel) s
  = '(v, r) ← parse_value fuel s;
    match skip_ws r with
    | c :: r' =>
        if (c =? ch ",")%N then
          '(vs, r'') ← parse_elements fuel r'; Some (v :: vs, r'')
        else if (c =? ch "]")%N then Some ([v], r')
        else None
    | [] => None
    end.
Proof. reflexivity. Qed.

Lemma parse_members_unfold (fuel : nat) (s : jsstring) :
  parse_members (S fuel) s
  = '(k, r) ← parse_string (skip_ws s);
    match skip_ws r with
    | c :: r1 =>
        if (c =? ch ":")%N then
          '(v, r2) ← parse_value fuel r1;
          match skip_ws r2 with
          | d :: r3 =>
              if (d =? ch ",")%N then
                '(fs, r4) ← parse_members fuel r3; Some ((k, v) :: fs, r4)
              else if (d =? ch "}")%N then Some ([(k, v)], r3)
              else None
          | [] => None
          end
        else None
    | [] => None
    end.
Proof. reflexivity. Qed.

(** One more level of recursion changes nothing once the allowance is
    twice the length of the text. *)
Lemma parse_fuel_stable (fuel : nat) :
  (∀ s, 2 * length s + 1 <= fuel ->
        parse_value (S fuel) s = parse_value fuel s)
  ∧ (∀ s, 2 * length s + 2 <= fuel ->
          parse_elements (S fuel) s = parse_elements fuel s)
  ∧ (∀ s, 2 * length s + 2 <= fuel ->
          parse_members (S fuel) s = parse_members fuel s).
Proof.
  induction fuel as [|fuel (IHv & IHe & IHm)];
    [repeat split; intros; lia|].
  split; [|split].
  - intros s Hs. rewrite (parse_value_unfold (S fuel)), (parse_value_unfold fuel).
    pose proof (skip_ws_length s) as Hl.
    destruct (skip_ws s) as [|c t]; [reflexivity|]. cbn [length] in Hl.
    pose proof (skip_ws_length t) as Ht.
    destruct (c =? ch "{")%N.
    { destruct (skip_ws t) as [|d t']; [reflexivity|]. cbn [length] in Ht.
      destruct (d =? ch "}")%N; [reflexivity|].
      rewrite (IHm (d :: t')) by (cbn [length]; lia). reflexivity. }
    destruct (c =? ch "[")%N; [|reflexivity].
    destruct (skip_ws t) as [|d t']; [reflexivity|]. cbn [length] in Ht.
    destruct (d =? ch "]")%N; [reflexivity|].
    rewrite (IHe (d :: t')) by (cbn [length]; lia). reflexivity.
  - intros s Hs.
    rewrite (parse_elements_unfold (S fuel)), (parse_elements_unfold fuel).
    rewrite (IHv s) by lia.
    destruct (parse_value fuel s) as [[v r]|] eqn:Ev; [|reflexivity].
    apply (proj1 (parse_shorter fuel)) in Ev. cbn [mbind option_bind].
    pose proof (skip_ws_length r) as Hl.
    destruct (skip_ws r) as [|c t]; [reflexivity|]. cbn [length] in Hl.
    destruct (c =? ch ",")%N; [|reflexivity].
    rewrite (IHe t) by lia. reflexivity.
  - intros s Hs.
    rewrite (parse_members_unfold (S fuel)), (parse_members_unfold fuel).
    pose proof (skip_ws_length s) as Hl0.
    destruct (parse_string (skip_ws s)) as [[k r]|] eqn:Ek; [|reflexivity].
    apply parse_string_shorter in Ek. cbn [mbind option_bind].
    pose proof (skip_ws_length r) as Hl.
    destruct (skip_ws r) as [|c t]; [reflexivity|]. cbn [length] in Hl.
    destruct (c =? ch ":")%N; [|reflexivity].
    rewrite (IHv t) by lia.
    destruct (parse_value fuel t) as [[v r2]|] eqn:Ev; [|reflexivity].
    apply (proj1 (parse_shorter fuel)) in Ev. cbn [mbind option_bind].
    pose proof (skip_ws_length r2) as Hl2.
    destruct (skip_ws r2) as [|d t2]; [reflexivity|]. cbn [length] in Hl2.
    destruct (d =? ch ",")%N; [|reflexivity].
    rewrite (IHm t2) by lia. reflexivity.
Qed.

(** [JSON.parse] is the same with any larger allowance: no text fails to
    parse for want of recursion depth. *)
Lemma parse_fuel_enough (text : jsstring) (extra : nat) :
  parse_value (2 * length text + 2 + extra) text
  = parse_value (2 * length text + 2) text.
Proof.
  induction extra as [|extra IH]; [rewrite Nat.add_0_r; reflexivity|].
  rewrite <- IH, Nat.add_succ_r.
  apply (proj1 (parse_fuel_stable _)). lia.
Qed.

(** ** Line reassembly *)

Lemma decode_stream_app (a b : list Byte.byte) (st : Utf8.dstate) :
  Utf8.decode_stream (a ++ b) st
  = let '(o1, st1) := Utf8.decode_stream a st in
    let '(o2, st2) := Utf8.decode_stream b st1 in
    (o1 ++ o2, st2).
Proof.
  revert st. induction a as [|x a IH]; intros st; simpl.
  - destruct (Utf8.decode_stream b st); reflexivity.
  - destruct (Utf8.step x st) as [o1 st1]. rewrite IH.
    destruct (Utf8.decode_stream a st1) as [o2 st2].
    destruct (Utf8.decode_stream b st2) as [o3 st3].
    rewrite app_assoc. reflexivity.
Qed.

Lemma split_nl_nonempty (s : jsstring) : split_nl s ≠ [].
Proof.
  destruct s as [|c s]; simpl; [discriminate|].
  destruct (c =? 10)%N; [discriminate|].
  destruct (split_nl s); discriminate.
Qed.

Lemma removelast_cons_cons {A} (x y : A) (l : list A) :
  removelast (x :: y :: l) = x :: removelast (y :: l).
Proof. reflexivity. Qed.

Lemma last_cons_cons {A} (x y : A) (l : list A) (d : A) :
  List.last (x :: y :: l) d = List.last (y :: l) d.
Proof. reflexivity. Qed.

(** Splitting a longer text: the complete lines of the front stay, the
    fragment held back is continued by what follows. *)
Lemma split_nl_app (s t : jsstring) :
  split_nl (s ++ t)
  = removelast (split_nl s) ++ split_nl (List.last (split_nl s) [] ++ t).
Proof.
  induction s as [|c s IH].
  - reflexivity.
  - simpl app. cbn [split_nl]. destruct (c =? 10)%N eqn:Ec.
    + pose proof (split_nl_nonempty s) as Hne.
      destruct (split_nl s) as [|seg segs] eqn:Es; [congruence|].
      rewrite removelast_cons_cons, last_cons_cons. rewrite IH. reflexivity.
    + pose proof (split_nl_nonempty s) as Hne.
      destruct (split_nl s) as [|seg segs] eqn:Es; [congruence|].
      rewrite IH. destruct segs as [|x xs].
      * simpl. rewrite Ec. reflexivity.
      * rewrite !removelast_cons_cons, !last_cons_cons. reflexivity.
Qed.

Lemma split_nl_no_nl (s : jsstring) : 10%N ∉ s -> split_nl s = [s].
Proof.
  induction s as [|c s IH]; intros H; [reflexivity|].
  simpl. destruct (N.eqb_spec c 10) as [->|Hc].
  - exfalso. apply H. left.
  - rewrite IH; [reflexivity|]. intros Hin. apply H. right. exact Hin.
Qed.

Lemma last_split_nl_no_nl (s : jsstring) : 10%N ∉ List.last (split_nl s) [].
Proof.
  induction s as [|c s IH].
  - simpl. intros H. inversion H.
  - cbn [split_nl]. pose proof (split_nl_nonempty s) as Hne.
    destruct (N.eqb_spec c 10) as [->|Hc].
    + destruct (split_nl s) as [|seg segs]; [congruence|].
      rewrite last_cons_cons. exact IH.
    + destruct (split_nl s) as [|seg segs]; [congruence|].
      destruct segs as [|x xs].
      * simpl in *. intros H. apply elem_of_cons in H as [H|H]; [lia|].
        apply IH; exact H.
      * rewrite last_cons_cons. rewrite last_cons_cons in IH. exact IH.
Qed.

Lemma join_split_nl (s : jsstring) : join [10%N] (split_nl s) = s.
Proof.
  induction s as [|c s IH]; [reflexivity|].
  cbn [split_nl]. pose proof (split_nl_nonempty s) as Hne.
  destruct (N.eqb_spec c 10) as [->|Hc].
  - destruct (split_nl s) as [|seg segs]; [congruence|].
    change (join [10%N] ([] :: seg :: segs)) with (10%N :: join [10%N] (seg :: segs)).
    rewrite IH. reflexivity.
  - destruct (split_nl s) as [|seg segs]; [congruence|].
    destruct segs as [|x xs].
    + simpl in *. rewrite IH. reflexivity.
    + change (join [10%N] ((c :: seg) :: x :: xs))
        with (c :: join [10%N] (seg :: x :: xs)).
      rewrite IH. reflexivity.
Qed.

Lemma pop_unpop (parts : list jsstring) :
  parts ≠ [] -> fst (pop parts) ++ [snd (pop parts)] = parts.
Proof.
  intros H. unfold pop. simpl. symmetry. apply app_removelast_last. exact H.
Qed.

Lemma last_app_nonempty {A} (a b : list A) (d : A) :
  b ≠ [] -> List.last (a ++ b) d = List.last b d.
Proof.
  intros H. induction a as [|x a IH]; [reflexivity|].
  simpl app. destruct (a ++ b) eqn:E.
  - apply app_eq_nil in E as [_ ->]. congruence.
  - rewrite last_cons_cons. exact IH.
Qed.

Lemma pop_app (a b : list jsstring) :
  b ≠ [] -> pop (a ++ b) = (a ++ fst (pop b), snd (pop b)).
Proof.
  intros H. unfold pop. simpl. f_equal.
  - apply removelast_app. exact H.
  - apply last_app_nonempty. exact H.
Qed.

(** The lines that successive [transform] calls hand on depend on the
    decoded text only. *)
Lemma chat_lines_whole (chunks : list (list Byte.byte)) (dec : Utf8.dstate)
    (buffer : jsstring) :
  10%N ∉ buffer ->
  chat_lines chunks dec buffer
  = (pop (split_nl (buffer ++ fst (Utf8.decode_stream (concat chunks) dec))),
     snd (Utf8.decode_stream (concat chunks) dec)).
Proof.
  revert dec buffer. induction chunks as [|c cs IH]; intros dec buffer Hb.
  - simpl. rewrite app_nil_r, split_nl_no_nl by exact Hb. reflexivity.
  - cbn [chat_lines concat]. rewrite decode_stream_app.
    destruct (Utf8.decode_stream c dec) as [d1 dec1].
    destruct (pop (split_nl (buffer ++ d1))) as [parts frag] eqn:Ep.
    assert (Hfrag : frag = List.last (split_nl (buffer ++ d1)) [])
      by (unfold pop in Ep; congruence).
    assert (Hparts : parts = removelast (split_nl (buffer ++ d1)))
      by (unfold pop in Ep; congruence).
    rewrite IH by (rewrite Hfrag; apply last_split_nl_no_nl).
    destruct (Utf8.decode_stream (concat cs) dec1) as [d2 dec2].
    cbn [fst snd].
    rewrite (app_assoc buffer d1 d2), (split_nl_app (buffer ++ d1) d2).
    rewrite <- Hfrag, <- Hparts.
    rewrite pop_app by apply split_nl_nonempty.
    destruct (pop (split_nl (frag ++ d2))); reflexivity.
Qed.

(** ** Chat-completions transcoder: structure of a run *)

Section ChatFacts.

Variable chatId : jsstring.
Variable timestamp : number.
Variable model : json.

Local Abbreviation processSSELine := (Proxy.processSSELine chatId timestamp model).
Local Abbreviation processSSELines := (Proxy.processSSELines chatId timestamp model).
Local Abbreviation chat_transform := (Proxy.chat_transform chatId timestamp model).
Local Abbreviation chat_flush := (Proxy.chat_flush chatId timestamp model).
Local Abbreviation chat_run := (Proxy.chat_run chatId timestamp model).
Local Abbreviation chat_stream := (Proxy.chat_stream chatId timestamp model).
Local Abbreviation openaiChunk := (Proxy.openaiChunk chatId timestamp model).
Local Abbreviation stopChunk := (Proxy.stopChunk chatId timestamp model).

Lemma processSSELines_app (l1 l2 : list jsstring) (d : bool) :
  processSSELines (l1 ++ l2) d
  = let '(o1, d1) := processSSELines l1 d in
    let '(o2, d2) := processSSELines l2 d1 in
    (o1 ++ o2, d2).
Proof.
  revert d. induction l1 as [|l l1 IH]; intros d; simpl.
  - destruct (processSSELines l2 d); reflexivity.
  - destruct (processSSELine l d) as [o1 d1]. rewrite IH.
    destruct (processSSELines l1 d1) as [o2 d2].
    destruct (processSSELines l2 d2) as [o3 d3].
    rewrite app_assoc. reflexivity.
Qed.

(** A run of [transform] calls is [processSSELines] over the reassembled
    lines. *)
Lemma chat_run_lines (chunks : list (list Byte.byte)) (st : chat_state) :
  chat_run chunks st
  = let '((lines, frag), dec) :=
      chat_lines chunks (chat_decoder st) (chat_buffer st) in
    let '(out, d) := processSSELines lines (chat_doneSent st) in
    (out, mkChat dec frag d).
Proof.
  revert st. induction chunks as [|c cs IH]; intros [dec buf d].
  - reflexivity.
  - cbn [Proxy.chat_run chat_lines]. unfold Proxy.chat_transform.
    cbn [chat_decoder chat_buffer chat_doneSent].
    destruct (Utf8.decode_stream c dec) as [decoded dec1].
    destruct (pop (split_nl (buf ++ decoded))) as [parts frag].
    destruct (processSSELines parts d) as [o1 d1] eqn:E1.
    rewrite IH. cbn [chat_decoder chat_buffer chat_doneSent].
    destruct (chat_lines cs dec1 frag) as [[more final] dec2].
    rewrite processSSELines_app, E1.
    destruct (processSSELines more d1) as [o2 d2]. reflexivity.
Qed.

(** A blank line, and so a blank held-back fragment, emits nothing. *)
Lemma processSSELine_blank (line : jsstring) (d : bool) :
  str_eqb (trim line) [] = true -> processSSELine line d = ([], d).
Proof. intros H. unfold Proxy.processSSELine. rewrite H. reflexivity. Qed.

Lemma chat_flush_line (st : chat_state) :
  chat_flush st
  = let '(out, d) := processSSELines [chat_buffer st] (chat_doneSent st) in
    if negb d then out ++ [DataJson stopChunk; DataDone] else out.
Proof.
  unfold Proxy.chat_flush.
  destruct (str_eqb (trim (chat_buffer st)) []) eqn:E; [|reflexivity].
  cbn [negb Proxy.processSSELines]. rewrite processSSELine_blank by exact E.
  reflexivity.
Qed.

(** The whole stream is [processSSELines] over the lines of the decoded
    body, the last fragment included, then the safety net. *)
Lemma chat_stream_whole (chunks : list (list Byte.byte)) :
  chat_stream chunks
  = let whole := fst (Utf8.decode_stream (concat chunks) Utf8.initial) in
    let '(out, d) := processSSELines (split_nl whole) false in
    if negb d then out ++ [DataJson stopChunk; DataDone] else out.
Proof.
  unfold Proxy.chat_stream. rewrite chat_run_lines.
  cbn [chat_init chat_decoder chat_buffer chat_doneSent].
  rewrite chat_lines_whole by (intros H; inversion H).
  cbn [app]. set (whole := fst (Utf8.decode_stream (concat chunks) Utf8.initial)).
  pose proof (pop_unpop (split_nl whole) (split_nl_nonempty whole)) as Hp.
  destruct (pop (split_nl whole)) as [lines frag]. cbn [fst snd] in Hp.
  rewrite <- Hp, processSSELines_app.
  destruct (processSSELines lines false) as [o1 d1].
  rewrite chat_flush_line. cbn [chat_buffer chat_doneSent].
  destruct (processSSELines [frag] d1) as [o2 d2].
  destruct d2; cbn [negb]; rewrite ?app_assoc; reflexivity.
Qed.


Lemma startsWith_colon_not_data (t : jsstring) :
  str_eqb t [] || startsWith t (lit ":") = true ->
  startsWith t (lit "data: ") = false.
Proof.
  change (lit ":") with [58%N].
  change (lit "data: ") with [100%N; 97%N; 116%N; 97%N; 58%N; 32%N].
  destruct t as [|c t]; [reflexivity|].
  cbn [startsWith]. unfold str_eqb.
  rewrite bool_decide_eq_false_2 by discriminate. cbn [orb].
  destruct (N.eqb_spec 58 c) as [<-|]; [reflexivity|discriminate].
Qed.

(** [processSSELine] by the kind of line it is given. *)
Lemma processSSELine_cases (line : jsstring) (d : bool) :
  processSSELine line d
  = if is_sentinel line then ((if d then [] else [DataDone]), true)
    else
      let t := line_text line in
      let o1 := if truthy t then [DataJson (openaiChunk t)] else [] in
      if negb d && is_end_of_turn line
      then (o1 ++ [DataJson stopChunk; DataDone], true)
      else (o1, d).
Proof.
  unfold Proxy.processSSELine, is_sentinel, is_end_of_turn, line_text, sseData.
  destruct (str_eqb (trim line) [] || startsWith (trim line) (lit ":")) eqn:E1.
  - rewrite (startsWith_colon_not_data _ E1). cbn. rewrite andb_false_r.
    reflexivity.
  - destruct (startsWith (trim line) (lit "data: ")) eqn:E2; cbn [negb].
    + destruct (str_eqb (trim (slice 6 (trim line))) (lit "[DONE]")) eqn:E3.
      * destruct d; reflexivity.
      * cbn [negb andb].
        destruct (parse (trim (slice 6 (trim line)))) as [data|]; cbn.
        -- reflexivity.
        -- rewrite andb_false_r. reflexivity.
    + cbn. rewrite andb_false_r. reflexivity.
Qed.

Lemma count_app (p : frame -> bool) (a b : list frame) :
  count p (a ++ b) = count p a + count p b.
Proof. unfold count. rewrite filter_app, length_app. reflexivity. Qed.

Lemma count_content (p : frame -> bool) (t : json) :
  p (DataJson (openaiChunk t)) = false ->
  count p (if truthy t then [DataJson (openaiChunk t)] else []) = 0.
Proof.
  intros H. destruct (truthy t); [|reflexivity].
  unfold count. rewrite filter_cons_False by (rewrite H; discriminate).
  reflexivity.
Qed.

Lemma stop_then_done_app (a b : list frame) :
  stop_then_done a -> stop_then_done b -> stop_then_done (a ++ b).
Proof.
  intros Ha Hb i f Hi Hf. apply lookup_app_Some in Hi as [Hi|[Hlen Hi]].
  - apply lookup_app_l_Some. eapply Ha; eassumption.
  - specialize (Hb _ _ Hi Hf).
    replace (S i) with (length a + S (i - length a)) by lia.
    rewrite lookup_app_r by lia.
    replace (length a + S (i - length a) - length a) with (S (i - length a))
      by lia.
    exact Hb.
Qed.

Lemma stop_then_done_content (t : json) :
  stop_then_done (if truthy t then [DataJson (openaiChunk t)] else []).
Proof.
  intros i f Hi Hf. destruct (truthy t).
  - destruct i; [|discriminate]. injection Hi as <-. discriminate.
  - discriminate.
Qed.

Lemma stop_then_done_pair : stop_then_done [DataJson stopChunk; DataDone].
Proof.
  intros i f Hi Hf. destruct i as [|[|i]]; try discriminate.
  - reflexivity.
  - injection Hi as <-. discriminate.
Qed.

Lemma stop_then_done_done : stop_then_done [DataDone].
Proof.
  intros i f Hi Hf. destruct i; [|discriminate]. injection Hi as <-.
  discriminate.
Qed.

Lemma stop_then_done_nil : stop_then_done [].
Proof. intros i f Hi. discriminate. Qed.

(** One line: the terminator is enqueued exactly when [sentDone] turns
    true, a stop chunk only together with it. *)
Lemma processSSELine_terminal (line : jsstring) (d : bool) :
  let '(o, d') := processSSELine line d in
  count is_done o + Nat.b2n d = Nat.b2n d'
  ∧ count is_stop_chunk o
    = (if negb d && negb (is_sentinel line) && is_end_of_turn line then 1 else 0)
  ∧ stop_then_done o.
Proof.
  rewrite processSSELine_cases. destruct (is_sentinel line).
  - destruct d; cbn; repeat split; auto using stop_then_done_nil, stop_then_done_done.
  - cbn zeta. rewrite andb_true_r.
    destruct (negb d && is_end_of_turn line) eqn:E.
    + apply andb_true_iff in E as [Hd _]. destruct d; [discriminate|].
      rewrite !count_app, !count_content by reflexivity.
      repeat split; try reflexivity.
      apply stop_then_done_app;
        auto using stop_then_done_content, stop_then_done_pair.
    + rewrite !count_content by reflexivity.
      repeat split; try reflexivity. apply stop_then_done_content.
Qed.

(** Once [sentDone] is set, no line enqueues a terminator or a stop chunk
    any more. *)
Lemma processSSELines_after_done (lines : list jsstring) :
  let '(o, d') := processSSELines lines true in
  count is_done o = 0 ∧ count is_stop_chunk o = 0 ∧ d' = true.
Proof.
  induction lines as [|l ls IH]; [cbn; auto|].
  cbn [Proxy.processSSELines].
  pose proof (processSSELine_terminal l true) as H.
  destruct (processSSELine l true) as [o1 d1]. destruct H as (H1 & H2 & _).
  assert (d1 = true) by (destruct d1; cbn in H1; [reflexivity|lia]). subst d1.
  destruct (processSSELines ls true) as [o2 d2]. destruct IH as (I1 & I2 & ->).
  rewrite !count_app. cbn in H1, H2. repeat split; lia.
Qed.

(** All lines of a call: the terminator count follows [sentDone]; the stop
    chunk is there unless the backend's own sentinel came first. *)
Lemma processSSELines_terminal (lines : list jsstring) :
  let '(o, d') := processSSELines lines false in
  count is_done o = Nat.b2n d'
  ∧ count is_stop_chunk o = (if d' && negb (sentinel_first lines) then 1 else 0)
  ∧ (d' = false -> sentinel_first lines = false).
Proof.
  induction lines as [|l ls IH]; [cbn; auto|].
  cbn [Proxy.processSSELines sentinel_first].
  pose proof (processSSELine_terminal l false) as H.
  pose proof (processSSELine_cases l false) as Hc.
  destruct (processSSELine l false) as [o1 d1]. destruct H as (H1 & H2 & _).
  destruct d1.
  - pose proof (processSSELines_after_done ls) as Ha.
    destruct (processSSELines ls true) as [o2 d2]. destruct Ha as (A1 & A2 & ->).
    rewrite !count_app, A1, A2, H2. cbn in H1.
    destruct (is_sentinel l); [cbn; repeat split; auto; lia|].
    cbn in Hc. destruct (is_end_of_turn l); [cbn; repeat split; auto; lia|].
    discriminate.
  - destruct (processSSELines ls false) as [o2 d2]. destruct IH as (I1 & I2 & I3).
    destruct (is_sentinel l); [discriminate|].
    cbn in Hc. destruct (is_end_of_turn l); [discriminate|].
    rewrite !count_app, I1, I2, H2. cbn in H1. cbn.
    repeat split; auto; lia.
Qed.

Lemma processSSELines_stop_then_done (lines : list jsstring) (d : bool) :
  stop_then_done (fst (processSSELines lines d)).
Proof.
  revert d. induction lines as [|l ls IH]; intros d; [apply stop_then_done_nil|].
  cbn [Proxy.processSSELines].
  pose proof (processSSELine_terminal l d) as H.
  destruct (processSSELine l d) as [o1 d1]. destruct H as (_ & _ & H3).
  specialize (IH d1). destruct (processSSELines ls d1) as [o2 d2].
  apply stop_then_done_app; assumption.
Qed.

End ChatFacts.

(** ** Response-lifecycle transcoder: structure of a run *)

Section RespFacts.

Variable respId itemId : jsstring.
Variable model : json.
Variable created_at : nat -> number.

Local Abbreviation sendPreamble := (Proxy.sendPreamble respId itemId model created_at).
Local Abbreviation sendDelta := (Proxy.sendDelta respId itemId model created_at).
Local Abbreviation sendDeltas := (Account.sendDeltas respId itemId model created_at).
Local Abbreviation resp_line := (Proxy.resp_line respId itemId model created_at).
Local Abbreviation resp_lines := (Proxy.resp_lines respId itemId model created_at).
Local Abbreviation resp_transform := (Proxy.resp_transform respId itemId model created_at).
Local Abbreviation resp_drain := (Proxy.resp_drain respId itemId model created_at).
Local Abbreviation resp_close := (Proxy.resp_close respId itemId model created_at).
Local Abbreviation resp_flush := (Proxy.resp_flush respId itemId model created_at).
Local Abbreviation resp_run := (Proxy.resp_run respId itemId model created_at).
Local Abbreviation resp_stream := (Proxy.resp_stream respId itemId model created_at).

Local Abbreviation completed :=
  (fun f : frame => is_event "response.completed" f = true).

Lemma with_io_same (st : resp_state) :
  with_io (r_decoder st) (r_buffer st) st = st.
Proof. destruct st; reflexivity. Qed.

Lemma with_usage_same (st : resp_state) :
  with_usage (r_usageData st) (r_errored st) st = st.
Proof. destruct st; reflexivity. Qed.

Lemma sendDelta_io (text : json) (dec : Utf8.dstate) (buf : jsstring)
    (st : resp_state) :
  sendDelta text (with_io dec buf st)
  = (fst (sendDelta text st), with_io dec buf (snd (sendDelta text st))).
Proof.
  destruct st as [d b f p n u e]. unfold Proxy.sendDelta, Proxy.sendPreamble.
  destruct p; cbn; destruct (toString text); reflexivity.
Qed.

Lemma sendDelta_usage (text usage : json) (e : bool) (st : resp_state) :
  sendDelta text (with_usage usage e st)
  = (fst (sendDelta text st), with_usage usage e (snd (sendDelta text st))).
Proof.
  destruct st as [d b f p n u e0]. unfold Proxy.sendDelta, Proxy.sendPreamble.
  destruct p; cbn; destruct (toString text); reflexivity.
Qed.

(** [resp_line] by the kind of line it is given. *)
Lemma resp_line_cases (line : jsstring) (st : resp_state) :
  resp_line line st
  = if throws_early line then ([], errored st)
    else
      let st1 := with_usage (default (r_usageData st) (line_usage line))
                            (r_errored st) st in
      if truthy (line_text line) then
        let '(out, st2) := sendDelta (line_text line) st1 in
        (out, if throwsAt (line_text line) then errored st2 else st2)
      else ([], st1).
Proof.
  unfold Proxy.resp_line, throws_early, line_text, line_usage, sseData.
  destruct (str_eqb (trim line) [] || startsWith (trim line) (lit ":")) eqn:E1.
  - rewrite (startsWith_colon_not_data _ E1). cbn. rewrite with_usage_same.
    reflexivity.
  - destruct (startsWith (trim line) (lit "data: ")) eqn:E2; cbn [negb orb];
      [|cbn; rewrite with_usage_same; reflexivity].
    destruct (str_eqb (trim (slice 6 (trim line))) (lit "[DONE]")) eqn:E3;
      [cbn; rewrite with_usage_same; reflexivity|].
    cbn [negb andb].
    destruct (parse (trim (slice 6 (trim line)))) as [data|];
      [|cbn; rewrite with_usage_same; reflexivity].
    destruct data; try reflexivity;
      (destruct (is_number (get _ "input_tokens")); cbn [andb];
       [destruct (captureUsage _)|]; reflexivity).
Qed.

Lemma resp_line_io (line : jsstring) (dec : Utf8.dstate) (buf : jsstring)
    (st : resp_state) :
  resp_line line (with_io dec buf st)
  = (fst (resp_line line st), with_io dec buf (snd (resp_line line st))).
Proof.
  rewrite !resp_line_cases. destruct (throws_early line); [reflexivity|].
  cbn zeta. destruct (truthy (line_text line)); [|reflexivity].
  change (with_usage (default (r_usageData (with_io dec buf st)) (line_usage line))
            (r_errored (with_io dec buf st)) (with_io dec buf st))
    with (with_io dec buf
            (with_usage (default (r_usageData st) (line_usage line))
               (r_errored st) st)).
  rewrite sendDelta_io.
  destruct (sendDelta (line_text line)
              (with_usage (default (r_usageData st) (line_usage line))
                 (r_errored st) st)) as [o st2].
  cbn [fst snd]. destruct (throwsAt (line_text line)); reflexivity.
Qed.

Lemma resp_lines_io (lines : list jsstring) (dec : Utf8.dstate) (buf : jsstring)
    (st : resp_state) :
  resp_lines lines (with_io dec buf st)
  = (fst (resp_lines lines st), with_io dec buf (snd (resp_lines lines st))).
Proof.
  revert st. induction lines as [|l ls IH]; intros st; [reflexivity|].
  cbn [Proxy.resp_lines]. rewrite resp_line_io.
  destruct (resp_line l st) as [o1 st1]. cbn [fst snd].
  change (r_errored (with_io dec buf st1)) with (r_errored st1).
  destruct (r_errored st1); [reflexivity|].
  rewrite IH. destruct (resp_lines ls st1); reflexivity.
Qed.

Lemma resp_lines_app (l1 l2 : list jsstring) (st : resp_state) :
  r_errored st = false ->
  resp_lines (l1 ++ l2) st
  = let '(o1, st1) := resp_lines l1 st in
    if r_errored st1 then (o1, st1)
    else let '(o2, st2) := resp_lines l2 st1 in (o1 ++ o2, st2).
Proof.
  revert st. induction l1 as [|l l1 IH]; intros st He.
  - cbn [app Proxy.resp_lines]. rewrite He.
    destruct (resp_lines l2 st); reflexivity.
  - cbn [app Proxy.resp_lines]. destruct (resp_line l st) as [o1 st1].
    destruct (r_errored st1) eqn:E1.
    + rewrite E1. reflexivity.
    + rewrite IH by exact E1. destruct (resp_lines l1 st1) as [o2 st2].
      destruct (r_errored st2); [reflexivity|].
      destruct (resp_lines l2 st2) as [o3 st3]. rewrite app_assoc. reflexivity.
Qed.

(** A run of [transform] calls is [resp_lines] over the reassembled
    lines. *)
Lemma resp_run_lines (chunks : list (list Byte.byte)) (st : resp_state) :
  r_errored st = false ->
  let '((lines, frag), _) :=
    chat_lines chunks (r_decoder st) (r_buffer st) in
  let '(o, st') := resp_lines lines st in
  fst (resp_run chunks st) = o
  ∧ ∃ dec' buf', snd (resp_run chunks st) = with_io dec' buf' st'
                 ∧ (r_errored st' = false -> buf' = frag).
Proof.
  revert st. induction chunks as [|c cs IH]; intros st He.
  - cbn. split; [reflexivity|]. exists (r_decoder st), (r_buffer st).
    rewrite with_io_same. auto.
  - cbn [Proxy.resp_run chat_lines]. unfold Proxy.resp_transform.
    destruct (Utf8.decode_stream c (r_decoder st)) as [decoded dec1].
    destruct (pop (split_nl (r_buffer st ++ decoded))) as [parts frag1].
    change (mkResp dec1 frag1 (r_fullText st) (r_preambleSent st) (r_seqNum st)
              (r_usageData st) (r_errored st)) with (with_io dec1 frag1 st).
    rewrite resp_lines_io.
    specialize (IH (with_io dec1 frag1 (snd (resp_lines parts st)))).
    cbn [r_decoder r_buffer with_io] in IH.
    destruct (chat_lines cs dec1 frag1) as [[more final] dec2].
    rewrite resp_lines_app by exact He.
    destruct (resp_lines parts st) as [o1 st1]. cbn [fst snd] in *.
    change (r_errored (with_io dec1 frag1 st1)) with (r_errored st1).
    destruct (r_errored st1) eqn:E1.
    + cbn [fst snd]. split; [reflexivity|]. exists dec1, frag1.
      split; [reflexivity|]. congruence.
    + specialize (IH E1).
      rewrite resp_lines_io in IH.
      destruct (resp_lines more st1) as [o2 st2]. cbn [fst snd] in IH.
      destruct (Proxy.resp_run respId itemId model created_at cs
                  (with_io dec1 frag1 st1)) as [o2' st2'].
      cbn [fst snd] in *. destruct IH as (-> & dec' & buf' & -> & Hbuf).
      split; [reflexivity|]. exists dec', buf'. split; [reflexivity|exact Hbuf].
Qed.

Lemma resp_drain_cases (st : resp_state) :
  resp_drain st
  = if truthy (line_text (r_buffer st))
    then sendDelta (line_text (r_buffer st)) st
    else ([], st).
Proof.
  unfold Proxy.resp_drain, line_text, sseData.
  destruct (str_eqb (trim (r_buffer st)) []) eqn:E1; cbn [negb].
  - rewrite (startsWith_colon_not_data (trim (r_buffer st)))
      by (rewrite E1; reflexivity).
    reflexivity.
  - destruct (startsWith (trim (r_buffer st)) (lit "data: ")); [|reflexivity].
    destruct (str_eqb (trim (slice 6 (trim (r_buffer st)))) (lit "[DONE]"));
      [reflexivity|].
    cbn [negb]. destruct (parse (trim (slice 6 (trim (r_buffer st)))));
      reflexivity.
Qed.

(** *** A run as the deltas of its text fragments *)

Lemma sendDeltas_usage (texts : list json) (usage : json) (e : bool)
    (st : resp_state) :
  sendDeltas texts (with_usage usage e st)
  = (fst (sendDeltas texts st), with_usage usage e (snd (sendDeltas texts st))).
Proof.
  revert st. induction texts as [|t ts IH]; intros st; [reflexivity|].
  cbn [Account.sendDeltas]. rewrite sendDelta_usage.
  destruct (sendDelta t st) as [o1 st1]. cbn [fst snd]. rewrite IH.
  destruct (sendDeltas ts st1) as [o2 st2]. reflexivity.
Qed.

Lemma sendDeltas_io (texts : list json) (dec : Utf8.dstate) (buf : jsstring)
    (st : resp_state) :
  sendDeltas texts (with_io dec buf st)
  = (fst (sendDeltas texts st), with_io dec buf (snd (sendDeltas texts st))).
Proof.
  revert st. induction texts as [|t ts IH]; intros st; [reflexivity|].
  cbn [Account.sendDeltas]. rewrite sendDelta_io.
  destruct (sendDelta t st) as [o1 st1]. cbn [fst snd]. rewrite IH.
  destruct (sendDeltas ts st1) as [o2 st2]. reflexivity.
Qed.

Lemma sendDeltas_app (ts1 ts2 : list json) (st : resp_state) :
  sendDeltas (ts1 ++ ts2) st
  = let '(o1, st1) := sendDeltas ts1 st in
    let '(o2, st2) := sendDeltas ts2 st1 in
    (o1 ++ o2, st2).
Proof.
  revert st. induction ts1 as [|t ts1 IH]; intros st.
  - cbn. destruct (sendDeltas ts2 st); reflexivity.
  - cbn [app Account.sendDeltas]. destruct (sendDelta t st) as [o1 st1].
    rewrite IH. destruct (sendDeltas ts1 st1) as [o2 st2].
    destruct (sendDeltas ts2 st2) as [o3 st3]. rewrite app_assoc. reflexivity.
Qed.

(** The lines of a run are the deltas of the text fragments extracted from
    them, one after the other, up to the throw if there is one; the usage
    counters are those of the last line that set them. *)
Lemma resp_lines_deltas (lines : list jsstring) (st : resp_state) :
  r_errored st = false ->
  resp_lines lines st
  = let '(ts, err) := texts_of lines in
    let '(o, st1) := sendDeltas ts st in
    (o, with_usage (usage_of lines (r_usageData st)) err st1).
Proof.
  revert st. induction lines as [|l ls IH]; intros st He.
  - cbn. rewrite <- He, with_usage_same. reflexivity.
  - cbn [Proxy.resp_lines texts_of usage_of]. rewrite resp_line_cases.
    destruct (throws_early l).
    + cbn [r_errored errored Account.sendDeltas]. destruct st; reflexivity.
    + cbn zeta. rewrite He.
      set (u := default (r_usageData st) (line_usage l)).
      destruct (truthy (line_text l)); cbn [andb].
      * rewrite sendDelta_usage.
        destruct (throwsAt (line_text l)).
        -- cbn [Account.sendDeltas].
           destruct (sendDelta (line_text l) st) as [o1 st1]. cbn [fst snd].
           cbn [errored with_usage r_errored r_decoder r_buffer r_fullText
                  r_preambleSent r_seqNum r_usageData].
           rewrite app_nil_r. reflexivity.
        -- destruct (sendDelta (line_text l) st) as [o1 st1] eqn:E1.
           cbn [fst snd]. cbn [with_usage r_errored].
           change (mkResp (r_decoder st1) (r_buffer st1) (r_fullText st1)
                     (r_preambleSent st1) (r_seqNum st1) u false)
             with (with_usage u false st1).
           rewrite IH by reflexivity.
           destruct (texts_of ls) as [ts err].
           cbn [Account.sendDeltas]. rewrite E1.
           rewrite sendDeltas_usage.
           destruct (sendDeltas ts st1) as [o2 st2]. cbn [fst snd].
           reflexivity.
      * cbn [with_usage r_errored].
        change (mkResp (r_decoder st) (r_buffer st) (r_fullText st)
                  (r_preambleSent st) (r_seqNum st) u false)
          with (with_usage u false st).
        rewrite IH by reflexivity.
        destruct (texts_of ls) as [ts err].
        rewrite sendDeltas_usage.
        destruct (sendDeltas ts st) as [o2 st2]. cbn [fst snd].
        reflexivity.
Qed.

Lemma resp_close_io (dec : Utf8.dstate) (buf : jsstring) (st : resp_state) :
  resp_close (with_io dec buf st) = resp_close st.
Proof. reflexivity. Qed.

(** A whole stream from the decoded body: the deltas of the text fragments
    and, unless [transform] threw, the closing events. *)
Lemma resp_stream_replay (chunks : list (list Byte.byte)) :
  resp_stream chunks
  = let whole := fst (Utf8.decode_stream (concat chunks) Utf8.initial) in
    let '(lines, frag) := pop (split_nl whole) in
    let '(ts, err) := texts_of lines in
    if err then fst (sendDeltas ts resp_init)
    else
      let '(o, st) := sendDeltas (ts ++ text_of_line frag) resp_init in
      o ++ resp_close (with_usage (usage_of lines zeroUsage) false st).
Proof.
  cbn zeta. unfold Proxy.resp_stream.
  pose proof (resp_run_lines chunks resp_init eq_refl) as H.
  cbn [resp_init r_decoder r_buffer] in H.
  rewrite chat_lines_whole in H by (intros Hin; inversion Hin).
  cbn [app] in H.
  destruct (pop (split_nl (fst (Utf8.decode_stream (concat chunks) Utf8.initial))))
    as [lines frag].
  rewrite resp_lines_deltas in H by reflexivity.
  destruct (texts_of lines) as [ts err].
  rewrite sendDeltas_app.
  destruct (sendDeltas ts resp_init) as [o st1].
  destruct (Proxy.resp_run respId itemId model created_at chunks resp_init)
    as [out st].
  cbn [fst snd] in H. destruct H as (-> & dec' & buf' & -> & Hbuf).
  cbn [with_io with_usage r_errored] in *.
  destruct err; [reflexivity|].
  specialize (Hbuf eq_refl). subst buf'.
  unfold Proxy.resp_flush. rewrite resp_drain_cases.
  cbn [r_buffer]. unfold text_of_line.
  cbn [resp_init r_usageData].
  change (mkResp dec' frag (r_fullText st1) (r_preambleSent st1) (r_seqNum st1)
            (usage_of lines zeroUsage) false)
    with (with_io dec' frag (with_usage (usage_of lines zeroUsage) false st1)).
  change (r_buffer (with_io dec' frag
                      (with_usage (usage_of lines zeroUsage) false st1)))
    with frag.
  destruct (truthy (line_text frag)).
  - rewrite sendDelta_io, sendDelta_usage. cbn [Account.sendDeltas].
    destruct (sendDelta (line_text frag) st1) as [o2 st2]. cbn [fst snd].
    rewrite resp_close_io, app_nil_r, app_assoc. reflexivity.
  - cbn [Account.sendDeltas]. rewrite resp_close_io, app_nil_r. reflexivity.
Qed.

(** *** What a run of deltas enqueues *)

Lemma sendPreamble_types (st : resp_state) :
  map event_type (fst (sendPreamble st))
  = (if r_preambleSent st then [] else preamble_types)
  ∧ r_preambleSent (snd (sendPreamble st)) = true.
Proof. destruct st as [d b f p n u e]. destruct p; split; reflexivity. Qed.

Lemma printed_cons (t : json) (ts : list json) :
  printed (t :: ts) = if throwsAt t then printed ts else t :: printed ts.
Proof.
  unfold printed. destruct (throwsAt t) eqn:E.
  - apply filter_cons_False. rewrite E. discriminate.
  - apply filter_cons_True. exact E.
Qed.

Lemma strings_of_cons (t : json) (ts : list json) :
  strings_of (t :: ts)
  = match toString t with Some s => s :: strings_of ts | None => strings_of ts end.
Proof. reflexivity. Qed.

Lemma sendDeltas_types (texts : list json) (st : resp_state) :
  map event_type (fst (sendDeltas texts st))
  = (if r_preambleSent st || bool_decide (texts = []) then []
     else preamble_types)
    ++ replicate (length (printed texts)) delta_type
  ∧ r_preambleSent (snd (sendDeltas texts st))
    = r_preambleSent st || negb (bool_decide (texts = [])).
Proof.
  revert st. induction texts as [|t ts IH]; intros st.
  - cbn. rewrite !orb_true_r, orb_false_r. auto.
  - cbn [Account.sendDeltas]. unfold Proxy.sendDelta.
    pose proof (sendPreamble_types st) as (P1 & P2).
    destruct (sendPreamble st) as [pre st1]. cbn [fst snd] in P1, P2.
    rewrite printed_cons. unfold throwsAt.
    rewrite (bool_decide_eq_false_2 (t :: ts = [])) by discriminate.
    cbn [negb]. rewrite orb_false_r, orb_true_r.
    destruct (toString t) as [s|].
    + match goal with |- context [sendDeltas ts ?x] =>
        specialize (IH x); destruct (sendDeltas ts x) as [o2 st2] end.
      cbn [fst snd r_preambleSent] in *. destruct IH as (I1 & I2).
      rewrite !map_app, P1, I1, I2, P2. cbn [orb app map length replicate].
      split; [|reflexivity]. rewrite <- !app_assoc. reflexivity.
    + specialize (IH st1). destruct (sendDeltas ts st1) as [o2 st2].
      cbn [fst snd] in *. destruct IH as (I1 & I2).
      rewrite !map_app, P1, I1, I2, P2. cbn [orb app].
      split; reflexivity.
Qed.

Lemma sendPreamble_carries (st : resp_state) :
  omap event_delta (fst (sendPreamble st)) = []
  ∧ omap event_text (fst (sendPreamble st)) = []
  ∧ filter completed (fst (sendPreamble st)) = []
  ∧ r_fullText (snd (sendPreamble st)) = r_fullText st
  ∧ r_usageData (snd (sendPreamble st)) = r_usageData st.
Proof.
  unfold Proxy.sendPreamble. destruct (r_preambleSent st); repeat split.
Qed.

Lemma sendDeltas_carry (texts : list json) (st : resp_state) :
  omap event_delta (fst (sendDeltas texts st)) = printed texts
  ∧ omap event_text (fst (sendDeltas texts st)) = []
  ∧ filter completed (fst (sendDeltas texts st)) = []
  ∧ r_fullText (snd (sendDeltas texts st))
    = r_fullText st ++ concat (strings_of texts)
  ∧ r_usageData (snd (sendDeltas texts st)) = r_usageData st.
Proof.
  revert st. induction texts as [|t ts IH]; intros st.
  - cbn. rewrite app_nil_r. auto.
  - cbn [Account.sendDeltas]. unfold Proxy.sendDelta.
    pose proof (sendPreamble_carries st) as (P1 & P2 & P3 & P4 & P5).
    destruct (sendPreamble st) as [pre st1]. cbn [fst snd] in *.
    rewrite printed_cons, strings_of_cons. unfold throwsAt.
    destruct (toString t) as [s|].
    + match goal with |- context [sendDeltas ts ?x] =>
        specialize (IH x); destruct (sendDeltas ts x) as [o2 st2] end.
      cbn [fst snd r_fullText r_usageData] in *.
      destruct IH as (I1 & I2 & I3 & I4 & I5).
      rewrite !omap_app, !filter_app, P1, P2, P3, I1, I2, I3, I4, I5, P4, P5.
      cbn [concat]. repeat split. symmetry. apply app_assoc.
    + specialize (IH st1). destruct (sendDeltas ts st1) as [o2 st2].
      cbn [fst snd] in *. destruct IH as (I1 & I2 & I3 & I4 & I5).
      rewrite !omap_app, !filter_app, P1, P2, P3, I1, I2, I3, I4, I5, P4, P5.
      repeat split.
Qed.

Lemma emit_numbered (eventType : string) (payload : list (jsstring * json))
    (n : nat) :
  sequence_number (Proxy.emit eventType payload n) = numbered n.
Proof.
  unfold Proxy.emit, sequence_number, get. rewrite fold_left_app. reflexivity.
Qed.

Lemma numbered_from_app (n : nat) (a b : list frame) :
  numbered_from n a -> numbered_from (n + length a) b ->
  numbered_from n (a ++ b).
Proof.
  unfold numbered_from. intros Ha Hb.
  rewrite map_app, length_app, seq_app, map_app, Ha, Hb. reflexivity.
Qed.

Lemma sendPreamble_numbered (st : resp_state) :
  numbered_from (r_seqNum st) (fst (sendPreamble st))
  ∧ r_seqNum (snd (sendPreamble st))
    = r_seqNum st + length (fst (sendPreamble st)).
Proof.
  unfold Proxy.sendPreamble, numbered_from. destruct (r_preambleSent st).
  - cbn. split; [reflexivity|lia].
  - cbn [fst snd map length seq r_seqNum]. rewrite !emit_numbered.
    rewrite !Nat.add_succ_r, Nat.add_0_r. split; reflexivity.
Qed.

Lemma sendDeltas_numbered (texts : list json) (st : resp_state) :
  numbered_from (r_seqNum st) (fst (sendDeltas texts st))
  ∧ r_seqNum (snd (sendDeltas texts st))
    = r_seqNum st + length (fst (sendDeltas texts st)).
Proof.
  revert st. induction texts as [|t ts IH]; intros st.
  - cbn. split; [reflexivity|lia].
  - cbn [Account.sendDeltas]. unfold Proxy.sendDelta.
    pose proof (sendPreamble_numbered st) as (P1 & P2).
    destruct (sendPreamble st) as [pre st1]. cbn [fst snd] in *.
    destruct (toString t) as [s|].
    + match goal with |- context [sendDeltas ts ?x] =>
        specialize (IH x); destruct (sendDeltas ts x) as [o2 st2] end.
      cbn [fst snd r_seqNum] in *. destruct IH as (I1 & I2).
      split.
      * apply numbered_from_app.
        -- apply numbered_from_app; [exact P1|].
           unfold numbered_from. cbn [map length seq].
           rewrite emit_numbered, P2. reflexivity.
        -- rewrite length_app. cbn [length].
           replace (r_seqNum st + (length pre + 1)) with (r_seqNum st1 + 1)
             by lia.
           exact I1.
      * rewrite I2, !length_app. cbn [length]. lia.
    + specialize (IH st1). destruct (sendDeltas ts st1) as [o2 st2].
      cbn [fst snd] in *. destruct IH as (I1 & I2). split.
      * apply numbered_from_app; [exact P1|]. rewrite <- P2. exact I1.
      * rewrite I2, length_app. lia.
Qed.

Lemma resp_close_types (st : resp_state) :
  map event_type (resp_close st)
  = if r_preambleSent st then closing_types else [].
Proof. unfold Proxy.resp_close. destruct (r_preambleSent st); reflexivity. Qed.

Lemma resp_close_numbered (st : resp_state) :
  numbered_from (r_seqNum st) (resp_close st).
Proof.
  unfold Proxy.resp_close, numbered_from. destruct (r_preambleSent st);
    [|reflexivity].
  cbn [map length seq]. rewrite !emit_numbered.
  rewrite !Nat.add_succ_r, Nat.add_0_r. reflexivity.
Qed.

Lemma resp_close_carries (st : resp_state) :
  omap event_delta (resp_close st) = []
  ∧ omap event_text (resp_close st)
    = (if r_preambleSent st then [JString (r_fullText st)] else [])
  ∧ map event_usage (filter completed (resp_close st))
    = (if r_preambleSent st then [Some (r_usageData st)] else []).
Proof.
  unfold Proxy.resp_close. destruct (r_preambleSent st); repeat split.
Qed.

(** The event types of a whole stream, from the text fragments extracted
    from the decoded body. *)
Lemma resp_stream_types (chunks : list (list Byte.byte)) :
  let whole := fst (Utf8.decode_stream (concat chunks) Utf8.initial) in
  let '(ts, err) := texts_of_body whole in
  map event_type (resp_stream chunks)
  = match ts with
    | [] => []
    | _ => preamble_types ++ replicate (length (printed ts)) delta_type
           ++ (if err then [] else closing_types)
    end.
Proof.
  cbn zeta. rewrite resp_stream_replay. cbn zeta. unfold texts_of_body.
  destruct (pop (split_nl (fst (Utf8.decode_stream (concat chunks) Utf8.initial))))
    as [lines frag].
  destruct (texts_of lines) as [ts err].
  destruct err.
  - pose proof (sendDeltas_types ts resp_init) as (T1 & _).
    cbn [resp_init r_preambleSent orb] in T1. rewrite T1.
    destruct ts as [|t ts]; [reflexivity|].
    rewrite (bool_decide_eq_false_2 (t :: ts = [])) by discriminate.
    rewrite app_nil_r. reflexivity.
  - pose proof (sendDeltas_types (ts ++ text_of_line frag) resp_init)
      as (T1 & T2).
    destruct (sendDeltas (ts ++ text_of_line frag) resp_init) as [o st].
    cbn [fst snd resp_init r_preambleSent orb] in T1, T2.
    rewrite map_app, T1, resp_close_types.
    cbn [with_usage r_preambleSent]. rewrite T2.
    destruct (ts ++ text_of_line frag) as [|t l]; [reflexivity|].
    rewrite (bool_decide_eq_false_2 (t :: l = [])) by discriminate.
    cbn [negb]. rewrite <- app_assoc. reflexivity.
Qed.

(** The deltas, the text of the done event, the usage counters of the
    completed event and the numbering of a whole stream. *)
Lemma resp_stream_account (chunks : list (list Byte.byte)) :
  let whole := fst (Utf8.decode_stream (concat chunks) Utf8.initial) in
  let out := resp_stream chunks in
  let closed :=
    negb (snd (texts_of_body whole))
    && negb (bool_decide (fst (texts_of_body whole) = [])) in
  omap event_delta out = printed (fst (texts_of_body whole))
  ∧ omap event_text out
    = (if closed
       then [JString (concat (strings_of (fst (texts_of_body whole))))]
       else [])
  ∧ map event_usage (filter completed out)
    = (if closed
       then [Some (usage_of (fst (pop (split_nl whole))) zeroUsage)]
       else [])
  ∧ numbered_from 0 out.
Proof.
  cbn zeta. rewrite resp_stream_replay. cbn zeta. unfold texts_of_body.
  destruct (pop (split_nl (fst (Utf8.decode_stream (concat chunks) Utf8.initial))))
    as [lines frag].
  cbn [fst]. destruct (texts_of lines) as [ts err].
  destruct err; cbn [fst snd negb andb].
  - pose proof (sendDeltas_carry ts resp_init) as (K1 & K2 & K3 & _).
    pose proof (sendDeltas_numbered ts resp_init) as (N1 & _).
    rewrite K3. auto.
  - pose proof (sendDeltas_carry (ts ++ text_of_line frag) resp_init)
      as (K1 & K2 & K3 & K4 & K5).
    pose proof (sendDeltas_types (ts ++ text_of_line frag) resp_init)
      as (_ & T2).
    pose proof (sendDeltas_numbered (ts ++ text_of_line frag) resp_init)
      as (N1 & N2).
    destruct (sendDeltas (ts ++ text_of_line frag) resp_init) as [o st].
    cbn [fst snd resp_init r_fullText r_preambleSent r_seqNum orb app] in *.
    pose proof (resp_close_carries
                  (with_usage (usage_of lines zeroUsage) false st))
      as (D1 & D2 & D3).
    cbn [with_usage r_preambleSent r_fullText r_usageData] in D2, D3.
    rewrite !omap_app, filter_app, (map_app event_usage), K1, K2, D1, D2, D3,
      K3, K4, T2.
    rewrite app_nil_r. cbn [app map].
    repeat split.
    apply numbered_from_app; [exact N1|].
    rewrite <- N2.
    exact (resp_close_numbered (with_usage (usage_of lines zeroUsage) false st)).
Qed.

End RespFacts.

Lemma count_is_event (t : string) (out : list frame) :
  count (is_event t) out
  = length (filter (fun x => str_eqb x (lit t) = true) (map event_type out)).
Proof.
  unfold count, is_event. induction out as [|f out IH]; [reflexivity|].
  cbn [map]. destruct (str_eqb (event_type f) (lit t)) eqn:E.
  - rewrite !filter_cons_True by exact E. cbn [length]. rewrite IH. reflexivity.
  - rewrite !filter_cons_False by (rewrite E; discriminate). exact IH.
Qed.

Lemma filter_replicate_delta (t : string) (n : nat) :
  str_eqb delta_type (lit t) = false ->
  filter (fun x => str_eqb x (lit t) = true) (replicate n delta_type) = [].
Proof.
  intros H. induction n as [|n IH]; [reflexivity|].
  cbn [replicate]. rewrite filter_cons_False by (rewrite H; discriminate).
  exact IH.
Qed.

(** ** The stream transcoders: main results *)

(** C4, as the code has it: however the backend body is cut into chunks,
    [transform] hands on the same complete lines and holds back the same
    last fragment, those of the decoded body split at newlines; joined by
    newlines they are the decoded body again, so that no decoded character
    is lost or duplicated; what [response.text()] yields is that text
    followed by what the decoder still holds at the end of the body, which
    the streaming path never asks for; the frames enqueued are the same
    under both chunkings, namely those of [processSSELines] over the
    complete lines followed by the fragment as one more line, then the
    stop chunk and [data: [DONE]] unless sent; and the non-streaming
    aggregate is the one collected from the reassembled text followed by
    the decoder's remainder. *)
Theorem C4_chunking_invariance_amended (chatId : jsstring) (timestamp : number)
    (model : json) (chunks chunks' : list (list Byte.byte)) :
  concat chunks = concat chunks' ->
  let whole := fst (Utf8.decode_stream (concat chunks) Utf8.initial) in
  let run := chat_lines chunks Utf8.initial [] in
  let reassembled := fst run in
  reassembled = pop (split_nl whole)
  ∧ reassembled = fst (chat_lines chunks' Utf8.initial [])
  ∧ join [10%N] (fst reassembled ++ [snd reassembled]) = whole
  ∧ Utf8.text (concat chunks) = whole ++ Utf8.finish (snd run)
  ∧ chat_stream chatId timestamp model chunks
    = chat_stream chatId timestamp model chunks'
  ∧ chat_stream chatId timestamp model chunks
    = (let '(out, d) :=
         processSSELines chatId timestamp model
           (fst reassembled ++ [snd reassembled]) false in
       if d then out
       else out ++ [DataJson (stopChunk chatId timestamp model); DataDone])
  ∧ collectText (Utf8.text (concat chunks))
    = collectText (join [10%N] (fst reassembled ++ [snd reassembled])
                   ++ Utf8.finish (snd run)).
Proof.
  intros Heq. cbn zeta.
  assert (Hno : 10%N ∉ ([] : jsstring)) by (intros H; inversion H).
  rewrite !chat_lines_whole by exact Hno. cbn [app fst snd].
  rewrite <- Heq.
  set (whole := fst (Utf8.decode_stream (concat chunks) Utf8.initial)).
  assert (Hjoin : join [10%N] (fst (pop (split_nl whole))
                               ++ [snd (pop (split_nl whole))]) = whole).
  { rewrite pop_unpop by apply split_nl_nonempty. apply join_split_nl. }
  assert (Htext : Utf8.text (concat chunks)
                  = whole ++ Utf8.finish
                               (snd (Utf8.decode_stream (concat chunks)
                                       Utf8.initial))).
  { unfold Utf8.text, whole.
    destruct (Utf8.decode_stream (concat chunks) Utf8.initial); reflexivity. }
  split; [reflexivity|]. split; [reflexivity|].
  split; [exact Hjoin|]. split; [exact Htext|].
  split.
  { rewrite !chat_stream_whole, Heq. reflexivity. }
  split.
  - rewrite chat_stream_whole. cbn zeta. fold whole.
    rewrite pop_unpop by apply split_nl_nonempty.
    destruct (processSSELines chatId timestamp model (split_nl whole) false)
      as [out d].
    destruct d; reflexivity.
  - rewrite Hjoin, Htext. reflexivity.
Qed.

(** A body cut inside a two-byte character and inside a line. *)
Lemma C4_chunking_invariance_amended_witness :
  chat_stream (lit "c") (mkNum 0 0) (JStr "m") split_body
  = chat_stream (lit "c") (mkNum 0 0) (JStr "m") [concat split_body].
Proof.
  apply (C4_chunking_invariance_amended (lit "c") (mkNum 0 0) (JStr "m")
           split_body [concat split_body]).
  vm_compute. reflexivity.
Defined.

(** C4, counterexample: a body that ends with the first byte of a two-byte
    character, after a text event without its newline.  The streaming
    transcoder enqueues the frames of the body without that byte: the byte
    is lost.  [response.text()] turns it into U+FFFD, which makes the line
    invalid JSON, so that the non-streaming aggregate is empty. *)
Lemma C4_counterexample :
  chat_stream (lit "c") (mkNum 0 0) (JStr "m") [cut_body]
  = chat_stream (lit "c") (mkNum 0 0) (JStr "m") [removelast cut_body]
  ∧ omap delta_content
      (chat_stream (lit "c") (mkNum 0 0) (JStr "m") [cut_body])
    = [JStr "a"]
  ∧ collectText (Utf8.text cut_body) = []
  ∧ collectText (Utf8.text (removelast cut_body)) = lit "a".
Proof. repeat split; vm_compute; reflexivity. Qed.

(** C2, as the code has it: [data: [DONE]] is enqueued exactly once for
    every backend body; the stop chunk at most once, always directly
    followed by [data: [DONE]], and exactly once unless the backend's own
    [data: [DONE]] line comes before any end-of-turn event; and
    [response.completed] is enqueued at most once, exactly once when some
    text fragment was extracted and no line made [transform] throw. *)
Theorem C2_terminal_events_amended (chatId : jsstring) (timestamp : number)
    (model : json) (respId itemId : jsstring) (created_at : nat -> number)
    (chunks : list (list Byte.byte)) :
  let whole := fst (Utf8.decode_stream (concat chunks) Utf8.initial) in
  let chat := chat_stream chatId timestamp model chunks in
  let resp := resp_stream respId itemId model created_at chunks in
  count is_done chat = 1
  ∧ count is_stop_chunk chat
    = (if sentinel_first (split_nl whole) then 0 else 1)
  ∧ stop_then_done chat
  ∧ count (is_event "response.completed") resp
    = (let '(texts, err) := texts_of_body whole in
       match texts with
       | [] => 0
       | _ => if err then 0 else 1
       end).
Proof.
  cbn zeta. rewrite chat_stream_whole. cbn zeta.
  set (whole := fst (Utf8.decode_stream (concat chunks) Utf8.initial)).
  pose proof (processSSELines_terminal chatId timestamp model (split_nl whole)) as H.
  pose proof (processSSELines_stop_then_done chatId timestamp model
                (split_nl whole) false) as Hs.
  destruct (processSSELines chatId timestamp model (split_nl whole) false)
    as [o d].
  destruct H as (H1 & H2 & H3). cbn [fst] in Hs.
  split; [|split; [|split]].
  - destruct d; cbn [negb]; [exact H1|].
    rewrite count_app, H1. reflexivity.
  - destruct d; cbn [negb andb] in *.
    + rewrite H2. destruct (sentinel_first (split_nl whole)); reflexivity.
    + rewrite count_app, H2, (H3 eq_refl). reflexivity.
  - destruct d; cbn [negb]; [exact Hs|].
    apply stop_then_done_app; [exact Hs|apply stop_then_done_pair].
  - pose proof (resp_stream_types respId itemId model created_at chunks) as HT.
    cbn zeta in HT. fold whole in HT.
    destruct (texts_of_body whole) as [texts err].
    rewrite count_is_event, HT.
    destruct texts as [|t texts]; [reflexivity|].
    rewrite !filter_app, !length_app, filter_replicate_delta by reflexivity.
    destruct err; reflexivity.
Qed.

(** C2, counterexample: when the backend closes with its own
    [data: [DONE]] line, the chat-completions stream carries the terminator
    but no stop chunk; and when the backend sends a usage event and no
    text, the response-lifecycle stream carries no [response.completed]. *)
Lemma C2_counterexample :
  chat_stream (lit "chatcmpl-rovodev-0") (mkNum 0 0) (JStr "rovodev-auto")
      [sentinel_body] = [DataDone]
  ∧ count is_stop_chunk
      (chat_stream (lit "chatcmpl-rovodev-0") (mkNum 0 0) (JStr "rovodev-auto")
         [sentinel_body]) = 0
  ∧ resp_stream (lit "resp_rovodev-0") (lit "item_rovodev-0")
      (JStr "rovodev-auto") (fun _ => mkNum 0 0) [usage_only_body] = []
  ∧ count (is_event "response.completed")
      (resp_stream (lit "resp_rovodev-0") (lit "item_rovodev-0")
         (JStr "rovodev-auto") (fun _ => mkNum 0 0) [usage_only_body]) = 0.
Proof. repeat split; vm_compute; reflexivity. Qed.

(** C8: by type, the events of the response-lifecycle stream are: nothing
    at all when no text fragment is extracted; otherwise the four preamble
    events once, one [response.output_text.delta] for each text fragment
    that has a string form, and the four closing events (none when a line
    made [transform] throw).
    [sendPreamble] is gated by [preambleSent] alone, and the closing
    events are enqueued only when [preambleSent] is set. *)
Theorem C8_lifecycle_events (respId itemId : jsstring) (model : json)
    (created_at : nat -> number) (chunks : list (list Byte.byte)) :
  let out := resp_stream respId itemId model created_at chunks in
  let '(texts, err) :=
    texts_of_body (fst (Utf8.decode_stream (concat chunks) Utf8.initial)) in
  map event_type out
  = match texts with
    | [] => []
    | _ => preamble_types ++ replicate (length (printed texts)) delta_type
           ++ (if err then [] else closing_types)
    end
  ∧ (texts = [] -> out = [])
  ∧ (∀ st, r_preambleSent st = true ->
           sendPreamble respId itemId model created_at st = ([], st))
  ∧ (∀ st, map event_type (fst (sendPreamble respId itemId model created_at st))
           = (if r_preambleSent st then [] else preamble_types)
           ∧ r_preambleSent
               (snd (sendPreamble respId itemId model created_at st)) = true)
  ∧ (∀ st, r_preambleSent st = false ->
           resp_close respId itemId model created_at st = []).
Proof.
  cbn zeta.
  pose proof (resp_stream_types respId itemId model created_at chunks) as HT.
  cbn zeta in HT.
  destruct (texts_of_body (fst (Utf8.decode_stream (concat chunks) Utf8.initial)))
    as [texts err].
  split; [exact HT|]. split.
  { intros ->. apply map_eq_nil in HT. exact HT. }
  split.
  { intros st H. unfold sendPreamble. rewrite H. reflexivity. }
  split.
  { intros [d b f p n u e]. destruct p; split; reflexivity. }
  intros st H. unfold resp_close. rewrite H. reflexivity.
Qed.

(** ** Content deltas *)


Section DeltaFacts.

Variable chatId : jsstring.
Variable timestamp : number.
Variable model : json.
Variable respId itemId : jsstring.
Variable created_at : nat -> number.














End DeltaFacts.






(** ** Backend session driver: single steps *)

Section DriverFacts.

Variable be : backend.

Lemma bind_run {A B} (m : M A) (k : A -> M B) (w : world) :
  (m ≫= k) w
  = match m w with
    | (Ret a, w') => k a w'
    | (Throw e, w') => (Throw e, w')
    end.
Proof. reflexivity. Qed.

Lemma only_probes_refl (w : world) : only_probes w w.
Proof.
  repeat split; try reflexivity. exists 0. rewrite app_nil_r. auto.
Qed.

Lemma only_probes_trans (w1 w2 w3 : world) :
  only_probes w1 w2 -> only_probes w2 w3 -> only_probes w1 w3.
Proof.
  intros (A1 & A2 & A3 & k1 & A4 & A5) (B1 & B2 & B3 & k2 & B4 & B5).
  repeat split; try congruence; try lia.
  exists (k1 + k2). rewrite B4, A4, <- app_assoc, replicate_add. split; [reflexivity|lia].
Qed.

Lemma probe_once (w : world) :
  ∃ b w', try_catch (resp ← fetch_sessions_create be; ret (ok resp))
                    (fun _ => ret false) w = (Ret b, w')
          ∧ n_set w' = n_set w ∧ n_stream w' = n_stream w
          ∧ (clock w <= clock w')%Z
          ∧ log w' = log w ++ [SessionsCreate]
          ∧ n_probe w' = S (n_probe w)
          ∧ ((elapsed (sessions_create be (n_probe w)) <=? 5000)%N = true ->
             b = accepts (sessions_create be (n_probe w))).
Proof.
  unfold try_catch. rewrite bind_run. unfold fetch_sessions_create, settle, accepts.
  destruct (5000 <? elapsed (sessions_create be (n_probe w)))%N eqn:E.
  - eexists _, _. split; [reflexivity|]. cbn. repeat split; try lia.
    intros H. apply N.leb_le in H. apply N.ltb_lt in E. lia.
  - destruct (result (sessions_create be (n_probe w))) as [e|r];
      eexists _, _; (split; [reflexivity|]); cbn; repeat split; lia.
Qed.

Lemma waitLoop_probes (polls : nat) (start maxWaitMs : Z) (w : world) :
  ∃ b w', waitLoop be polls start maxWaitMs w = (Ret b, w') ∧ only_probes w w'.
Proof.
  revert w. induction polls as [|polls IH]; intros w.
  - eexists _, _. split; [reflexivity|apply only_probes_refl].
  - cbn [waitLoop]. rewrite bind_run. cbn [now].
    destruct (clock w - start <? maxWaitMs)%Z.
    + rewrite bind_run.
      destruct (probe_once w) as (b & w1 & -> & P1 & P2 & P3 & P4 & P5 & _).
      assert (Hw1 : only_probes w w1).
      { repeat split; auto. exists 1. split; [exact P4|lia]. }
      destruct b.
      * eexists _, _. split; [reflexivity|exact Hw1].
      * rewrite bind_run. cbn [sleep].
        destruct (IH (tick interval w1)) as (b & w2 & -> & Hw2).
        eexists _, _. split; [reflexivity|].
        eapply only_probes_trans; [exact Hw1|].
        eapply only_probes_trans; [|exact Hw2].
        repeat split; cbn; try (unfold interval; lia).
        exists 0. rewrite app_nil_r. auto.
    + eexists _, _. split; [reflexivity|apply only_probes_refl].
Qed.

(** [waitForAgentIdle] always returns, and sends idle probes only. *)
Lemma waitForAgentIdle_probes (maxWaitMs : Z) (w : world) :
  ∃ w', waitForAgentIdle be maxWaitMs w = (Ret tt, w') ∧ only_probes w w'.
Proof.
  unfold waitForAgentIdle. rewrite bind_run. cbn [now]. rewrite bind_run.
  destruct (waitLoop_probes (S (Z.to_nat (maxWaitMs / interval))) (clock w)
              maxWaitMs w) as (b & w' & -> & H).
  eexists. split; [reflexivity|exact H].
Qed.

(** The number of polls that [waitForAgentIdle] allows is never the reason
    why the loop ends: with any two allowances that cover the time left,
    the loop does the same. *)
Lemma waitLoop_polls_enough (polls polls' : nat) (start maxWaitMs : Z)
    (w : world) :
  (start + maxWaitMs - clock w <= interval * Z.of_nat polls)%Z ->
  (start + maxWaitMs - clock w <= interval * Z.of_nat polls')%Z ->
  waitLoop be polls start maxWaitMs w = waitLoop be polls' start maxWaitMs w.
Proof.
  revert polls' w. induction polls as [|polls IH]; intros polls' w H1 H2.
  - destruct polls' as [|polls']; [reflexivity|].
    cbn [waitLoop]. rewrite bind_run. cbn [now].
    destruct (Z.ltb_spec (clock w - start) maxWaitMs); [lia|reflexivity].
  - destruct polls' as [|polls'].
    + cbn [waitLoop]. rewrite bind_run. cbn [now].
      destruct (Z.ltb_spec (clock w - start) maxWaitMs); [lia|reflexivity].
    + cbn [waitLoop]. rewrite !bind_run. cbn [now].
      destruct (Z.ltb_spec (clock w - start) maxWaitMs); [|reflexivity].
      rewrite !bind_run.
      destruct (probe_once w) as (b & w1 & -> & P1 & P2 & P3 & P4 & P5 & _).
      destruct b; [reflexivity|].
      rewrite !bind_run. cbn [sleep].
      apply IH; cbn; unfold interval in *; lia.
Qed.

Lemma waitForAgentIdle_polls_enough (maxWaitMs : Z) (w : world) (polls : nat) :
  (maxWaitMs <= interval * Z.of_nat polls)%Z ->
  waitLoop be (S (Z.to_nat (maxWaitMs / interval))) (clock w) maxWaitMs w
  = waitLoop be polls (clock w) maxWaitMs w.
Proof.
  intros H. apply waitLoop_polls_enough; [|lia].
  unfold interval in *.
  destruct (Z.le_gt_cases maxWaitMs 0) as [Hle|Hgt]; [lia|].
  rewrite Nat2Z.inj_succ, Z2Nat.id by (apply Z.div_pos; lia).
  pose proof (Z.mod_pos_bound maxWaitMs 1500 ltac:(lia)).
  pose proof (Z.div_mod maxWaitMs 1500 ltac:(lia)). lia.
Qed.


(** With the agent idle at the first probe, [waitForAgentIdle] sends that
    one probe and returns. *)
Lemma waitForAgentIdle_idle (maxWaitMs : Z) (w : world) :
  (0 < maxWaitMs)%Z ->
  (elapsed (sessions_create be (n_probe w)) <=? 5000)%N = true ->
  accepts (sessions_create be (n_probe w)) = true ->
  waitForAgentIdle be maxWaitMs w = (Ret tt, after_probe be w).
Proof.
  intros Hpos Hfast Hok.
  unfold waitForAgentIdle. rewrite bind_run. cbn [now]. rewrite bind_run.
  cbn [waitLoop]. rewrite bind_run. cbn [now].
  destruct (Z.ltb_spec (clock w - clock w) maxWaitMs); [|lia].
  rewrite bind_run. unfold try_catch. rewrite bind_run.
  unfold fetch_sessions_create, settle, accepts in *.
  apply N.leb_le in Hfast.
  destruct (N.ltb_spec 5000 (elapsed (sessions_create be (n_probe w)))); [lia|].
  destruct (result (sessions_create be (n_probe w))) as [e|r]; [discriminate|].
  cbn. rewrite Hok. reflexivity.
Qed.

Lemma setMessage_run (text : jsstring) (w : world) :
  setMessage be text w
  = (Ret (accepts (set_chat_message be (n_set w))), after_set be text w).
Proof.
  unfold setMessage, try_catch. rewrite bind_run.
  unfold fetch_set_chat_message, settle, accepts.
  destruct (result (set_chat_message be (n_set w))); reflexivity.
Qed.

Lemma fetch_stream_chat_run (w : world) :
  fetch_stream_chat be w
  = (match result (stream_chat be (n_stream w)) with
     | Resolves r => Ret r
     | Rejects e => Throw e
     end, after_stream be w).
Proof.
  unfold fetch_stream_chat, settle.
  destruct (result (stream_chat be (n_stream w))); reflexivity.
Qed.

(** One iteration of the loop of [sendAndStream]: [w1] is the world after
    the idle wait at the top (none at attempt 0), [w2] the world after the
    idle wait that follows a refused submission. *)
Lemma sendAndStream_from_step (prompt : jsstring) (m left attempt : nat)
    (w : world) :
  ∃ w1 w2,
    (if (0 <? attempt)%nat
     then waitForAgentIdle be 30000 w = (Ret tt, w1) else w1 = w)
    ∧ only_probes w w1
    ∧ waitForAgentIdle be 15000 (after_set be prompt w1) = (Ret tt, w2)
    ∧ only_probes (after_set be prompt w1) w2
    ∧ sendAndStream_from be prompt m (S left) attempt w
      = if accepts (set_chat_message be (n_set w1)) then
          match result (stream_chat be (n_stream w1)) with
          | Rejects e => (Throw e, after_stream be (after_set be prompt w1))
          | Resolves r =>
              if ok r then (Ret r, after_stream be (after_set be prompt w1))
              else if (status r =? 409)%Z then
                sendAndStream_from be prompt m left (S attempt)
                  (after_stream be (after_set be prompt w1))
              else (Ret r, after_stream be (after_set be prompt w1))
          end
        else if (attempt <? m - 1)%nat then
          sendAndStream_from be prompt m left (S attempt) w2
        else (Throw unreachable_message, after_set be prompt w1).
Proof.
  assert (H1 : ∃ w1,
             (if (0 <? attempt)%nat then waitForAgentIdle be 30000 : M unit
              else ret tt) w = (Ret tt, w1)
             ∧ (if (0 <? attempt)%nat
                then waitForAgentIdle be 30000 w = (Ret tt, w1) else w1 = w)
             ∧ only_probes w w1).
  { destruct (0 <? attempt)%nat.
    - destruct (waitForAgentIdle_probes 30000 w) as (w1 & E & P). eauto.
    - exists w. auto using only_probes_refl. }
  destruct H1 as (w1 & E1 & G1 & P1).
  destruct (waitForAgentIdle_probes 15000 (after_set be prompt w1))
    as (w2 & E2 & P2).
  exists w1, w2. repeat (split; [assumption|]).
  cbn [sendAndStream_from]. rewrite bind_run, E1, bind_run, setMessage_run.
  destruct (accepts (set_chat_message be (n_set w1))); cbn [negb].
  - rewrite bind_run, fetch_stream_chat_run.
    change (n_stream (after_set be prompt w1)) with (n_stream w1).
    destruct (result (stream_chat be (n_stream w1))) as [e|r]; [reflexivity|].
    destruct (ok r); [reflexivity|].
    destruct (status r =? 409)%Z; reflexivity.
  - destruct (attempt <? m - 1)%nat; [|reflexivity].
    rewrite bind_run, E2. reflexivity.
Qed.

Lemma turns_app (a b : list request) : turns (a ++ b) = turns a ++ turns b.
Proof. apply filter_app. Qed.

Lemma turns_probes (k : nat) : turns (replicate k SessionsCreate) = [].
Proof.
  induction k as [|k IH]; [reflexivity|].
  cbn [replicate]. unfold turns. rewrite filter_cons_False by (cbn; discriminate).
  exact IH.
Qed.

Lemma only_probes_turns (w w' : world) :
  only_probes w w' -> turns (log w') = turns (log w).
Proof.
  intros (_ & _ & _ & k & -> & _).
  rewrite turns_app, turns_probes, app_nil_r. reflexivity.
Qed.


(** A stream-open answered with a failure other than busy ends the loop:
    that response is the result and no request follows it. *)
Lemma sendAndStream_from_hard_failure (prompt : jsstring) (m left attempt : nat)
    (w : world) (k : nat) (resp : Response) :
  let run := sendAndStream_from be prompt m left attempt w in
  n_stream w <= k < n_stream (snd run) ->
  result (stream_chat be k) = Resolves resp ->
  ok resp = false -> status resp ≠ 409%Z ->
  fst run = Ret resp ∧ n_stream (snd run) = S k
  ∧ ∃ l, log (snd run) = l ++ [StreamChat].
Proof.
  cbn zeta. revert attempt w. induction left as [|left IH];
    intros attempt w Hk Hr Hok Hst.
  - cbn in Hk. lia.
  - destruct (sendAndStream_from_step prompt m left attempt w)
      as (w1 & w2 & _ & P1 & _ & P2 & E).
    rewrite E in *. clear E.
    destruct P1 as (_ & S2 & _). destruct P2 as (_ & T2 & _).
    cbn [after_set n_stream] in T2.
    destruct (accepts (set_chat_message be (n_set w1))).
    + destruct (result (stream_chat be (n_stream w1))) as [e|r] eqn:Er.
      * cbn [snd after_stream after_set n_stream] in Hk.
        assert (k = n_stream w1) by lia. subst k. congruence.
      * destruct (ok r) eqn:Eok.
        -- cbn [snd after_stream after_set n_stream] in Hk.
           assert (k = n_stream w1) by lia. subst k. congruence.
        -- destruct (Z.eqb_spec (status r) 409) as [E409|E409].
           ++ destruct (Nat.eq_dec k (n_stream w1)) as [->|Hne]; [congruence|].
              apply IH; auto. cbn [after_stream after_set n_stream]. lia.
           ++ cbn [snd fst after_stream after_set n_stream log] in *.
              assert (k = n_stream w1) by lia. subst k.
              assert (r = resp) by congruence. subst r.
              split; [reflexivity|]. split; [reflexivity|]. eauto.
    + destruct (attempt <? m - 1)%nat.
      * apply IH; auto. lia.
      * cbn [snd after_set n_stream] in Hk. lia.
Qed.

Lemma openTurn_run (needBody : bool) (prompt : jsstring) (w : world) :
  openTurn be needBody prompt w
  = match sendAndStream be prompt 4 w with
    | (Ret rovoResp, w') =>
        (Ret (if negb (ok rovoResp)
                 || needBody && negb (bool_decide (is_Some (body rovoResp)))
              then inl (proxy_error (returned rovoResp))
              else inr rovoResp), w')
    | (Throw e, w') => (Ret (inl (proxy_error (message_of e))), w')
    end.
Proof.
  unfold openTurn, try_catch. rewrite bind_run.
  destruct (sendAndStream be prompt 4 w) as [[r|e] w']; [|reflexivity].
  destruct (negb (ok r) || needBody && negb (bool_decide (is_Some (body r))));
    reflexivity.
Qed.

End DriverFacts.

(** ** Request serialization queue: invariant *)

Section QueueFacts.

Variable T : Type.
Implicit Types (q : qstate T) (s : slot T) (o : settlement T).

Local Ltac look :=
  repeat match goal with
  | H : (_ ++ [_]) !! _ = Some _ |- _ =>
      apply lookup_snoc_Some in H as [[? H]|[? ?]]
  | H : <[_:=_]> _ !! _ = Some _ |- _ =>
      apply list_lookup_insert_Some in H as [(? & ? & ?)|[? H]]
  end; simplify_eq/=.

Local Ltac keep := first [apply lookup_app_l_Some; eassumption | eassumption].

Lemma invariant_q0 : invariant (q0 (T:=T)).
Proof. constructor; cbn; intros; try discriminate; try reflexivity. Qed.

Lemma lookup_snoc_new {A} (l : list A) (x : A) : (l ++ [x]) !! length l = Some x.
Proof. apply list_lookup_middle. reflexivity. Qed.

Lemma invariant_enqueue q : invariant q -> invariant (enqueue q).
Proof.
  intros [Io Il Ib Is Id It I1 If Ig Ie]. unfold enqueue.
  constructor; cbn [slots trace].
  - intros c s Hc Hs p Hp. look; try congruence.
    destruct (Io _ _ Hc Hs p Hp) as (sp & o & ? & ?).
    exists sp, o. split; [keep|assumption].
  - intros c s Hc Hl. look. eauto.
  - intros c s Hc Hs. look; try congruence.
    destruct (Ib _ _ Hc Hs) as (b & ?). exists b. keep.
  - intros i c r Hi. look.
    destruct (Is _ _ _ Hi) as (s & b & ? & ? & ? & ?).
    exists s, b. repeat split; try keep; assumption.
  - intros c s o Hc Hs. look.
    destruct (Id _ _ _ Hc Hs) as (k & ? & Hk). exists k. split; [keep|].
    intros i r Hi. look. eauto.
  - intros k c o Hk. look. destruct (It _ _ _ Hk) as (s & ? & ?).
    exists s. split; [keep|assumption].
  - intros k k' c o o' Hk Hk'. look. eauto.
  - intros i j c1 c2 r1 r2 Hij Hi Hj. look.
    destruct (If _ _ _ _ _ _ Hij Hi Hj) as (? & Hx). split; [assumption|].
    intros Hlt. destruct (Hx Hlt) as (k & o & ? & ?). exists k, o.
    split; [assumption|keep].
  - intros j c2 Hj c1 Hlt. look.
    destruct (Ig _ _ Hj _ Hlt) as (k & o & ? & ?). exists k, o.
    split; [assumption|keep].
  - rewrite filter_app, Ie, length_app, seq_app, map_app. reflexivity.
Qed.


(** Once the link before [c] is fulfilled, every earlier thunk has
    settled. *)
Lemma earlier_done q c :
  invariant q -> prev_fulfilled q c ->
  ∀ p, p < c -> ∃ sp o, slots q !! p = Some sp ∧ thunk sp = Done o.
Proof.
  intros Hinv Hprev p Hp. destruct c as [|p0]; [lia|].
  destruct Hprev as (s0 & H0 & Hl).
  destruct (inv_link _ _ Hinv _ _ H0 Hl) as (o0 & Hd).
  destruct (decide (p = p0)) as [->|Hne]; [eauto|].
  apply (inv_order _ _ Hinv p0 s0 H0); [congruence|lia].
Qed.

Lemma insert_other {A} (l : list A) (c p : nat) (x y z : A) :
  l !! c = Some x -> l !! p = Some y -> x ≠ y -> <[c := z]> l !! p = Some y.
Proof.
  intros Hc Hp Hne. rewrite list_lookup_insert_ne; [exact Hp|]. congruence.
Qed.

Lemma invariant_begin q c s :
  invariant q ->
  slots q !! c = Some s -> thunk s = Waiting -> prev_fulfilled q c ->
  invariant (mkQ (<[c := mkSlot Running (link s)]> (slots q))
                 (trace q ++ [Began c])).
Proof.
  intros Hinv Hc Hw Hprev.
  pose proof (earlier_done q c Hinv Hprev) as Hearlier.
  assert (Hkeep : ∀ p sp o, slots q !! p = Some sp -> thunk sp = Done o ->
            <[c := mkSlot Running (link s)]> (slots q) !! p = Some sp).
  { intros p sp o Hp Hd. eapply insert_other; eauto. congruence. }
  destruct Hinv as [Io Il Ib Is Id It I1 If Ig Ie]. constructor; cbn [slots trace].
  - intros c0 s0 Hc0 Hs0 p Hp. look.
    + destruct (Hearlier p Hp) as (sp & o & ? & ?). eauto.
    + destruct (Io _ _ Hc0 Hs0 p Hp) as (sp & o & ? & ?). eauto.
  - intros c0 s0 Hc0 Hl. look; [|eauto].
    destruct (Il _ _ Hc Hl) as (o & ?). congruence.
  - intros c0 s0 Hc0 Hs0. look.
    + exists (length (trace q)). apply lookup_snoc_new.
    + destruct (Ib _ _ Hc0 Hs0) as (b & ?). exists b. keep.
  - intros i c0 r Hi. look.
    destruct (Is _ _ _ Hi) as (s0 & b & ? & ? & ? & ?).
    exists s0, b. repeat split; try keep; try assumption.
    rewrite list_lookup_insert_ne; [assumption|]. congruence.
  - intros c0 s0 o Hc0 Hs0. look.
    destruct (Id _ _ _ Hc0 Hs0) as (k & ? & Hk). exists k. split; [keep|].
    intros i r Hi. look. eauto.
  - intros k c0 o Hk. look. destruct (It _ _ _ Hk) as (s0 & ? & ?).
    exists s0. split; [|assumption]. eauto.
  - intros k k' c0 o o' Hk Hk'. look. eauto.
  - intros i j c1 c2 r1 r2 Hij Hi Hj. look.
    destruct (If _ _ _ _ _ _ Hij Hi Hj) as (? & Hx). split; [assumption|].
    intros Hlt. destruct (Hx Hlt) as (k & o & ? & ?). exists k, o.
    split; [assumption|keep].
  - intros j c2 Hj c1 Hlt. look.
    + destruct (Ig _ _ Hj _ Hlt) as (k & o & ? & ?). exists k, o.
      split; [assumption|keep].
    + destruct (Hearlier c1 Hlt) as (sp & o & Hp & Hd).
      destruct (Id _ _ _ Hp Hd) as (k & Hk & _). exists k, o.
      split; [eapply lookup_lt_Some; eassumption|keep].
  - rewrite filter_app, Ie, length_insert.
    rewrite filter_cons_False by (cbn; discriminate). rewrite filter_nil.
    apply app_nil_r.
Qed.

Lemma invariant_send q c s r :
  invariant q -> slots q !! c = Some s -> thunk s = Running ->
  invariant (mkQ (slots q) (trace q ++ [Sent c r])).
Proof.
  intros Hinv Hc Hr.
  destruct Hinv as [Io Il Ib Is Id It I1 If Ig Ie]. constructor; cbn [slots trace].
  - exact Io.
  - exact Il.
  - intros c0 s0 Hc0 Hs0. destruct (Ib _ _ Hc0 Hs0) as (b & ?). exists b. keep.
  - intros i c0 r0 Hi. look.
    + destruct (Is _ _ _ Hi) as (s0 & b & ? & ? & ? & ?).
      exists s0, b. repeat split; try keep; assumption.
    + destruct (Ib _ _ Hc ltac:(congruence)) as (b & Hb).
      exists s, b. repeat split; try assumption; try congruence.
      * eapply lookup_lt_Some; eassumption.
      * keep.
  - intros c0 s0 o Hc0 Hs0.
    destruct (Id _ _ _ Hc0 Hs0) as (k & ? & Hk). exists k. split; [keep|].
    intros i r0 Hi. look; [eauto|]. congruence.
  - intros k c0 o Hk. look. eauto.
  - intros k k' c0 o o' Hk Hk'. look. eauto.
  - intros i j c1 c2 r1 r2 Hij Hi Hj. look; try lia.
    + destruct (If _ _ _ _ _ _ Hij Hi Hj) as (? & Hx). split; [assumption|].
      intros Hlt. destruct (Hx Hlt) as (k & o & ? & ?). exists k, o.
      split; [assumption|keep].
    + (* the new request, of the running call [c2], after one of [c1] *)
      destruct (Is _ _ _ Hi) as (s1 & b & Hc1 & Hs1 & _ & _).
      destruct (Nat.lt_trichotomy c1 c2) as [Hlt|[->|Hgt]].
      * split; [lia|]. intros _.
        destruct (Io _ _ Hc ltac:(congruence) c1 Hlt) as (sp & o & Hp & Hd).
        destruct (Id _ _ _ Hp Hd) as (k & Hk & Hafter).
        exists k, o. split; [|keep]. split; [eauto|].
        eapply lookup_lt_Some; eassumption.
      * split; [lia|]. intros; lia.
      * destruct (Io c1 s1 Hc1 Hs1 c2 Hgt) as (sp & o & Hp & Hd). congruence.
  - intros j c2 Hj c1 Hlt. look.
    destruct (Ig _ _ Hj _ Hlt) as (k & o & ? & ?). exists k, o.
    split; [assumption|keep].
  - rewrite filter_app, Ie.
    rewrite filter_cons_False by (cbn; discriminate). rewrite filter_nil.
    apply app_nil_r.
Qed.


Lemma lookup_insert_case {A} (l : list A) (c p : nat) (x y : A) :
  l !! p = Some y ->
  <[c := x]> l !! p = Some (if decide (c = p) then x else y).
Proof.
  intros Hp. destruct (decide (c = p)) as [->|Hne].
  - apply list_lookup_insert_eq. eapply lookup_lt_Some; eassumption.
  - rewrite list_lookup_insert_ne by assumption. exact Hp.
Qed.

Lemma invariant_settle q c s o :
  invariant q -> slots q !! c = Some s -> thunk s = Running ->
  invariant (mkQ (<[c := mkSlot (Done o) (link s)]> (slots q))
                 (trace q ++ [Settled c o])).
Proof.
  intros Hinv Hc Hr.
  assert (Hkeep : ∀ p sp o', slots q !! p = Some sp -> thunk sp = Done o' ->
            <[c := mkSlot (Done o) (link s)]> (slots q) !! p = Some sp).
  { intros p sp o' Hp Hd. eapply insert_other; eauto. congruence. }
  destruct Hinv as [Io Il Ib Is Id It I1 If Ig Ie]. constructor; cbn [slots trace].
  - intros c0 s0 Hc0 Hs0 p Hp. look.
    + destruct (Io _ _ Hc ltac:(congruence) p Hp) as (sp & o' & ? & ?). eauto.
    + destruct (Io _ _ Hc0 Hs0 p Hp) as (sp & o' & ? & ?). eauto.
  - intros c0 s0 Hc0 Hl. look; eauto.
  - intros c0 s0 Hc0 Hs0. look.
    + destruct (Ib _ _ Hc ltac:(congruence)) as (b & ?). exists b. keep.
    + destruct (Ib _ _ Hc0 Hs0) as (b & ?). exists b. keep.
  - intros i c0 r Hi. look.
    destruct (Is _ _ _ Hi) as (s0 & b & H0 & ? & ? & ?).
    eexists _, b. split; [apply lookup_insert_case; exact H0|].
    repeat split; try keep; try assumption.
    destruct (decide (c = c0)); [discriminate|assumption].
  - intros c0 s0 o' Hc0 Hs0. look.
    + exists (length (trace q)). split; [apply lookup_snoc_new|].
      intros i r Hi. look. eapply lookup_lt_Some; eassumption.
    + destruct (Id _ _ _ Hc0 Hs0) as (k & ? & Hk). exists k. split; [keep|].
      intros i r Hi. look. eauto.
  - intros k c0 o' Hk. look.
    + destruct (It _ _ _ Hk) as (s0 & ? & ?). exists s0. eauto.
    + eexists. split; [apply list_lookup_insert_eq|reflexivity].
      eapply lookup_lt_Some; eassumption.
  - intros k k' c0 o1 o2 Hk Hk'. look; try reflexivity;
      try (eapply I1; eassumption);
      match goal with
      | H : trace q !! _ = Some (Settled _ _) |- _ =>
          destruct (It _ _ _ H) as (? & ? & ?); congruence
      end.
  - intros i j c1 c2 r1 r2 Hij Hi Hj. look.
    destruct (If _ _ _ _ _ _ Hij Hi Hj) as (? & Hx). split; [assumption|].
    intros Hlt. destruct (Hx Hlt) as (k & o' & ? & ?). exists k, o'.
    split; [assumption|keep].
  - intros j c2 Hj c1 Hlt. look.
    destruct (Ig _ _ Hj _ Hlt) as (k & o' & ? & ?). exists k, o'.
    split; [assumption|keep].
  - rewrite filter_app, Ie, length_insert.
    rewrite filter_cons_False by (cbn; discriminate). rewrite filter_nil.
    apply app_nil_r.
Qed.

Lemma invariant_link q c s o :
  invariant q -> slots q !! c = Some s -> thunk s = Done o ->
  invariant (mkQ (<[c := mkSlot (Done o) true]> (slots q)) (trace q)).
Proof.
  intros Hinv Hc Hd.
  destruct Hinv as [Io Il Ib Is Id It I1 If Ig Ie]. constructor; cbn [slots trace];
    try assumption.
  - intros c0 s0 Hc0 Hs0 p Hp.
    assert (∃ sp o', slots q !! p = Some sp ∧ thunk sp = Done o') as (sp & o' & Hsp & Hdp).
    { look.
      - apply (Io _ _ Hc); [congruence|assumption].
      - apply (Io _ _ Hc0 Hs0). assumption. }
    destruct (decide (c = p)) as [->|Hne].
    + exists (mkSlot (Done o) true), o. split; [|reflexivity].
      apply list_lookup_insert_eq. eapply lookup_lt_Some; eassumption.
    + exists sp, o'. rewrite list_lookup_insert_ne by assumption. auto.
  - intros c0 s0 Hc0 Hl. look; eauto.
  - intros c0 s0 Hc0 Hs0. look.
    + apply (Ib _ _ Hc). congruence.
    + eauto.
  - intros i c0 r Hi.
    destruct (Is _ _ _ Hi) as (s0 & b & H0 & ? & ? & ?).
    eexists _, b. split; [apply lookup_insert_case; exact H0|].
    repeat split; try assumption.
    destruct (decide (c = c0)); [discriminate|assumption].
  - intros c0 s0 o' Hc0 Hs0. look; eauto.
  - intros k c0 o' Hk. destruct (It _ _ _ Hk) as (s0 & H0 & Hd0).
    eexists. split; [apply lookup_insert_case; exact H0|].
    destruct (decide (c = c0)) as [->|]; [|assumption]. cbn. congruence.
  - rewrite Ie, length_insert. reflexivity.
Qed.

Lemma invariant_step q q' : invariant q -> step q q' -> invariant q'.
Proof.
  intros Hinv Hstep. destruct Hstep.
  - apply invariant_enqueue; assumption.
  - eapply invariant_begin; eassumption.
  - eapply invariant_send; eassumption.
  - eapply invariant_settle; eassumption.
  - eapply invariant_link; eassumption.
Qed.

Lemma reachable_invariant q : reachable q -> invariant q.
Proof.
  unfold reachable. revert q. apply rtc_ind_r.
  - apply invariant_q0.
  - intros y z _ Hs IH. eapply invariant_step; eassumption.
Qed.

(** At most one thunk is running. *)
Lemma invariant_one_running q c1 c2 s1 s2 :
  invariant q ->
  slots q !! c1 = Some s1 -> thunk s1 = Running ->
  slots q !! c2 = Some s2 -> thunk s2 = Running -> c1 = c2.
Proof.
  intros Hinv H1 R1 H2 R2.
  destruct (Nat.lt_trichotomy c1 c2) as [Hlt|[->|Hgt]]; [|reflexivity|].
  - destruct (inv_order _ _ Hinv c2 s2 H2 ltac:(congruence) c1 Hlt)
      as (sp & o & ? & ?). congruence.
  - destruct (inv_order _ _ Hinv c1 s1 H1 ltac:(congruence) c2 Hgt)
      as (sp & o & ? & ?). congruence.
Qed.

End QueueFacts.

(** ** Request serialization queue: main results *)

(** Inside the thunks: in every state the queue can reach, however calls
    of [enqueue] and backend requests interleave, calls are numbered in
    the order of their [enqueue]; at most one thunk is running; the
    backend requests that thunks await (submission, stream-open, idle
    probes) appear in the order of submission of their calls, and between
    the requests of two different calls the earlier call has settled; a
    thunk begins only after every earlier thunk has settled; and every
    request is sent by a thunk that has begun and not yet settled. *)
Lemma chain_fifo_no_overlap (T : Type) (q : qstate T) :
  reachable q ->
  filter (fun e => is_enqueued e = true) (trace q)
    = map Enqueued (seq 0 (length (slots q)))
  ∧ (∀ c1 c2 s1 s2,
       slots q !! c1 = Some s1 -> thunk s1 = Running ->
       slots q !! c2 = Some s2 -> thunk s2 = Running -> c1 = c2)
  ∧ (∀ i j c1 c2 r1 r2, i < j ->
       trace q !! i = Some (Sent c1 r1) -> trace q !! j = Some (Sent c2 r2) ->
       c1 <= c2
       ∧ (c1 < c2 ->
          ∃ k o, i < k < j ∧ trace q !! k = Some (Settled c1 o)))
  ∧ (∀ j c2, trace q !! j = Some (Began c2) ->
       ∀ c1, c1 < c2 ->
       ∃ k o, k < j ∧ trace q !! k = Some (Settled c1 o))
  ∧ (∀ i c r, trace q !! i = Some (Sent c r) ->
       (∃ b, b < i ∧ trace q !! b = Some (Began c))
       ∧ ∀ k o, trace q !! k = Some (Settled c o) -> i < k).
Proof.
  intros Hr. pose proof (reachable_invariant T q Hr) as Hinv.
  split; [apply (inv_enqueued _ _ Hinv)|].
  split; [intros; eapply invariant_one_running; eassumption|].
  split; [apply (inv_fifo _ _ Hinv)|].
  split; [apply (inv_begin _ _ Hinv)|].
  intros i c r Hi.
  destruct (inv_sent _ _ Hinv _ _ _ Hi) as (s & b & Hs & _ & Hb & Hbe).
  split; [eauto|].
  intros k o Hk.
  destruct (inv_settled _ _ Hinv _ _ _ Hk) as (s' & Hs' & Hd).
  destruct (inv_done _ _ Hinv _ _ _ Hs' Hd) as (k' & Hk' & Hafter).
  rewrite (inv_settled_once _ _ Hinv _ _ _ _ _ Hk Hk'). eauto.
Qed.

Lemma two_calls_reachable : reachable two_calls.
Proof.
  unfold reachable.
  eapply rtc_r; [eapply rtc_r; [eapply rtc_r; [eapply rtc_r; [eapply rtc_r;
    [eapply rtc_r; [eapply rtc_r; [eapply rtc_r; [eapply rtc_r;
    [eapply rtc_r; [apply rtc_refl|]|]|]|]|]|]|]|]|]|].
  - exact (step_enqueue q0).
  - exact (step_enqueue (mkQ [mkSlot Waiting false] [Enqueued 0])).
  - exact (step_begin
             (mkQ [mkSlot Waiting false; mkSlot Waiting false]
                  [Enqueued 0; Enqueued 1])
             0 (mkSlot Waiting false) eq_refl eq_refl I).
  - exact (step_send
             (mkQ [mkSlot Running false; mkSlot Waiting false]
                  [Enqueued 0; Enqueued 1; Began 0])
             0 (mkSlot Running false) (SetChatMessage (lit "a")) eq_refl eq_refl).
  - exact (step_send
             (mkQ [mkSlot Running false; mkSlot Waiting false]
                  [Enqueued 0; Enqueued 1; Began 0;
                   Sent 0 (SetChatMessage (lit "a"))])
             0 (mkSlot Running false) StreamChat eq_refl eq_refl).
  - exact (step_settle
             (mkQ [mkSlot Running false; mkSlot Waiting false]
                  [Enqueued 0; Enqueued 1; Began 0;
                   Sent 0 (SetChatMessage (lit "a")); Sent 0 StreamChat])
             0 (mkSlot Running false) (Fulfilled tt) eq_refl eq_refl).
  - exact (step_link
             (mkQ [mkSlot (Done (Fulfilled tt)) false; mkSlot Waiting false]
                  [Enqueued 0; Enqueued 1; Began 0;
                   Sent 0 (SetChatMessage (lit "a")); Sent 0 StreamChat;
                   Settled 0 (Fulfilled tt)])
             0 (mkSlot (Done (Fulfilled tt)) false) (Fulfilled tt)
             eq_refl eq_refl).
  - refine (step_begin
             (mkQ [mkSlot (Done (Fulfilled tt)) true; mkSlot Waiting false]
                  [Enqueued 0; Enqueued 1; Began 0;
                   Sent 0 (SetChatMessage (lit "a")); Sent 0 StreamChat;
                   Settled 0 (Fulfilled tt)])
             1 (mkSlot Waiting false) eq_refl eq_refl _).
    exists (mkSlot (Done (Fulfilled tt)) true). split; reflexivity.
  - exact (step_send
             (mkQ [mkSlot (Done (Fulfilled tt)) true; mkSlot Running false]
                  [Enqueued 0; Enqueued 1; Began 0;
                   Sent 0 (SetChatMessage (lit "a")); Sent 0 StreamChat;
                   Settled 0 (Fulfilled tt); Began 1])
             1 (mkSlot Running false) (SetChatMessage (lit "b")) eq_refl eq_refl).
  - exact (step_settle
             (mkQ [mkSlot (Done (Fulfilled tt)) true; mkSlot Running false]
                  [Enqueued 0; Enqueued 1; Began 0;
                   Sent 0 (SetChatMessage (lit "a")); Sent 0 StreamChat;
                   Settled 0 (Fulfilled tt); Began 1;
                   Sent 1 (SetChatMessage (lit "b"))])
             1 (mkSlot Running false) (Rejected (lit "boom")) eq_refl eq_refl).
Qed.

(** The two sample calls: the request of the second call (instant 7)
    comes after the settlement of the first (instant 5), which comes after
    the first call's request at instant 3. *)
Lemma chain_fifo_no_overlap_sample :
  reachable two_calls
  ∧ 0 <= 1
  ∧ (0 < 1 ->
     ∃ k o, 3 < k < 7
            ∧ trace two_calls !! k = Some (Settled 0 (o : settlement unit))).
Proof.
  split; [exact two_calls_reachable|].
  apply (proj1 (proj2 (proj2
           (chain_fifo_no_overlap unit two_calls two_calls_reachable)))
           3 7 0 1 (SetChatMessage (lit "a")) (SetChatMessage (lit "b")));
    [lia|reflexivity|reflexivity].
Qed.

(** ** The chain and the body of a streamed answer *)

Import Wire.

Lemma step_trace (T : Type) (q q' : qstate T) :
  step q q' -> ∃ new, trace q' = trace q ++ new.
Proof.
  intros H. destruct H; cbn [enqueue trace]; eauto.
  exists []. rewrite app_nil_r. reflexivity.
Qed.

Section WireFacts.

Variable streaming : nat -> bool.

(** What holds of every reachable state of the wire. *)
Definition wire_invariant (w : wstate) : Prop :=
  reachable (chain w)
  ∧ (∀ e, e ∈ trace (chain w) -> Chain e ∈ wire w)
  ∧ (∀ i c, wire w !! i = Some (Pulled c) -> streaming c = true ->
            ∃ k o, k < i ∧ wire w !! k = Some (Chain (Settled c o))).

Lemma wire_invariant_step (w w' : wstate) :
  wire_invariant w -> wstep streaming w w' -> wire_invariant w'.
Proof.
  intros (Hr & Hin & Hp) Hstep. destruct Hstep as [w q' Hs|w c s Hc Hrun Hk|w c s v Hc Hd Hk Hv].
  - destruct (step_trace _ _ _ Hs) as [new E].
    assert (Ea : added (chain w) q' = new).
    { unfold added. rewrite E. apply drop_app_length. }
    rewrite Ea. cbn [chain wire]. split; [|split].
    + eapply rtc_r; [exact Hr|exact Hs].
    + intros e He. cbn [chain] in He. rewrite E in He.
      apply elem_of_app in He as [He|He].
      * apply elem_of_app. left. auto.
      * apply elem_of_app. right. apply list_elem_of_fmap. eauto.
    + intros i c Hi Hc. apply lookup_app_Some in Hi as [Hi|[Hge Hi]].
      * destruct (Hp i c Hi Hc) as (k & o & Hlt & Hk). exists k, o.
        split; [exact Hlt|]. apply lookup_app_l_Some. exact Hk.
      * rewrite list_lookup_fmap in Hi.
        destruct (new !! (i - length (wire w))); discriminate.
  - cbn [chain wire]. split; [exact Hr|]. split.
    + intros e He. apply elem_of_app. left. auto.
    + intros i c0 Hi Hc0. apply lookup_snoc_Some in Hi as [[_ Hi]|[_ Hi]].
      * destruct (Hp i c0 Hi Hc0) as (k & o & Hlt & Hk'). exists k, o.
        split; [exact Hlt|]. apply lookup_app_l_Some. exact Hk'.
      * injection Hi as ->. congruence.
  - cbn [chain wire]. split; [exact Hr|]. split.
    + intros e He. apply elem_of_app. left. auto.
    + intros i c0 Hi Hc0. apply lookup_snoc_Some in Hi as [[_ Hi]|[Hlen Hi]].
      * destruct (Hp i c0 Hi Hc0) as (k & o & Hlt & Hk'). exists k, o.
        split; [exact Hlt|]. apply lookup_app_l_Some. exact Hk'.
      * injection Hi as ->. subst i.
        pose proof (reachable_invariant _ _ Hr) as Hinv.
        destruct (inv_done _ _ Hinv _ _ _ Hc Hd) as (k & Hk' & _).
        apply list_elem_of_lookup_2, Hin, list_elem_of_lookup_1 in Hk'.
        destruct Hk' as [k' Hk']. exists k', (Fulfilled v). split.
        -- eapply lookup_lt_Some. exact Hk'.
        -- apply lookup_app_l_Some. exact Hk'.
Qed.

Lemma wreachable_invariant (w : wstate) :
  wreachable streaming w -> wire_invariant w.
Proof.
  unfold wreachable. revert w. apply rtc_ind_r.
  - split; [apply rtc_refl|]. split.
    + intros e He. inversion He.
    + intros i c Hi. discriminate.
  - intros y z _ Hs IH. eapply wire_invariant_step; eassumption.
Qed.

End WireFacts.

Lemma overlapping_reachable : wreachable (fun _ => true) overlapping.
Proof.
  unfold wreachable, overlapping.
  eapply rtc_r; [eapply rtc_r; [eapply rtc_r; [eapply rtc_r; [eapply rtc_r;
    [eapply rtc_r; [eapply rtc_r; [eapply rtc_r; [eapply rtc_r;
    [eapply rtc_r; [apply rtc_refl|]|]|]|]|]|]|]|]|]|].
  - exact (wstep_chain _ w0 _ (step_enqueue q0)).
  - exact (wstep_chain _
             (mkW (mkQ [mkSlot Waiting false] [Enqueued 0])
                  [Chain (Enqueued 0)]) _
             (step_enqueue (mkQ [mkSlot Waiting false] [Enqueued 0]))).
  - exact (wstep_chain _
             (mkW (mkQ [mkSlot Waiting false; mkSlot Waiting false]
                       [Enqueued 0; Enqueued 1])
                  [Chain (Enqueued 0); Chain (Enqueued 1)]) _
             (step_begin
                (mkQ [mkSlot Waiting false; mkSlot Waiting false]
                     [Enqueued 0; Enqueued 1])
                0 (mkSlot Waiting false) eq_refl eq_refl I)).
  - exact (wstep_chain _
             (mkW (mkQ [mkSlot Running false; mkSlot Waiting false]
                       [Enqueued 0; Enqueued 1; Began 0])
                  [Chain (Enqueued 0); Chain (Enqueued 1); Chain (Began 0)]) _
             (step_send
                (mkQ [mkSlot Running false; mkSlot Waiting false]
                     [Enqueued 0; Enqueued 1; Began 0])
                0 (mkSlot Running false) (SetChatMessage first_prompt)
                eq_refl eq_refl)).
  - exact (wstep_chain _
             (mkW (mkQ [mkSlot Running false; mkSlot Waiting false]
                       [Enqueued 0; Enqueued 1; Began 0;
                        Sent 0 (SetChatMessage first_prompt)])
                  [Chain (Enqueued 0); Chain (Enqueued 1); Chain (Began 0);
                   Chain (Sent 0 (SetChatMessage first_prompt))]) _
             (step_send
                (mkQ [mkSlot Running false; mkSlot Waiting false]
                     [Enqueued 0; Enqueued 1; Began 0;
                      Sent 0 (SetChatMessage first_prompt)])
                0 (mkSlot Running false) StreamChat eq_refl eq_refl)).
  - exact (wstep_chain _
             (mkW (mkQ [mkSlot Running false; mkSlot Waiting false]
                       [Enqueued 0; Enqueued 1; Began 0;
                        Sent 0 (SetChatMessage first_prompt); Sent 0 StreamChat])
                  [Chain (Enqueued 0); Chain (Enqueued 1); Chain (Began 0);
                   Chain (Sent 0 (SetChatMessage first_prompt));
                   Chain (Sent 0 StreamChat)]) _
             (step_settle
                (mkQ [mkSlot Running false; mkSlot Waiting false]
                     [Enqueued 0; Enqueued 1; Began 0;
                      Sent 0 (SetChatMessage first_prompt); Sent 0 StreamChat])
                0 (mkSlot Running false) (Fulfilled first_response)
                eq_refl eq_refl)).
  - exact (wstep_chain _
             (mkW (mkQ [mkSlot (Done (Fulfilled first_response)) false;
                        mkSlot Waiting false]
                       [Enqueued 0; Enqueued 1; Began 0;
                        Sent 0 (SetChatMessage first_prompt); Sent 0 StreamChat;
                        Settled 0 (Fulfilled first_response)])
                  [Chain (Enqueued 0); Chain (Enqueued 1); Chain (Began 0);
                   Chain (Sent 0 (SetChatMessage first_prompt));
                   Chain (Sent 0 StreamChat);
                   Chain (Settled 0 (Fulfilled first_response))]) _
             (step_link
                (mkQ [mkSlot (Done (Fulfilled first_response)) false;
                      mkSlot Waiting false]
                     [Enqueued 0; Enqueued 1; Began 0;
                      Sent 0 (SetChatMessage first_prompt); Sent 0 StreamChat;
                      Settled 0 (Fulfilled first_response)])
                0 (mkSlot (Done (Fulfilled first_response)) false)
                (Fulfilled first_response) eq_refl eq_refl)).
  - refine (wstep_chain _
             (mkW (mkQ [mkSlot (Done (Fulfilled first_response)) true;
                        mkSlot Waiting false]
                       [Enqueued 0; Enqueued 1; Began 0;
                        Sent 0 (SetChatMessage first_prompt); Sent 0 StreamChat;
                        Settled 0 (Fulfilled first_response)])
                  [Chain (Enqueued 0); Chain (Enqueued 1); Chain (Began 0);
                   Chain (Sent 0 (SetChatMessage first_prompt));
                   Chain (Sent 0 StreamChat);
                   Chain (Settled 0 (Fulfilled first_response))]) _
             (step_begin
                (mkQ [mkSlot (Done (Fulfilled first_response)) true;
                      mkSlot Waiting false]
                     [Enqueued 0; Enqueued 1; Began 0;
                      Sent 0 (SetChatMessage first_prompt); Sent 0 StreamChat;
                      Settled 0 (Fulfilled first_response)])
                1 (mkSlot Waiting false) eq_refl eq_refl _)).
    exists (mkSlot (Done (Fulfilled first_response)) true). split; reflexivity.
  - exact (wstep_chain _
             (mkW (mkQ [mkSlot (Done (Fulfilled first_response)) true;
                        mkSlot Running false]
                       [Enqueued 0; Enqueued 1; Began 0;
                        Sent 0 (SetChatMessage first_prompt); Sent 0 StreamChat;
                        Settled 0 (Fulfilled first_response); Began 1])
                  [Chain (Enqueued 0); Chain (Enqueued 1); Chain (Began 0);
                   Chain (Sent 0 (SetChatMessage first_prompt));
                   Chain (Sent 0 StreamChat);
                   Chain (Settled 0 (Fulfilled first_response));
                   Chain (Began 1)]) _
             (step_send
                (mkQ [mkSlot (Done (Fulfilled first_response)) true;
                      mkSlot Running false]
                     [Enqueued 0; Enqueued 1; Began 0;
                      Sent 0 (SetChatMessage first_prompt); Sent 0 StreamChat;
                      Settled 0 (Fulfilled first_response); Began 1])
                1 (mkSlot Running false) (SetChatMessage second_prompt)
                eq_refl eq_refl)).
  - exact (wstep_pull _
             (mkW (mkQ [mkSlot (Done (Fulfilled first_response)) true;
                        mkSlot Running false]
                       [Enqueued 0; Enqueued 1; Began 0;
                        Sent 0 (SetChatMessage first_prompt); Sent 0 StreamChat;
                        Settled 0 (Fulfilled first_response); Began 1;
                        Sent 1 (SetChatMessage second_prompt)])
                  [Chain (Enqueued 0); Chain (Enqueued 1); Chain (Began 0);
                   Chain (Sent 0 (SetChatMessage first_prompt));
                   Chain (Sent 0 StreamChat);
                   Chain (Settled 0 (Fulfilled first_response));
                   Chain (Began 1);
                   Chain (Sent 1 (SetChatMessage second_prompt))])
             0 (mkSlot (Done (Fulfilled first_response)) true) first_response
             eq_refl eq_refl eq_refl eq_refl).
Qed.

(** C1, where the code departs from it: the thunk of a streaming call
    settles when the handler returns the piped stream, of which nothing
    has been read.  On the sample backend the first call submits its
    prompt, opens the stream and resolves with the event stream; in every
    run the body of a streaming call is pulled only after its thunk has
    settled; and there is a run of two streaming calls in which the second
    call submits its prompt (instant 7) after the first call's stream-open
    (instant 4) and before a read of the first call's body (instant 8):
    the two cycles overlap on the backend. *)
Theorem C1_stream_outlives_thunk :
  (∃ w1,
     handleStreamingCompletion hello_backend (lit "c0") first_prompt (JStr "m")
       world0 = (Ret first_response, w1)
     ∧ log w1 = [SetChatMessage first_prompt; StreamChat])
  ∧ streams first_response = true
  ∧ (∀ streaming w i c,
       wreachable streaming w -> streaming c = true ->
       wire w !! i = Some (Pulled c) ->
       ∃ k o, k < i ∧ wire w !! k = Some (Chain (Settled c o)))
  ∧ wreachable (fun _ => true) overlapping
  ∧ wire overlapping !! 4 = Some (Chain (Sent 0 StreamChat))
  ∧ wire overlapping !! 5 = Some (Chain (Settled 0 (Fulfilled first_response)))
  ∧ wire overlapping !! 7 = Some (Chain (Sent 1 (SetChatMessage second_prompt)))
  ∧ wire overlapping !! 8 = Some (Pulled 0).
Proof.
  split.
  { eexists. split; vm_compute; reflexivity. }
  split; [reflexivity|]. split.
  { intros streaming w i c Hw Hc Hi.
    destruct (wreachable_invariant streaming w Hw) as (_ & _ & Hp). eauto. }
  split; [exact overlapping_reachable|].
  repeat split.
Qed.

(** ** Backend session driver: main results *)

Lemma sendAndStream_from_log (be : backend) (prompt : jsstring)
    (m left attempt : nat) (w : world) :
  ∃ l, log (snd (sendAndStream_from be prompt m left attempt w)) = log w ++ l.
Proof.
  revert attempt w. induction left as [|left IH]; intros attempt w.
  - exists []. cbn. rewrite app_nil_r. reflexivity.
  - destruct (sendAndStream_from_step be prompt m left attempt w)
      as (w1 & w2 & _ & P1 & _ & P2 & ->).
    destruct P1 as (_ & _ & _ & k1 & L1 & _).
    destruct P2 as (_ & _ & _ & k2 & L2 & _).
    cbn [after_set log] in L2.
    assert (Hs : ∃ l, log (after_stream be (after_set be prompt w1)) = log w ++ l).
    { cbn [after_stream after_set log]. rewrite L1, <- !app_assoc. eauto. }
    destruct (accepts (set_chat_message be (n_set w1))).
    + destruct (result (stream_chat be (n_stream w1))) as [e|r]; [exact Hs|].
      destruct (ok r); [exact Hs|].
      destruct (status r =? 409)%Z; [|exact Hs].
      destruct Hs as (l & Hl).
      destruct (IH (S attempt) (after_stream be (after_set be prompt w1)))
        as (l' & ->).
      rewrite Hl, <- app_assoc. eauto.
    + destruct (attempt <? m - 1)%nat.
      * destruct (IH (S attempt) w2) as (l' & ->).
        rewrite L2, L1, <- !app_assoc. eauto.
      * cbn [snd after_set log]. rewrite L1, <- app_assoc. eauto.
Qed.

(** C6, as the code has it: when the stream-open of an attempt that is
    not the last is answered busy (409), the agent is idle at the next
    probe and the backend accepts the re-submission, the requests from that
    attempt's submission on are: the submission, the busy stream-open, the
    one probe, one re-submission of the same prompt and the next
    stream-open; when that stream-open succeeds the call returns its
    response and has sent nothing else. *)
Theorem C6_resubmit_once (be : backend) (prompt : jsstring)
    (maxRetries left attempt : nat) (w : world) :
  let w1 := top_wait be attempt w in
  let run := sendAndStream_from be prompt maxRetries (S (S left)) attempt w in
  accepts (set_chat_message be (n_set w1)) = true ->
  busy (stream_chat be (n_stream w1)) = true ->
  (elapsed (sessions_create be (n_probe w1)) <=? 5000)%N = true ->
  accepts (sessions_create be (n_probe w1)) = true ->
  accepts (set_chat_message be (S (n_set w1))) = true ->
  ∃ rest,
    log (snd run)
    = log w1 ++ [ SetChatMessage prompt; StreamChat; SessionsCreate;
                  SetChatMessage prompt; StreamChat ] ++ rest
    ∧ ∀ r, result (stream_chat be (S (n_stream w1))) = Resolves r ->
           ok r = true -> fst run = Ret r ∧ rest = [].
Proof.
  cbn zeta. intros Hset0 Hbusy Hfast Hidle Hset1.
  destruct (sendAndStream_from_step be prompt maxRetries (S left) attempt w)
    as (w1 & w2 & E1 & _ & _ & _ & ->).
  assert (Hw1 : top_wait be attempt w = w1).
  { unfold top_wait. destruct (0 <? attempt)%nat; [rewrite E1|]; auto. }
  rewrite Hw1 in *. clear E1 Hw1. rewrite Hset0.
  unfold busy in Hbusy.
  destruct (result (stream_chat be (n_stream w1))) as [e|r0]; [discriminate|].
  unfold ok. apply Z.eqb_eq in Hbusy. rewrite Hbusy.
  cbn [Z.leb Z.compare Pos.compare Pos.compare_cont andb Z.eqb Pos.eqb].
  set (wA := after_stream be (after_set be prompt w1)).
  destruct (sendAndStream_from_step be prompt maxRetries left (S attempt) wA)
    as (w1' & w3 & E1 & _ & _ & _ & ->).
  cbn [Nat.ltb Nat.leb] in E1.
  rewrite (waitForAgentIdle_idle be 30000 wA) in E1 by (try lia; assumption).
  injection E1 as <-.
  change (n_set (after_probe be wA)) with (S (n_set w1)).
  change (n_stream (after_probe be wA)) with (S (n_stream w1)).
  rewrite Hset1.
  set (wB := after_stream be (after_set be prompt (after_probe be wA))).
  assert (HB : log wB = log w1 ++ [ SetChatMessage prompt; StreamChat; SessionsCreate;
                                    SetChatMessage prompt; StreamChat ]).
  { subst wB wA. cbn [after_stream after_set after_probe log].
    rewrite <- !app_assoc. reflexivity. }
  destruct (result (stream_chat be (S (n_stream w1)))) as [e|r] eqn:Er.
  - exists []. cbn [snd fst]. rewrite HB. split; [reflexivity|]. discriminate.
  - fold (ok r). destruct (ok r) eqn:Eok.
    + exists []. cbn [snd fst]. rewrite HB. split; [reflexivity|].
      intros r' Hr' _. injection Hr' as <-. auto.
    + assert (Hno : ∀ r', Resolves r = Resolves r' -> ok r' = true -> False).
      { intros r' Hr' Ho. injection Hr' as <-. congruence. }
      destruct (status r =? 409)%Z.
      * destruct (sendAndStream_from_log be prompt maxRetries left
                    (S (S attempt)) wB) as (l & ->).
        exists l. rewrite HB, <- app_assoc. split; [reflexivity|].
        intros r' Hr' Ho. destruct (Hno r' Hr' Ho).
      * exists []. cbn [snd fst]. rewrite HB. split; [reflexivity|].
        intros r' Hr' Ho. destruct (Hno r' Hr' Ho).
Qed.

(** Busy once, then a stream: one re-submission. *)
Lemma C6_resubmit_once_witness :
  ∃ rest,
    log (snd (sendAndStream busy_once_backend (lit "hi") 4 world0))
    = log world0 ++ [ SetChatMessage (lit "hi"); StreamChat; SessionsCreate;
                      SetChatMessage (lit "hi"); StreamChat ] ++ rest
    ∧ ∀ r, result (stream_chat busy_once_backend (S (n_stream world0))) = Resolves r ->
           ok r = true ->
           fst (sendAndStream busy_once_backend (lit "hi") 4 world0) = Ret r
           ∧ rest = [].
Proof.
  apply (C6_resubmit_once busy_once_backend (lit "hi") 4 2 0 world0);
    vm_compute; reflexivity.
Defined.

(** C6, counterexample: the stream-open is answered busy and the agent is
    idle at the next probe, but the backend refuses the re-submission once;
    the prompt is then submitted twice before the next stream-open. *)
Lemma C6_counterexample :
  busy (stream_chat refusing_backend 0) = true
  ∧ accepts (sessions_create refusing_backend 0) = true
  ∧ log (snd (sendAndStream refusing_backend (lit "hi") 4 world0))
    = [ SetChatMessage (lit "hi"); StreamChat;
        SessionsCreate;
        SetChatMessage (lit "hi");
        SessionsCreate; SessionsCreate;
        SetChatMessage (lit "hi"); StreamChat ].
Proof. repeat split; vm_compute; reflexivity. Qed.

(** C7: whichever stream-open of a call is answered with a status that is
    neither a success nor 409, [sendAndStream] returns that response: it is
    the last stream-open and the last request of the call; every handler
    then answers with one 502 response of type [proxy_error] naming the
    status. *)
Theorem C7_hard_failure_not_retried (be : backend) (prompt : jsstring)
    (maxRetries : nat) (w : world) (k : nat) (resp : Response) :
  let run := sendAndStream be prompt maxRetries w in
  n_stream w <= k < n_stream (snd run) ->
  result (stream_chat be k) = Resolves resp ->
  ok resp = false -> status resp ≠ 409%Z ->
  fst run = Ret resp
  ∧ n_stream (snd run) = S k
  ∧ (∃ l, log (snd run) = l ++ [StreamChat])
  ∧ (maxRetries = 4 ->
     (∀ needBody,
        openTurn be needBody prompt w
        = (Ret (inl (proxy_error (returned resp))), snd run))
     ∧ (∀ chatId model,
          fst (handleStreamingCompletion be chatId prompt model w)
          = Ret (proxy_error (returned resp)))
     ∧ (∀ chatId model,
          fst (handleNonStreamingCompletion be chatId prompt model w)
          = Ret (proxy_error (returned resp)))
     ∧ (∀ respId itemId created_at model,
          fst (handleStreamingResponsesViaCompletions be respId itemId
                 created_at prompt model w)
          = Ret (proxy_error (returned resp)))
     ∧ (∀ respId itemId model,
          fst (handleNonStreamingResponsesViaCompletions be respId itemId
                 prompt model w)
          = Ret (proxy_error (returned resp)))).
Proof.
  cbn zeta. intros Hk Hr Hok Hst.
  destruct (sendAndStream_from_hard_failure be prompt maxRetries maxRetries 0
              w k resp Hk Hr Hok Hst) as (H1 & H2 & H3).
  fold (sendAndStream be prompt maxRetries) in H1, H2, H3.
  repeat (split; [assumption|]).
  intros ->.
  assert (Hopen : ∀ needBody,
            openTurn be needBody prompt w
            = (Ret (inl (proxy_error (returned resp))),
               snd (sendAndStream be prompt 4 w))).
  { intros needBody. rewrite openTurn_run.
    destruct (sendAndStream be prompt 4 w) as [res w']. cbn [fst snd] in *.
    subst res. rewrite Hok. reflexivity. }
  split; [exact Hopen|].
  repeat split; intros;
    unfold handleStreamingCompletion, handleNonStreamingCompletion,
      handleStreamingResponsesViaCompletions,
      handleNonStreamingResponsesViaCompletions;
    rewrite ?bind_run; cbn [now]; rewrite ?bind_run, Hopen; reflexivity.
Qed.

(** A stream-open answered 500 at the first attempt. *)
Lemma C7_hard_failure_not_retried_witness :
  fst (sendAndStream failing_backend (lit "hi") 4 world0)
    = Ret (mkResponse 500 None)
  ∧ log (snd (sendAndStream failing_backend (lit "hi") 4 world0))
    = [SetChatMessage (lit "hi"); StreamChat]
  ∧ fst (handleStreamingCompletion failing_backend (lit "c") (lit "hi")
           (JStr "m") world0)
    = Ret (JsonResponse 502
             (JObject [ (lit "error",
                         JObject [ (lit "message",
                                     JStr "Rovo Dev stream_chat returned 500");
                                   (lit "type", JStr "proxy_error") ]) ])).
Proof.
  destruct (C7_hard_failure_not_retried failing_backend (lit "hi") 4 world0 0
              (mkResponse 500 None)) as (H1 & _ & _ & H4).
  - vm_compute. lia.
  - reflexivity.
  - reflexivity.
  - discriminate.
  - split; [exact H1|]. split; [vm_compute; reflexivity|].
    destruct (H4 eq_refl) as (_ & H5 & _).
    rewrite H5. vm_compute. reflexivity.
Defined.

(** ** The queue after a failure *)

Section QueueProgress.

Variable T : Type.
Implicit Types (q : qstate T) (s : slot T) (o : settlement T).



End QueueProgress.




(* ===================================================================== *)
(** * Further properties of the driver                                     *)
(* ===================================================================== *)

Import Prompt Plugin Unused Shape Turns.

Section DriverBounds.

Variable be : backend.

Lemma probe_once_time (w : world) :
  ∃ b w', try_catch (resp ← fetch_sessions_create be; ret (ok resp))
                    (fun _ => ret false) w = (Ret b, w')
          ∧ n_set w' = n_set w ∧ n_stream w' = n_stream w
          ∧ (clock w <= clock w' <= clock w + 5000)%Z
          ∧ log w' = log w ++ [SessionsCreate].
Proof.
  unfold try_catch. rewrite bind_run. unfold fetch_sessions_create, settle.
  destruct (N.ltb_spec 5000 (elapsed (sessions_create be (n_probe w)))) as [E|E].
  - eexists _, _. split; [reflexivity|]. cbn. repeat split; lia.
  - destruct (result (sessions_create be (n_probe w))) as [e|r];
      eexists _, _; (split; [reflexivity|]); cbn; repeat split; lia.
Qed.

(** The loop of [waitForAgentIdle]: [k] probes, the last of them sent
    before [maxWaitMs] had passed since [start]. *)
Lemma waitLoop_bounded (polls : nat) (start maxWaitMs : Z) (w : world) :
  ∃ b w' k,
    waitLoop be polls start maxWaitMs w = (Ret b, w')
    ∧ n_set w' = n_set w ∧ n_stream w' = n_stream w
    ∧ log w' = log w ++ replicate k SessionsCreate
    ∧ (k = 0 ∧ w' = w
       ∨ 0 < k
         ∧ (clock w - start + interval * (Z.of_nat k - 1) < maxWaitMs)%Z
         ∧ (clock w <= clock w' < start + maxWaitMs + 6500)%Z).
Proof.
  revert w. induction polls as [|polls IH]; intros w.
  - exists false, w, 0. cbn. rewrite app_nil_r.
    repeat (split; [reflexivity|]). left. auto.
  - cbn [waitLoop]. rewrite bind_run. cbn [now].
    destruct (Z.ltb_spec (clock w - start) maxWaitMs) as [Ht|Ht].
    + rewrite bind_run.
      destruct (probe_once_time w) as (b & w1 & -> & P1 & P2 & P3 & P4).
      destruct b.
      * exists true, w1, 1. split; [reflexivity|]. repeat split; auto.
        right. unfold interval. lia.
      * rewrite bind_run. cbn [sleep].
        destruct (IH (tick interval w1)) as (b & w2 & k & -> & Q1 & Q2 & Q3 & Q4).
        exists b, w2, (S k). split; [reflexivity|].
        cbn [tick n_set n_stream log clock] in *.
        repeat split; try congruence.
        { rewrite Q3, P4, <- app_assoc. reflexivity. }
        right. unfold interval in *.
        destruct Q4 as [[-> ->]|(K1 & K2 & K3)]; cbn [clock tick]; lia.
    + exists false, w, 0. cbn. rewrite app_nil_r.
      repeat (split; [reflexivity|]). left. auto.
Qed.

(** The requests of [sendAndStream], attempt by attempt. *)
Lemma sendAndStream_from_attempts (prompt : jsstring) (m left attempt : nat)
    (w : world) :
  let w' := snd (sendAndStream_from be prompt m left attempt w) in
  ∃ attempts : list bool,
    length attempts <= left
    ∧ turns (log w') = turns (log w) ++ attempts_requests prompt attempts
    ∧ n_set w' = n_set w + length attempts
    ∧ n_stream w' = n_stream w + length (filter (fun b => b = true) attempts).
Proof.
  cbn zeta. revert attempt w. induction left as [|left IH]; intros attempt w.
  - exists []. cbn. rewrite app_nil_r. repeat split; lia.
  - destruct (sendAndStream_from_step be prompt m left attempt w)
      as (w1 & w2 & _ & P1 & _ & P2 & ->).
    pose proof (only_probes_turns _ _ P1) as T1.
    pose proof (only_probes_turns _ _ P2) as T2.
    destruct P1 as (S1 & S2 & _). destruct P2 as (S3 & S4 & _).
    cbn [after_set n_set n_stream log] in *.
    rewrite turns_app in T2.
    assert (Hone : ∀ w3, w3 = after_stream be (after_set be prompt w1) ->
              ∃ attempts : list bool,
                length attempts <= S left
                ∧ turns (log w3) = turns (log w) ++ attempts_requests prompt attempts
                ∧ n_set w3 = n_set w + length attempts
                ∧ n_stream w3
                  = n_stream w + length (filter (fun b => b = true) attempts)).
    { intros w3 ->. exists [true]. cbn [after_stream after_set n_set n_stream log].
      rewrite !turns_app, T1, <- app_assoc.
      rewrite filter_cons_True by reflexivity.
      repeat split; try (cbn; lia); reflexivity. }
    destruct (accepts (set_chat_message be (n_set w1))).
    + destruct (result (stream_chat be (n_stream w1))) as [e|r];
        [apply Hone; reflexivity|].
      destruct (ok r); [apply Hone; reflexivity|].
      destruct (status r =? 409)%Z; [|apply Hone; reflexivity].
      destruct (IH (S attempt) (after_stream be (after_set be prompt w1)))
        as (bs & L & T & N1 & N2).
      exists (true :: bs). cbn [after_stream after_set n_set n_stream log] in *.
      rewrite T, !turns_app, T1, <- !app_assoc.
      rewrite filter_cons_True by reflexivity. cbn [length].
      repeat split; lia.
    + destruct (attempt <? m - 1)%nat.
      * destruct (IH (S attempt) w2) as (bs & L & T & N1 & N2).
        exists (false :: bs). rewrite T, T2, T1, <- !app_assoc.
        rewrite filter_cons_False by discriminate. cbn [length].
        repeat split; lia.
      * exists [false]. cbn [snd after_set n_set n_stream log].
        rewrite turns_app, T1, filter_cons_False by discriminate.
        repeat split; try (cbn; lia); reflexivity.
Qed.

(** What [sendAndStream] returns is the answer to its last request, a
    stream-open, and that answer is not the busy status. *)
Lemma sendAndStream_from_returned (prompt : jsstring) (m left attempt : nat)
    (w : world) (resp : Response) :
  let run := sendAndStream_from be prompt m left attempt w in
  fst run = Ret resp ->
  status resp ≠ 409%Z
  ∧ n_stream w < n_stream (snd run)
  ∧ result (stream_chat be (n_stream (snd run) - 1)) = Resolves resp
  ∧ ∃ l, log (snd run) = l ++ [StreamChat].
Proof.
  cbn zeta. revert attempt w. induction left as [|left IH]; intros attempt w.
  - cbn. discriminate.
  - destruct (sendAndStream_from_step be prompt m left attempt w)
      as (w1 & w2 & _ & P1 & _ & P2 & ->).
    destruct P1 as (_ & S2 & _). destruct P2 as (_ & S4 & _).
    cbn [after_set n_stream] in S4.
    assert (Hone : ∀ r, result (stream_chat be (n_stream w1)) = Resolves r ->
              status r ≠ 409%Z -> Ret r = Ret resp ->
              status resp ≠ 409%Z
              ∧ n_stream w < n_stream (after_stream be (after_set be prompt w1))
              ∧ result (stream_chat be
                          (n_stream (after_stream be (after_set be prompt w1)) - 1))
                = Resolves resp
              ∧ ∃ l, log (after_stream be (after_set be prompt w1))
                     = l ++ [StreamChat]).
    { intros r Hr Hs [= <-]. cbn [after_stream after_set n_stream log].
      replace (S (n_stream w1) - 1) with (n_stream w1) by lia.
      repeat split; auto; try lia. eauto. }
    destruct (accepts (set_chat_message be (n_set w1))).
    + destruct (result (stream_chat be (n_stream w1))) as [e|r] eqn:Er;
        [discriminate|].
      destruct (ok r) eqn:Eok.
      * cbn [fst snd]. apply Hone; [reflexivity|].
        unfold ok in Eok. intros E. rewrite E in Eok. discriminate.
      * destruct (Z.eqb_spec (status r) 409) as [E409|E409].
        -- intros H. destruct (IH _ _ H) as (A1 & A2 & A3 & A4).
           cbn [after_stream after_set n_stream] in A2.
           repeat split; auto. lia.
        -- cbn [fst snd]. apply Hone; [reflexivity|exact E409].
    + destruct (attempt <? m - 1)%nat.
      * intros H. destruct (IH _ _ H) as (A1 & A2 & A3 & A4).
        repeat split; auto. lia.
      * cbn. discriminate.
Qed.

(** With every submission refused, the loop ends at the attempt numbered
    [maxRetries - 1] without a stream-open. *)
Lemma sendAndStream_from_all_refused (prompt : jsstring) (m left attempt : nat)
    (w : world) :
  0 < left -> attempt + left = m ->
  (∀ k, k < left -> accepts (set_chat_message be (n_set w + k)) = false) ->
  ∃ w', sendAndStream_from be prompt m left attempt w
        = (Throw unreachable_message, w')
        ∧ turns (log w')
          = turns (log w) ++ replicate left (SetChatMessage prompt)
        ∧ n_stream w' = n_stream w.
Proof.
  revert attempt w. induction left as [|left IH]; intros attempt w Hpos Hm Hset;
    [lia|].
  destruct (sendAndStream_from_step be prompt m left attempt w)
    as (w1 & w2 & _ & P1 & _ & P2 & ->).
  pose proof (only_probes_turns _ _ P1) as T1.
  pose proof (only_probes_turns _ _ P2) as T2.
  destruct P1 as (S1 & S2 & _). destruct P2 as (S3 & S4 & _).
  cbn [after_set n_set n_stream log] in *. rewrite turns_app in T2.
  pose proof (Hset 0 ltac:(lia)) as H0. rewrite Nat.add_0_r, <- S1 in H0.
  rewrite H0.
  destruct (Nat.ltb_spec attempt (m - 1)) as [Hlt|Hge].
  - destruct (IH (S attempt) w2) as (w' & -> & T & N); [lia|lia| |].
    + intros k Hk. rewrite S3, S1.
      replace (S (n_set w) + k) with (n_set w + S k) by lia. apply Hset. lia.
    + exists w'. split; [reflexivity|]. rewrite T, T2, T1, <- app_assoc.
      split; [reflexivity|]. lia.
  - assert (left = 0) by lia. subst left.
    eexists. split; [reflexivity|]. cbn [after_set log n_stream].
    rewrite turns_app, T1. split; [reflexivity|]. lia.
Qed.

End DriverBounds.

(** X1: [waitForAgentIdle] always returns; it sends idle probes only, at
    most one for every 1.5 s of [maxWaitMs] (rounded up), and returns less
    than [maxWaitMs] + 6.5 s after it was called. *)
Theorem waitForAgentIdle_bounded (be : backend) (maxWaitMs : Z) (w : world) :
  ∃ w' k,
    waitForAgentIdle be maxWaitMs w = (Ret tt, w')
    ∧ log w' = log w ++ replicate k SessionsCreate
    ∧ n_set w' = n_set w ∧ n_stream w' = n_stream w
    ∧ (k = 0 ∧ w' = w
       ∨ 0 < k ∧ (1500 * (Z.of_nat k - 1) < maxWaitMs)%Z
         ∧ (clock w <= clock w' < clock w + maxWaitMs + 6500)%Z).
Proof.
  unfold waitForAgentIdle. rewrite bind_run. cbn [now]. rewrite bind_run.
  destruct (waitLoop_bounded be (S (Z.to_nat (maxWaitMs / interval))) (clock w)
              maxWaitMs w) as (b & w' & k & -> & N1 & N2 & L & B).
  exists w', k. split; [reflexivity|]. repeat split; auto.
  unfold interval in B. destruct B as [B|(B1 & B2 & B3)]; [auto|right].
  repeat split; lia.
Qed.

(** X2: the requests of one [sendAndStream], idle probes set aside, are a
    sequence of at most [maxRetries] attempts; each attempt is a submission
    of the same prompt, followed by a stream-open or by nothing.  So the
    stream is never opened without a submission directly before it. *)
Theorem sendAndStream_attempts (be : backend) (prompt : jsstring)
    (maxRetries : nat) (w : world) :
  let w' := snd (sendAndStream be prompt maxRetries w) in
  ∃ attempts : list bool,
    length attempts <= maxRetries
    ∧ turns (log w') = turns (log w) ++ attempts_requests prompt attempts
    ∧ n_set w' = n_set w + length attempts
    ∧ n_stream w' = n_stream w + length (filter (fun b => b = true) attempts).
Proof.
  unfold sendAndStream.
  exact (sendAndStream_from_attempts be prompt maxRetries maxRetries 0 w).
Qed.

(** X3: a response that [sendAndStream] returns is the answer to the
    stream-open it sent last, which is its last request, and its status is
    never 409. *)
Theorem sendAndStream_returned (be : backend) (prompt : jsstring)
    (maxRetries : nat) (w : world) (resp : Response) :
  let run := sendAndStream be prompt maxRetries w in
  fst run = Ret resp ->
  status resp ≠ 409%Z
  ∧ n_stream w < n_stream (snd run)
  ∧ result (stream_chat be (n_stream (snd run) - 1)) = Resolves resp
  ∧ ∃ l, log (snd run) = l ++ [StreamChat].
Proof.
  unfold sendAndStream.
  exact (sendAndStream_from_returned be prompt maxRetries maxRetries 0 w resp).
Qed.

Lemma sendAndStream_returned_witness :
  fst (sendAndStream hello_backend (lit "hi") 4 world0)
  = Ret (mkResponse 200 (Some [hello_body]))
  ∧ status (mkResponse 200 (Some [hello_body])) ≠ 409%Z.
Proof.
  assert (H : fst (sendAndStream hello_backend (lit "hi") 4 world0)
              = Ret (mkResponse 200 (Some [hello_body])))
    by (vm_compute; reflexivity).
  split; [exact H|].
  exact (proj1 (sendAndStream_returned hello_backend (lit "hi") 4 world0 _ H)).
Defined.

(** X4: when the backend refuses the submission at every attempt,
    [sendAndStream] throws "Failed to send message to Rovo Dev after
    retries" after [maxRetries] submissions and without a stream-open. *)
Theorem sendAndStream_all_refused (be : backend) (prompt : jsstring)
    (maxRetries : nat) (w : world) :
  0 < maxRetries ->
  (∀ k, k < maxRetries -> accepts (set_chat_message be (n_set w + k)) = false) ->
  ∃ w', sendAndStream be prompt maxRetries w = (Throw unreachable_message, w')
        ∧ turns (log w')
          = turns (log w) ++ replicate maxRetries (SetChatMessage prompt)
        ∧ n_stream w' = n_stream w.
Proof.
  intros Hpos Hset. unfold sendAndStream.
  apply (sendAndStream_from_all_refused be prompt maxRetries maxRetries 0 w);
    auto.
Qed.

Lemma sendAndStream_all_refused_witness :
  ∃ w', sendAndStream refusing_all_backend (lit "hi") 4 world0
        = (Throw unreachable_message, w')
        ∧ turns (log w')
          = turns (log world0) ++ replicate 4 (SetChatMessage (lit "hi"))
        ∧ n_stream w' = n_stream world0.
Proof.
  apply sendAndStream_all_refused; [lia|]. intros k _. reflexivity.
Defined.



(** X6: [streamChatWithRetry] does not retry: for every [maxRetries] it
    sends exactly one stream-open and no submission, and its result is the
    answer to that request, a busy answer included. *)
Theorem streamChatWithRetry_single (be : backend) (maxRetries : nat) (w : world) :
  let run := streamChatWithRetry be maxRetries w in
  fst run = match result (stream_chat be (n_stream w)) with
            | Resolves r => Ret r
            | Rejects e => Throw e
            end
  ∧ n_stream (snd run) = S (n_stream w)
  ∧ n_set (snd run) = n_set w
  ∧ turns (log (snd run)) = turns (log w) ++ [StreamChat].
Proof.
  cbn zeta. unfold streamChatWithRetry, streamChatWithRetry_from.
  assert (Hone : turns (log (after_stream be w)) = turns (log w) ++ [StreamChat])
    by (cbn [after_stream log]; rewrite turns_app; reflexivity).
  destruct maxRetries as [|m].
  - rewrite fetch_stream_chat_run. cbn [fst snd after_stream n_stream n_set].
    auto.
  - rewrite bind_run, fetch_stream_chat_run.
    destruct (result (stream_chat be (n_stream w))) as [e|r];
      [cbn [fst snd after_stream n_stream n_set]; auto|].
    destruct (ok r); [cbn [fst snd after_stream n_stream n_set]; auto|].
    destruct ((status r =? 409)%Z && (0 <? S m - 1));
      [|cbn [fst snd after_stream n_stream n_set]; auto].
    rewrite bind_run.
    destruct (waitForAgentIdle_probes be 30000 (after_stream be w))
      as (w' & -> & P).
    pose proof (only_probes_turns _ _ P) as T.
    destruct P as (P1 & P2 & _).
    cbn [fst snd ret]. cbn [after_stream n_stream n_set] in P1, P2.
    rewrite T, Hone. auto.
Qed.

(* ===================================================================== *)
(** * Further properties of the transcoders                                *)
(* ===================================================================== *)

(** ** Chat completions: what the chunks carry *)

Section ChatContents.

Variable chatId : jsstring.
Variable timestamp : number.
Variable model : json.

Local Abbreviation processSSELine := (Proxy.processSSELine chatId timestamp model).
Local Abbreviation processSSELines := (Proxy.processSSELines chatId timestamp model).
Local Abbreviation chat_stream := (Proxy.chat_stream chatId timestamp model).
Local Abbreviation openaiChunk := (Proxy.openaiChunk chatId timestamp model).
Local Abbreviation stopChunk := (Proxy.stopChunk chatId timestamp model).

Lemma sentinel_no_text (line : jsstring) :
  is_sentinel line = true -> text_of_line line = [].
Proof.
  unfold is_sentinel, text_of_line, line_text.
  destruct (sseData line) as [s|]; [|discriminate].
  intros ->. reflexivity.
Qed.

Lemma processSSELine_contents (line : jsstring) (d : bool) :
  omap delta_content (fst (processSSELine line d)) = text_of_line line.
Proof.
  rewrite processSSELine_cases.
  destruct (is_sentinel line) eqn:Es.
  - rewrite sentinel_no_text by exact Es. destruct d; reflexivity.
  - cbn zeta. unfold text_of_line.
    destruct (truthy (line_text line));
      destruct (negb d && is_end_of_turn line); reflexivity.
Qed.

Lemma processSSELines_contents (lines : list jsstring) (d : bool) :
  omap delta_content (fst (processSSELines lines d))
  = concat (map text_of_line lines).
Proof.
  revert d. induction lines as [|l ls IH]; intros d; [reflexivity|].
  cbn [Proxy.processSSELines map concat].
  pose proof (processSSELine_contents l d) as H.
  destruct (processSSELine l d) as [o1 d1].
  specialize (IH d1). destruct (processSSELines ls d1) as [o2 d2].
  cbn [fst] in *. rewrite omap_app, H, IH. reflexivity.
Qed.

Lemma chat_stream_contents (chunks : list (list Byte.byte)) :
  omap delta_content (chat_stream chunks)
  = concat (map text_of_line
              (split_nl (fst (Utf8.decode_stream (concat chunks) Utf8.initial)))).
Proof.
  rewrite chat_stream_whole. cbn zeta.
  pose proof (processSSELines_contents
                (split_nl (fst (Utf8.decode_stream (concat chunks) Utf8.initial)))
                false) as H.
  destruct (processSSELines _ false) as [o d]. cbn [fst] in H.
  destruct d; cbn [negb]; [exact H|].
  rewrite omap_app, H. cbn. apply app_nil_r.
Qed.

Local Abbreviation has_head := (Account.has_head chatId timestamp model).

Lemma processSSELine_head (line : jsstring) (d : bool) :
  Forall has_head (fst (processSSELine line d)).
Proof.
  rewrite processSSELine_cases.
  destruct (is_sentinel line).
  - destruct d; cbn [fst]; repeat constructor.
  - cbn zeta.
    destruct (truthy (line_text line));
      destruct (negb d && is_end_of_turn line); cbn [fst app];
      repeat first [ apply Forall_nil_2
                   | apply Forall_cons_2; [first [left; reflexivity
                                                 |right; reflexivity]|] ].
Qed.

Lemma processSSELines_head (lines : list jsstring) (d : bool) :
  Forall has_head (fst (processSSELines lines d)).
Proof.
  revert d. induction lines as [|l ls IH]; intros d; [constructor|].
  cbn [Proxy.processSSELines].
  pose proof (processSSELine_head l d) as H.
  destruct (processSSELine l d) as [o1 d1].
  specialize (IH d1). destruct (processSSELines ls d1) as [o2 d2].
  cbn [fst] in *. apply Forall_app. auto.
Qed.

Lemma chat_stream_head (chunks : list (list Byte.byte)) :
  Forall has_head (chat_stream chunks).
Proof.
  rewrite chat_stream_whole. cbn zeta.
  pose proof (processSSELines_head
                (split_nl (fst (Utf8.decode_stream (concat chunks) Utf8.initial)))
                false) as H.
  destruct (processSSELines _ false) as [o d]. cbn [fst] in H.
  destruct d; cbn [negb]; [exact H|].
  apply Forall_app. split; [exact H|].
  apply Forall_cons_2; [right; reflexivity|].
  apply Forall_cons_2; [left; reflexivity|]. constructor.
Qed.

End ChatContents.

Lemma collectLine_text (line content : jsstring) :
  collectLine line content
  = content ++ concat (omap toString (text_of_line line)).
Proof.
  unfold collectLine, text_of_line, line_text, sseData.
  destruct (startsWith (trim line) (lit "data: ")); cbn [negb];
    [|cbn; rewrite app_nil_r; reflexivity].
  destruct (str_eqb (trim (slice 6 (trim line))) (lit "[DONE]"));
    [cbn; rewrite app_nil_r; reflexivity|].
  destruct (parse (trim (slice 6 (trim line)))) as [data|];
    [|cbn; rewrite app_nil_r; reflexivity].
  destruct (truthy (extractText data));
    [|cbn; rewrite app_nil_r; reflexivity].
  cbn [omap list_omap]. destruct (toString (extractText data)); cbn;
    rewrite ?app_nil_r; reflexivity.
Qed.

Lemma collect_lines (lines : list jsstring) (content : jsstring) :
  fold_left (fun content line => collectLine line content) lines content
  = content ++ concat (omap toString (concat (map text_of_line lines))).
Proof.
  revert content. induction lines as [|l ls IH]; intros content.
  - cbn. rewrite app_nil_r. reflexivity.
  - cbn [fold_left map concat]. rewrite IH, collectLine_text.
    rewrite omap_app, concat_app, app_assoc. reflexivity.
Qed.

(** X7: the content chunks of a chat-completions stream carry, in arrival
    order, exactly the text fragments of the lines of the decoded body:
    nothing is dropped, repeated or reordered, also after the stop chunk. *)
Theorem chat_stream_texts_in_order (chatId : jsstring) (timestamp : number)
    (model : json) (chunks : list (list Byte.byte)) :
  omap delta_content (chat_stream chatId timestamp model chunks)
  = concat (map text_of_line
              (split_nl (fst (Utf8.decode_stream (concat chunks) Utf8.initial)))).
Proof. apply chat_stream_contents. Qed.

(** X8: when the body does not end inside a multi-byte character, the
    [content] that the non-streaming handler collects from the whole body is
    the concatenation of the string forms of the content chunks that the
    streaming handler emits for the same body, however it is cut into
    chunks; a fragment without a string form, which the streaming handler
    forwards as it is, is skipped by the non-streaming one. *)
Theorem streaming_agrees_with_collected (chatId : jsstring) (timestamp : number)
    (model : json) (chunks : list (list Byte.byte)) :
  Utf8.finish (snd (Utf8.decode_stream (concat chunks) Utf8.initial)) = [] ->
  collectText (Utf8.text (concat chunks))
  = concat (omap toString
              (omap delta_content (chat_stream chatId timestamp model chunks))).
Proof.
  intros Hfin. rewrite chat_stream_contents.
  unfold collectText, Utf8.text.
  destruct (Utf8.decode_stream (concat chunks) Utf8.initial) as [s st].
  cbn [fst snd] in *. rewrite Hfin, app_nil_r, collect_lines. reflexivity.
Qed.

Lemma streaming_agrees_with_collected_witness :
  collectText (Utf8.text (concat split_body))
  = concat (omap toString
              (omap delta_content
                 (chat_stream (lit "id") (mkNum 1 0) (JStr "m") split_body))).
Proof.
  apply streaming_agrees_with_collected. vm_compute. reflexivity.
Defined.

(** X9: every chunk of a chat-completions stream other than the
    terminator carries the [id], [created] and [model] fixed for the call
    and the object type [chat.completion.chunk]. *)
Theorem chat_stream_fixed_head (chatId : jsstring) (timestamp : number)
    (model : json) (chunks : list (list Byte.byte)) :
  Forall (fun f =>
            f = DataDone
            ∨ chunk_head f
              = [ Some (JString chatId); Some (JStr "chat.completion.chunk");
                  Some (JNumber timestamp); Some model ])
         (chat_stream chatId timestamp model chunks).
Proof. apply chat_stream_head. Qed.

(** ** Response lifecycle: the events of a whole stream *)


(** X10: the events of a response-lifecycle stream depend on the
    concatenation of the chunks only, not on where the body is cut. *)
Theorem resp_stream_chunking_invariance (respId itemId : jsstring) (model : json)
    (created_at : nat -> number) (chunks : list (list Byte.byte)) :
  resp_stream respId itemId model created_at chunks
  = resp_stream respId itemId model created_at [concat chunks].
Proof.
  rewrite !resp_stream_replay. cbn [concat]. rewrite app_nil_r. reflexivity.
Qed.

(** X11: the [delta] values of a response-lifecycle stream are, in arrival
    order, exactly the text fragments of the body that have a string form,
    up to the first line that makes [transform] throw; the one [text]
    value, that of [response.output_text.done], is the concatenation of
    their string forms, and is there when [transform] did not throw and
    some text fragment was extracted. *)
Theorem resp_stream_texts_in_order (respId itemId : jsstring) (model : json)
    (created_at : nat -> number) (chunks : list (list Byte.byte)) :
  let whole := fst (Utf8.decode_stream (concat chunks) Utf8.initial) in
  let out := resp_stream respId itemId model created_at chunks in
  omap event_delta out = printed (fst (texts_of_body whole))
  ∧ omap event_text out
    = if negb (snd (texts_of_body whole))
         && negb (bool_decide (fst (texts_of_body whole) = []))
      then [JString (concat (strings_of (fst (texts_of_body whole))))]
      else [].
Proof.
  cbn zeta.
  pose proof (resp_stream_account respId itemId model created_at chunks) as H.
  cbn zeta in H. destruct H as (H1 & H2 & _). auto.
Qed.

(** X12: the events of a response-lifecycle stream carry the sequence
    numbers 0, 1, 2, ... in the order in which they are emitted. *)
Theorem resp_stream_sequence_numbers (respId itemId : jsstring) (model : json)
    (created_at : nat -> number) (chunks : list (list Byte.byte)) :
  let out := resp_stream respId itemId model created_at chunks in
  map sequence_number out
  = map (fun n => Some (JInt (Z.of_nat n))) (seq 0 (length out)).
Proof.
  cbn zeta.
  pose proof (resp_stream_account respId itemId model created_at chunks) as H.
  cbn zeta in H. destruct H as (_ & _ & _ & H). exact H.
Qed.


(* ===================================================================== *)
(** * Prompt construction                                                  *)
(* ===================================================================== *)


Lemma join_app (sep : jsstring) (a b : list jsstring) :
  a ≠ [] -> b ≠ [] -> join sep (a ++ b) = join sep a ++ sep ++ join sep b.
Proof.
  intros Ha Hb. induction a as [|x a IH]; [congruence|].
  destruct a as [|y a].
  - destruct b as [|z b]; [congruence|]. reflexivity.
  - change (join sep ((x :: y :: a) ++ b))
      with (x ++ sep ++ join sep ((y :: a) ++ b)).
    rewrite IH by discriminate.
    change (join sep (x :: y :: a)) with (x ++ sep ++ join sep (y :: a)).
    rewrite <- !app_assoc. reflexivity.
Qed.

Lemma mapM_option_cons {A B} (f : A -> option B) (h : A) (a : list A) :
  mapM f (h :: a)
  = match f h with
    | Some v => match mapM f a with Some x => Some (v :: x) | None => None end
    | None => None
    end.
Proof. cbn. destruct (f h); reflexivity. Qed.

Lemma mapM_option_app {A B} (f : A -> option B) (a b : list A) :
  mapM f (a ++ b) = x ← mapM f a; y ← mapM f b; Some (x ++ y).
Proof.
  induction a as [|h a IH].
  - cbn. destruct (mapM f b); reflexivity.
  - cbn [app]. rewrite !mapM_option_cons.
    destruct (f h) as [v|]; [|reflexivity].
    rewrite IH. unfold mbind, option_bind.
    destruct (mapM f a) as [x|]; [|reflexivity].
    destruct (mapM f b) as [y|]; reflexivity.
Qed.

Lemma mapM_option_nonempty {A B} (f : A -> option B) (a : list A) (x : list B) :
  mapM f a = Some x -> a ≠ [] -> x ≠ [].
Proof.
  intros H Ha ->. destruct a as [|h a]; [congruence|].
  rewrite mapM_option_cons in H.
  destruct (f h); [destruct (mapM f a)|]; discriminate.
Qed.

Lemma null_or_not (v : json) : v = JNull ∨ v ≠ JNull.
Proof. destruct v; [left; reflexivity|right; discriminate..]. Qed.

Lemma textsOfBlocks_cons (kinds : list string) (b : json) (bs : list json) :
  b ≠ JNull ->
  textsOfBlocks kinds (b :: bs)
  = ts ← textsOfBlocks kinds bs;
    Some (if existsb (is_lit (get b "type")) kinds then get b "text" :: ts
          else ts).
Proof. destruct b; [congruence|reflexivity..]. Qed.

Lemma mapM_option_defined {A B} (f : A -> option B) (l : list A) :
  is_Some (mapM f l) <-> Forall (fun x => is_Some (f x)) l.
Proof.
  induction l as [|h l IH].
  - split; [constructor|intros _; eexists; reflexivity].
  - rewrite mapM_option_cons, Forall_cons, <- IH.
    destruct (f h) as [x|]; cbn.
    + destruct (mapM f l) as [xs|]; cbn.
      * split; eauto.
      * split; [intros [? ?]; discriminate|intros [_ [? ?]]; discriminate].
    + split; [intros [? ?]; discriminate|intros [[? ?] _]; discriminate].
Qed.

Lemma join_item_defined (o : option json) :
  is_Some (join_item o) <-> ∀ t, o = Some t -> printable t.
Proof.
  unfold printable. destruct o as [v|]; cbn.
  - split.
    + intros H t [= <-]. destruct v; cbn in *; eauto.
    + intros H. specialize (H v eq_refl). destruct v; cbn in *; eauto.
  - split; [intros _ t H; discriminate|eauto].
Qed.

Lemma joinTexts_defined (ts : list (option json)) :
  is_Some (joinTexts ts) <-> Forall (fun o => is_Some (join_item o)) ts.
Proof.
  rewrite <- mapM_option_defined. unfold joinTexts.
  destruct (mapM join_item ts); cbn.
  - split; eauto.
  - split; intros [? ?]; discriminate.
Qed.

Lemma blocks_defined (kinds : list string) (blocks : list json) :
  is_Some (ts ← textsOfBlocks kinds blocks; joinTexts ts)
  <-> readable_blocks kinds blocks.
Proof.
  unfold readable_blocks.
  assert (H : ∀ blocks,
            match textsOfBlocks kinds blocks with
            | Some ts =>
                Forall (fun b => b ≠ JNull) blocks
                ∧ (Forall (fun o => is_Some (join_item o)) ts
                   <-> Forall (fun b =>
                                 existsb (is_lit (get b "type")) kinds = true ->
                                 ∀ t, get b "text" = Some t -> printable t)
                              blocks)
            | None => ¬ Forall (fun b => b ≠ JNull) blocks
            end).
  { clear blocks. induction blocks as [|b bs IH].
    - cbn. split; [constructor|]. split; constructor.
    - destruct (null_or_not b) as [->|Hb].
      + cbn. intros H. apply Forall_cons in H as [H _]. congruence.
      + rewrite textsOfBlocks_cons by exact Hb.
        destruct (textsOfBlocks kinds bs) as [ts|]; cbn.
        * destruct IH as (I1 & I2). split; [constructor; assumption|].
          rewrite (Forall_cons _ b bs), <- I2.
          destruct (existsb (is_lit (get b "type")) kinds).
          -- rewrite Forall_cons, join_item_defined. split.
             ++ intros [H1 H2]. split; [intros _; exact H1|exact H2].
             ++ intros [H1 H2]. split; [exact (H1 eq_refl)|exact H2].
          -- split; [intros H; split; [discriminate|exact H]|tauto].
        * intros H. apply Forall_cons in H as [_ H]. contradiction. }
  specialize (H blocks). rewrite Forall_and.
  destruct (textsOfBlocks kinds blocks) as [ts|]; cbn.
  - destruct H as (H1 & H2). rewrite joinTexts_defined, H2. tauto.
  - split; [intros [x Hx]; discriminate|tauto].
Qed.

Lemma contentOf_defined (m : json) :
  is_Some (contentOf m)
  <-> ∀ v, get m "content" = Some v ->
           match v with
           | JArray blocks => readable_blocks ["text"%string] blocks
           | _ => printable v
           end.
Proof.
  unfold contentOf, printable.
  destruct (get m "content") as [v|];
    [|split; [intros _ v H; discriminate|eauto]].
  split.
  - intros H w [= <-]. destruct v; cbn in *; eauto.
    apply blocks_defined. exact H.
  - intros H. specialize (H v eq_refl). destruct v; cbn in *; eauto.
    apply blocks_defined in H. exact H.
Qed.

Lemma formatMessage_not_null (m : json) :
  m ≠ JNull ->
  formatMessage m
  = content ← contentOf m;
    Some (if is_lit (get m "role") "system"
          then lit "[System Instructions]" ++ newline ++ content
          else if is_lit (get m "role") "assistant"
          then lit "[Assistant]" ++ newline ++ content
          else if is_lit (get m "role") "user"
          then lit "[User]" ++ newline ++ content
          else content).
Proof. destruct m; [congruence|reflexivity..]. Qed.

Lemma formatMessage_defined (m : json) :
  is_Some (formatMessage m) <-> readable m.
Proof.
  unfold readable. rewrite <- contentOf_defined.
  destruct (null_or_not m) as [->|Hm].
  - cbn. split; [intros [x Hx]; discriminate|intros [H _]; congruence].
  - rewrite formatMessage_not_null by exact Hm.
    destruct (contentOf m) as [c|]; cbn.
    + split; [intros _; split; [exact Hm|eauto]|eauto].
    + split; [intros [x Hx]; discriminate|intros [_ [x Hx]]; discriminate].
Qed.



Lemma formatMessages_parts (a b : list json) :
  a ≠ [] -> b ≠ [] ->
  formatMessages (JArray (a ++ b))
  = x ← formatMessages (JArray a);
    y ← formatMessages (JArray b);
    Some (x ++ newline ++ newline ++ y).
Proof.
  intros Ha Hb. cbn [formatMessages]. rewrite mapM_option_app.
  unfold mbind, option_bind.
  destruct (mapM formatMessage a) as [x|] eqn:Ex; [|reflexivity].
  destruct (mapM formatMessage b) as [y|] eqn:Ey; [|reflexivity].
  rewrite join_app by (eapply mapM_option_nonempty; eassumption).
  rewrite <- app_assoc. reflexivity.
Qed.

(** X14: a conversation formats as its parts joined by a blank line:
    the prompt of [a ++ b] is the prompt of [a], two newlines, and the
    prompt of [b]; it throws when either part does. *)
Theorem formatMessages_app (a b : list json) :
  a ≠ [] -> b ≠ [] ->
  formatMessages (JArray (a ++ b))
  = x ← formatMessages (JArray a);
    y ← formatMessages (JArray b);
    Some (x ++ newline ++ newline ++ y).
Proof. exact (formatMessages_parts a b). Qed.

Lemma formatMessages_app_witness :
  formatMessages (JArray ([system_brief] ++ [user_hi]))
  = Some (lit "[System Instructions]" ++ newline ++ lit "be brief"
          ++ newline ++ newline ++ lit "[User]" ++ newline ++ lit "hi").
Proof.
  rewrite (formatMessages_app [system_brief] [user_hi]) by discriminate.
  vm_compute. reflexivity.
Defined.

(** X15: [formatMessages] of an array throws exactly when a message is
    [null], an array content holds a [null] block or a text block whose
    [text] has no string form, or a content that is neither a string nor
    an array has no string form (an object with a key [toString], or an
    array holding one). *)
Theorem formatMessages_defined (ms : list json) :
  is_Some (formatMessages (JArray ms)) <-> Forall readable ms.
Proof.
  cbn [formatMessages].
  assert (H : is_Some (mapM formatMessage ms) <-> Forall readable ms).
  { induction ms as [|m ms IH].
    - split; [constructor|intros _; eexists; reflexivity].
    - rewrite mapM_option_cons, Forall_cons, <- IH, <- formatMessage_defined.
      destruct (formatMessage m) as [x|]; cbn.
      + destruct (mapM formatMessage ms) as [xs|]; cbn.
        * split; eauto.
        * split; [intros [? ?]; discriminate|intros [_ [? ?]]; discriminate].
      + split; [intros [? ?]; discriminate|intros [[? ?] _]; discriminate]. }
  rewrite <- H. destruct (mapM formatMessage ms); cbn.
  - split; eauto.
  - split; intros [? ?]; discriminate.
Qed.



Lemma formatMessage_system (i : jsstring) :
  formatMessage (message (JStr "system") (JString i))
  = Some (lit "[System Instructions]" ++ newline ++ i).
Proof. reflexivity. Qed.

Lemma formatMessage_user (s : jsstring) :
  formatMessage (message (JStr "user") (JString s))
  = Some (lit "[User]" ++ newline ++ s).
Proof. reflexivity. Qed.

Lemma formatMessages_one (m : json) :
  formatMessages (JArray [m]) = formatMessage m.
Proof.
  cbn [formatMessages]. rewrite mapM_option_cons.
  destruct (formatMessage m); reflexivity.
Qed.

(** X17: for a request whose [input] is a string, the prompt built by
    [parseResponsesAPIInput] and [formatMessages] is the user header and
    that string, preceded by the system header and the instructions when
    [instructions] is a non-empty string. *)
Theorem string_input_prompt (body : json) (s : jsstring) :
  get body "input" = Some (JString s) ->
  (ms ← parseResponsesAPIInput body; formatMessages (JArray ms))
  = Some (instructions_header body ++ lit "[User]" ++ newline ++ s).
Proof.
  intros Hin. destruct body as [| | | | |fs]; try discriminate.
  unfold parseResponsesAPIInput, instructions_header. rewrite Hin.
  assert (Huser : formatMessages (JArray [message (JStr "user") (JString s)])
                  = Some (lit "[User]" ++ newline ++ s))
    by (rewrite formatMessages_one; apply formatMessage_user).
  destruct (get (JObject fs) "instructions") as [[| | |i| |]|];
    try exact Huser.
  destruct (str_eqb i []); cbn [negb]; [exact Huser|].
  change (formatMessages
            (JArray ([message (JStr "system") (JString i)]
                     ++ [message (JStr "user") (JString s)]))
          = Some ((lit "[System Instructions]" ++ newline ++ i ++ newline ++ newline)
                  ++ lit "[User]" ++ newline ++ s)).
  rewrite formatMessages_parts by discriminate.
  rewrite !formatMessages_one, formatMessage_system, formatMessage_user.
  cbn [mbind option_bind]. rewrite <- !app_assoc. reflexivity.
Qed.

Lemma string_input_prompt_witness :
  (ms ← parseResponsesAPIInput
          (JObject [(lit "instructions", JStr "be brief"); (lit "input", JStr "hi")]);
   formatMessages (JArray ms))
  = Some (lit "[System Instructions]" ++ newline ++ lit "be brief"
          ++ newline ++ newline ++ lit "[User]" ++ newline ++ lit "hi").
Proof.
  rewrite (string_input_prompt _ (lit "hi")) by reflexivity.
  vm_compute. reflexivity.
Defined.

Lemma parseItem_defined (item : json) :
  is_Some (parseItem item) <-> readable_item item.
Proof.
  unfold readable_item.
  assert (Hsimple : ∀ content : json,
            is_Some (match get item "role" with
                     | Some role =>
                         if truthy role && truthy content
                         then Some [message role content] else Some []
                     | None => Some []
                     end)).
  { intros content. destruct (get item "role") as [role|];
      [destruct (truthy role && truthy content)|]; eauto. }
  unfold parseItem.
  destruct item as [|b|n|s|items|fs].
  1-4: split; [intros _ blocks H; discriminate|intros _; eauto].
  - change (get (JArray items) "content") with (@None json).
    split; [intros _ blocks _ H; discriminate|intros _; eauto].
  - destruct (get (JObject fs) "content") as [[| | | |blocks|]|].
    1-4, 6: split; [intros _ blocks _ H; discriminate|intros _; apply Hsimple].
    2: split; [intros _ blocks _ H; discriminate|intros _; eauto].
    destruct (is_lit (get (JObject fs) "type") "message").
    + pose proof (blocks_defined
                    ["input_text"; "output_text"; "text"]%string blocks) as T.
      destruct (textsOfBlocks _ blocks) as [ts|]; cbn in *.
      * destruct (joinTexts ts) as [text|]; cbn in *.
        -- split; [intros _ b _ [= <-]; apply T; eauto|eauto].
        -- split; [intros [x Hx]; discriminate|].
           intros H. specialize (H blocks eq_refl eq_refl). apply T in H.
           destruct H as [x Hx]. discriminate.
      * split; [intros [x Hx]; discriminate|].
        intros H. specialize (H blocks eq_refl eq_refl). apply T in H.
        destruct H as [x Hx]. discriminate.
    + split; [intros _ b H; discriminate|intros _].
      destruct (get (JObject fs) "role") as [role|];
        [destruct (truthy role)|]; eauto.
Qed.

Lemma mapM_parseItem_defined (items : list json) :
  is_Some (mapM parseItem items) <-> Forall readable_item items.
Proof.
  induction items as [|i items IH].
  - split; [constructor|intros _; eexists; reflexivity].
  - rewrite mapM_option_cons, Forall_cons, <- IH, <- parseItem_defined.
    destruct (parseItem i) as [x|]; cbn.
    + destruct (mapM parseItem items) as [xs|]; cbn.
      * split; eauto.
      * split; [intros [? ?]; discriminate|intros [_ [? ?]]; discriminate].
    + split; [intros [? ?]; discriminate|intros [[? ?] _]; discriminate].
Qed.

(** X18: [parseResponsesAPIInput] throws exactly when the body is [null]
    or an input item of type ["message"] holds, among its content blocks,
    a [null] or a text block whose [text] has no string form. *)
Theorem parseResponsesAPIInput_defined (body : json) :
  is_Some (parseResponsesAPIInput body)
  <-> body ≠ JNull
      ∧ ∀ items, get body "input" = Some (JArray items) ->
                 Forall readable_item items.
Proof.
  unfold parseResponsesAPIInput.
  set (system := match get body "instructions" with
                 | Some (JString s) =>
                     if negb (str_eqb s [])
                     then [message (JStr "system") (JString s)] else []
                 | _ => []
                 end).
  assert (Hmain :
            is_Some
              (pushed ← match get body "input" with
                        | Some (JString s) =>
                            Some [message (JStr "user") (JString s)]
                        | Some (JArray items) =>
                            each ← mapM parseItem items; Some (concat each)
                        | _ => Some []
                        end;
               Some (match system ++ pushed with
                     | [] => [message (JStr "user") (JStr "(empty)")]
                     | m :: l => m :: l
                     end))
            <-> ∀ items, get body "input" = Some (JArray items) ->
                         Forall readable_item items).
  { destruct (get body "input") as [[| | |s|items|]|]; cbn.
    1-4, 6-7: split; [intros _ items H; discriminate|intros _; eauto].
    pose proof (mapM_parseItem_defined items) as T.
    destruct (mapM parseItem items) as [each|]; cbn.
    - split; [intros _ b [= <-]; apply T; eauto|eauto].
    - split; [intros [x Hx]; discriminate|].
      intros H. specialize (H items eq_refl). apply T in H.
      destruct H as [x Hx]. discriminate. }
  destruct (null_or_not body) as [->|Hb].
  - split; [intros [x Hx]; discriminate|intros [H _]; congruence].
  - destruct body; [congruence|..]; rewrite Hmain; split; try tauto;
      intros H; (split; [exact Hb|exact H]).
Qed.

(* ===================================================================== *)
(** * The plugin's URL rewriting                                           *)
(* ===================================================================== *)

Lemma startsWith_prefix (p r : jsstring) : startsWith (p ++ r) p = true.
Proof.
  induction p as [|c p IH]; [destruct r; reflexivity|].
  cbn. rewrite N.eqb_refl. exact IH.
Qed.

Lemma startsWith_split (s p : jsstring) :
  startsWith s p = true -> ∃ r, s = p ++ r.
Proof.
  revert s. induction p as [|c p IH]; intros s H.
  - exists s. reflexivity.
  - destruct s as [|d s]; [discriminate|]. cbn in H.
    destruct (N.eqb_spec c d) as [->|]; [|discriminate].
    destruct (IH s H) as [r ->]. exists r. reflexivity.
Qed.

(** Whether [p] is at the front of [x ++ y] is decided within [x] when [x]
    is at least as long as [p]. *)
Lemma startsWith_long (x y p : jsstring) :
  (length p <= length x)%nat -> startsWith (x ++ y) p = startsWith x p.
Proof.
  revert x. induction p as [|c p IH]; intros x H.
  - destruct (x ++ y), x; reflexivity.
  - destruct x as [|d x]; [cbn in H; lia|]. cbn.
    destruct (N.eqb c d); [|reflexivity]. apply IH. cbn in H. lia.
Qed.

Lemma indexOf_found (s p : jsstring) (n : nat) :
  indexOf s p = Some n -> startsWith (drop n s) p = true.
Proof.
  revert n. induction s as [|c s IH]; intros n.
  - cbn [indexOf]. destruct (startsWith [] p) eqn:E; [|discriminate].
    intros [= <-]. exact E.
  - cbn [indexOf]. destruct (startsWith (c :: s) p) eqn:E.
    + intros [= <-]. exact E.
    + destruct (indexOf s p) as [k|]; [|discriminate].
      intros [= <-]. cbn [drop]. apply IH. reflexivity.
Qed.

Lemma indexOf_here (s p : jsstring) :
  startsWith s p = true -> indexOf s p = Some 0.
Proof. intros H. destruct s; cbn [indexOf]; rewrite H; reflexivity. Qed.

(** The first occurrence of a pattern that is absent before it. *)
Lemma indexOf_first (pre rest : jsstring) (c d e : N) :
  indexOf (pre ++ [c; d]) [c; d; e] = None ->
  indexOf (pre ++ [c; d; e] ++ rest) [c; d; e] = Some (length pre).
Proof.
  induction pre as [|x pre IH]; intros H.
  - apply indexOf_here. apply (startsWith_prefix [c; d; e] rest).
  - cbn [app indexOf length] in *.
    assert (E1 : startsWith (x :: pre ++ c :: d :: e :: rest) [c; d; e]
                 = startsWith (x :: pre ++ [c; d]) [c; d; e]).
    { replace (x :: pre ++ c :: d :: e :: rest)
        with ((x :: pre ++ [c; d]) ++ e :: rest)
        by (cbn; rewrite <- app_assoc; reflexivity).
      apply startsWith_long. cbn. rewrite length_app. cbn. lia. }
    rewrite E1.
    destruct (startsWith (x :: pre ++ [c; d]) [c; d; e]); [discriminate|].
    destruct (indexOf (pre ++ [c; d]) [c; d; e]) eqn:E; [discriminate|].
    rewrite IH by reflexivity. reflexivity.
Qed.

Lemma targetUrl_from_v1 (pre rest : jsstring) :
  indexOf (pre ++ lit "/v") (lit "/v1") = None ->
  targetUrl (pre ++ lit "/v1" ++ rest) = PROXY_BASE ++ lit "/v1" ++ rest.
Proof.
  intros H. unfold targetUrl.
  change (lit "/v1") with [47; 118; 49]%N in *.
  change (lit "/v") with [47; 118]%N in *.
  rewrite indexOf_first by exact H.
  unfold substring. rewrite drop_app_length. reflexivity.
Qed.

Lemma targetUrl_prefix (rawUrl : jsstring) :
  ∃ rest, targetUrl rawUrl = PROXY_BASE ++ lit "/v1" ++ rest.
Proof.
  unfold targetUrl.
  destruct (indexOf rawUrl (lit "/v1")) as [n|] eqn:E.
  - apply indexOf_found, startsWith_split in E. destruct E as [r E].
    exists r. unfold substring. rewrite E. reflexivity.
  - destruct (pathMatch rawUrl) as [[g1 g2]|].
    + exists (lit "/" ++ g1 ++ g2). reflexivity.
    + exists (lit "/chat/completions"). reflexivity.
Qed.

(** X19: whatever URL the SDK produced, the rewritten URL starts with the
    proxy's base and [/v1], and rewriting is idempotent: a URL that the
    hook produced is left as it is. *)
Theorem targetUrl_idempotent (rawUrl : jsstring) :
  (∃ rest, targetUrl rawUrl = PROXY_BASE ++ lit "/v1" ++ rest)
  ∧ targetUrl (targetUrl rawUrl) = targetUrl rawUrl.
Proof.
  split; [apply targetUrl_prefix|].
  destruct (targetUrl_prefix rawUrl) as [rest ->].
  apply targetUrl_from_v1. vm_compute. reflexivity.
Qed.

(** X20: a URL that contains [/v1] keeps everything from its first [/v1]
    on, path and query, behind the proxy's base, whatever stood before. *)
Theorem targetUrl_keeps_path (pre rest : jsstring) :
  indexOf (pre ++ lit "/v") (lit "/v1") = None ->
  targetUrl (pre ++ lit "/v1" ++ rest) = PROXY_BASE ++ lit "/v1" ++ rest.
Proof. apply targetUrl_from_v1. Qed.

Lemma targetUrl_keeps_path_witness :
  targetUrl (lit "https://api.example.com" ++ lit "/v1" ++ lit "/models?x=1")
  = PROXY_BASE ++ lit "/v1" ++ lit "/models?x=1".
Proof.
  apply targetUrl_keeps_path. vm_compute. reflexivity.
Defined.

(* ===================================================================== *)
(** * Further properties of the queue                                      *)
(* ===================================================================== *)


Section QueueOnce.

Variable T : Type.
Implicit Types (q : qstate T) (s : slot T) (o : settlement T).

Local Ltac look :=
  repeat match goal with
  | H : (_ ++ [_]) !! _ = Some _ |- _ =>
      apply lookup_snoc_Some in H as [[? H]|[? ?]]
  | H : <[_:=_]> _ !! _ = Some _ |- _ =>
      apply list_lookup_insert_Some in H as [(? & ? & ?)|[? H]]
  end; simplify_eq/=.

Local Ltac keep := first [apply lookup_app_l_Some; eassumption | eassumption].

Lemma runs_once_q0 : runs_once (q0 (T:=T)).
Proof. constructor; cbn; intros; try discriminate; lia. Qed.

(** A slot that is replaced by one that does not wait. *)
Lemma began_slot_insert (l : list (slot T)) (c c0 : nat) (s new : slot T) :
  l !! c = Some s -> thunk new ≠ Waiting ->
  (∃ s0, l !! c0 = Some s0 ∧ thunk s0 ≠ Waiting) ->
  ∃ s0, <[c := new]> l !! c0 = Some s0 ∧ thunk s0 ≠ Waiting.
Proof.
  intros Hc Hnew (s0 & H0 & Hw).
  destruct (decide (c0 = c)) as [->|Hne].
  - exists new. split; [|exact Hnew].
    apply list_lookup_insert_eq. eapply lookup_lt_Some; exact Hc.
  - exists s0. split; [|exact Hw]. rewrite list_lookup_insert_ne; auto.
Qed.

Lemma runs_once_step q q' :
  invariant q -> runs_once q -> step q q' -> runs_once q'.
Proof.
  intros Hinv [Bs Bo Sa Ba En] Hstep.
  destruct Hstep as [q|q c s Hc Hw Hprev|q c s r Hc Hr|q c s o Hc Hr|q c s o Hc Hd].
  - (* enqueue *)
    unfold enqueue. constructor; cbn [slots trace].
    + intros b c Hb. look. destruct (Bs _ _ Hb) as (s & ? & ?).
      exists s. split; [keep|assumption].
    + intros b b' c Hb Hb'. look. eauto.
    + intros k c o Hk. look. destruct (Sa _ _ _ Hk) as (b & ? & ?).
      exists b. split; [assumption|keep].
    + intros b c Hb. look. destruct (Ba _ _ Hb) as (e & ? & ?).
      exists e. split; [assumption|keep].
    + intros c Hlt. rewrite length_app in Hlt. cbn in Hlt.
      destruct (decide (c = length (slots q))) as [->|Hne].
      * exists (length (trace q)). apply lookup_snoc_new.
      * destruct (En c ltac:(lia)) as (e & ?). exists e. keep.
  - (* begin *)
    constructor; cbn [slots trace].
    + intros b c0 Hb. look.
      * eapply began_slot_insert; eauto; cbn; discriminate.
      * exists (mkSlot Running (link s)). split; [|cbn; discriminate].
        apply list_lookup_insert_eq. eapply lookup_lt_Some; exact Hc.
    + intros b b' c0 Hb Hb'. look; eauto;
        match goal with
        | H : trace q !! _ = Some (Began _) |- _ =>
            destruct (Bs _ _ H) as (s0 & ? & ?); congruence
        end.
    + intros k c0 o Hk. look. destruct (Sa _ _ _ Hk) as (b & ? & ?).
      exists b. split; [assumption|keep].
    + intros b c0 Hb. look.
      * destruct (Ba _ _ Hb) as (e & ? & ?). exists e. split; [assumption|keep].
      * destruct (En c0) as (e & He); [eapply lookup_lt_Some; exact Hc|].
        exists e. split; [eapply lookup_lt_Some; exact He|keep].
    + intros c0 Hlt. rewrite length_insert in Hlt.
      destruct (En c0 Hlt) as (e & ?). exists e. keep.
  - (* send *)
    constructor; cbn [slots trace].
    + intros b c0 Hb. look. eauto.
    + intros b b' c0 Hb Hb'. look. eauto.
    + intros k c0 o Hk. look. destruct (Sa _ _ _ Hk) as (b & ? & ?).
      exists b. split; [assumption|keep].
    + intros b c0 Hb. look. destruct (Ba _ _ Hb) as (e & ? & ?).
      exists e. split; [assumption|keep].
    + intros c0 Hlt. destruct (En c0 Hlt) as (e & ?). exists e. keep.
  - (* settle *)
    constructor; cbn [slots trace].
    + intros b c0 Hb. look.
      eapply began_slot_insert; eauto; cbn; discriminate.
    + intros b b' c0 Hb Hb'. look. eauto.
    + intros k c0 o0 Hk. look.
      * destruct (Sa _ _ _ Hk) as (b & ? & ?). exists b. split; [assumption|keep].
      * destruct (inv_began _ _ Hinv _ _ Hc) as (b & Hb); [congruence|].
        exists b. split; [eapply lookup_lt_Some; exact Hb|keep].
    + intros b c0 Hb. look. destruct (Ba _ _ Hb) as (e & ? & ?).
      exists e. split; [assumption|keep].
    + intros c0 Hlt. rewrite length_insert in Hlt.
      destruct (En c0 Hlt) as (e & ?). exists e. keep.
  - (* link *)
    constructor; cbn [slots trace]; eauto.
    + intros b c0 Hb. eapply began_slot_insert; eauto; cbn; discriminate.
    + intros c0 Hlt. rewrite length_insert in Hlt. eauto.
Qed.

Lemma reachable_runs_once q : reachable q -> invariant q ∧ runs_once q.
Proof.
  unfold reachable. revert q. apply rtc_ind_r.
  - split; [apply invariant_q0|apply runs_once_q0].
  - intros y z _ Hs [I O]. split.
    + eapply invariant_step; eassumption.
    + eapply runs_once_step; eassumption.
Qed.

(** *** The chain never blocks *)

Lemma thunks_lookup q c s :
  slots q !! c = Some s -> thunks q !! c = Some (thunk s).
Proof.
  intros H. unfold thunks. rewrite list_lookup_fmap, H. reflexivity.
Qed.

Lemma thunks_lookup_inv q c t :
  thunks q !! c = Some t -> ∃ s, slots q !! c = Some s ∧ thunk s = t.
Proof.
  unfold thunks. rewrite list_lookup_fmap.
  destruct (slots q !! c) as [s|]; [|discriminate]. intros [= <-]. eauto.
Qed.

(** With every earlier call settled, a waiting call can begin: the link
    before it is fulfilled first if it is not yet. *)
Lemma waiting_begins q c s :
  (∀ p t, p < c -> thunks q !! p = Some t -> ∃ o, t = Done o) ->
  slots q !! c = Some s -> thunk s = Waiting ->
  ∃ q1, rtc step q q1 ∧ thunks q1 = <[c := Running]> (thunks q).
Proof.
  intros Hpre Hc Hw. destruct c as [|c0].
  - eexists. split.
    + apply rtc_once. exact (step_begin q 0 s Hc Hw I).
    + unfold thunks. cbn [slots]. rewrite list_fmap_insert. reflexivity.
  - assert (Hlt : c0 < length (slots q))
      by (apply lookup_lt_Some in Hc; lia).
    destruct (lookup_lt_is_Some_2 _ _ Hlt) as [s0 H0].
    destruct (Hpre c0 _ ltac:(lia) (thunks_lookup _ _ _ H0)) as [o0 Hd0].
    set (qa := mkQ (<[c0 := mkSlot (Done o0) true]> (slots q)) (trace q)).
    assert (Sa : step q qa) by exact (step_link q c0 s0 o0 H0 Hd0).
    assert (Ha : slots qa !! S c0 = Some s)
      by (cbn [qa slots]; rewrite list_lookup_insert_ne by lia; exact Hc).
    assert (Hp : prev_fulfilled qa (S c0)).
    { exists (mkSlot (Done o0) true). split; [|reflexivity].
      apply list_lookup_insert_eq. exact Hlt. }
    eexists. split.
    + eapply rtc_l; [exact Sa|]. apply rtc_once.
      exact (step_begin qa (S c0) s Ha Hw Hp).
    + unfold thunks. cbn [slots qa]. rewrite !list_fmap_insert. cbn [thunk].
      f_equal. apply list_insert_id.
      rewrite list_lookup_fmap, H0. cbn. congruence.
Qed.

Lemma drain_from (out : nat -> settlement T) (n : nat) :
  ∀ q c,
    length (thunks q) = c + n ->
    (∀ p t, p < c -> thunks q !! p = Some t -> ∃ o, t = Done o) ->
    ∃ q', rtc step q q'
          ∧ length (thunks q') = length (thunks q)
          ∧ ∀ p t, thunks q !! p = Some t ->
                   thunks q' !! p = Some (Done (final out p t)).
Proof.
  induction n as [|n IH]; intros q c Hlen Hpre.
  - exists q. split; [apply rtc_refl|]. split; [reflexivity|].
    intros p t Hp. assert (p < c) by (apply lookup_lt_Some in Hp; lia).
    destruct (Hpre p t ltac:(lia) Hp) as [o ->]. exact Hp.
  - assert (Hrun : ∀ q1, rtc step q q1 ->
              thunks q1 = <[c := Running]> (thunks q) ->
              (∀ t, thunks q !! c = Some t -> final out c t = out c) ->
              ∃ q', rtc step q q'
                    ∧ length (thunks q') = length (thunks q)
                    ∧ ∀ p t, thunks q !! p = Some t ->
                             thunks q' !! p = Some (Done (final out p t))).
    { intros q1 R1 E1 Hfin.
      assert (Hc1 : thunks q1 !! c = Some Running).
      { rewrite E1. apply list_lookup_insert_eq. lia. }
      destruct (thunks_lookup_inv _ _ _ Hc1) as (s1 & Hs1 & Ht1).
      set (q2 := mkQ (<[c := mkSlot (Done (out c)) (link s1)]> (slots q1))
                     (trace q1 ++ [Settled c (out c)])).
      assert (S2 : step q1 q2) by exact (step_settle q1 c s1 (out c) Hs1 Ht1).
      assert (E2 : thunks q2 = <[c := Done (out c)]> (thunks q)).
      { unfold thunks at 1. cbn [q2 slots]. rewrite list_fmap_insert.
        cbn [thunk]. change (thunk <$> slots q1) with (thunks q1). rewrite E1.
        apply list_insert_insert_eq. }
      destruct (IH q2 (S c)) as (q' & R' & L' & F').
      { rewrite E2, length_insert. lia. }
      { intros p t Hlt Hp. rewrite E2 in Hp.
        apply list_lookup_insert_Some in Hp as [(-> & <- & _)|[Hne Hp]]; [eauto|].
        apply (Hpre p t); [lia|exact Hp]. }
      exists q'. split.
      { etrans; [exact R1|]. eapply rtc_l; [exact S2|exact R']. }
      split; [rewrite L', E2; apply length_insert|].
      intros p t Hp. destruct (decide (p = c)) as [->|Hne].
      - rewrite (F' c (Done (out c))).
        + cbn [final]. rewrite (Hfin t Hp). reflexivity.
        + rewrite E2. apply list_lookup_insert_eq. lia.
      - apply F'. rewrite E2, list_lookup_insert_ne by auto. exact Hp. }
    assert (Hlt : c < length (slots q))
      by (unfold thunks in Hlen; rewrite length_map in Hlen; lia).
    destruct (lookup_lt_is_Some_2 _ _ Hlt) as [s Hs].
    pose proof (thunks_lookup _ _ _ Hs) as Ht.
    destruct (thunk s) as [| |o] eqn:Es.
    + destruct (waiting_begins q c s Hpre Hs Es) as (q1 & R1 & E1).
      apply (Hrun q1 R1 E1). intros t Ht'. rewrite Ht in Ht'.
      injection Ht' as <-. reflexivity.
    + apply (Hrun q (rtc_refl _ _)).
      * symmetry. apply list_insert_id. exact Ht.
      * intros t Ht'. rewrite Ht in Ht'. injection Ht' as <-. reflexivity.
    + apply (IH q (S c)); [lia|].
      intros p t Hp Hpt. destruct (decide (p = c)) as [->|Hne].
      * rewrite Ht in Hpt. injection Hpt as <-. eauto.
      * apply (Hpre p t); [lia|exact Hpt].
Qed.

End QueueOnce.

(** X21: in every reachable state of the queue each call has begun at
    most once and settled at most once; it settled only after it began and
    began only after its [enqueue]. *)
Theorem thunk_runs_once (T : Type) (q : qstate T) :
  reachable q ->
  (∀ b b' c, trace q !! b = Some (Began c) ->
             trace q !! b' = Some (Began c) -> b = b')
  ∧ (∀ k k' c o o', trace q !! k = Some (Settled c o) ->
                    trace q !! k' = Some (Settled c o') -> k = k')
  ∧ (∀ k c o, trace q !! k = Some (Settled c o) ->
              ∃ b, b < k ∧ trace q !! b = Some (Began c))
  ∧ (∀ b c, trace q !! b = Some (Began c) ->
            ∃ e, e < b ∧ trace q !! e = Some (Enqueued c)).
Proof.
  intros Hr. destruct (reachable_runs_once T q Hr) as [I [Bs Bo Sa Ba En]].
  repeat split; try assumption. exact (inv_settled_once _ _ I).
Qed.

Lemma thunk_runs_once_witness :
  ∃ b, b < 8 ∧ trace two_calls !! b = Some (Began 1).
Proof.
  exact (proj1 (proj2 (proj2 (thunk_runs_once unit two_calls two_calls_reachable)))
           8 1 (Rejected (lit "boom")) eq_refl).
Defined.

(** X22: the chain never blocks.  From any state of the queue, and for any
    choice of the outcomes of the calls that have not settled, fulfilled
    or rejected, there is a run without further [enqueue] in which every
    call of the chain settles, those already settled keeping their
    outcome. *)
Theorem queue_drains (T : Type) (q : qstate T) (out : nat -> settlement T) :
  ∃ q', rtc step q q'
        ∧ length (thunks q') = length (thunks q)
        ∧ ∀ c t, thunks q !! c = Some t ->
                 thunks q' !! c = Some (Done (final out c t)).
Proof.
  apply (drain_from T out (length (thunks q)) q 0); [reflexivity|].
  intros p t Hp. lia.
Qed.

(* ===================================================================== *)
(** * Streaming against non-streaming, and what is thrown                  *)
(* ===================================================================== *)

Lemma texts_of_all (lines : list jsstring) :
  snd (texts_of lines) = false ->
  fst (texts_of lines) = concat (map text_of_line lines).
Proof.
  induction lines as [|l ls IH]; [reflexivity|].
  cbn [texts_of map concat]. unfold text_of_line at 1.
  destruct (throws_early l); [discriminate|].
  destruct (truthy (line_text l)).
  - destruct (throwsAt (line_text l)); [discriminate|].
    destruct (texts_of ls) as [ts e]. cbn [fst snd] in *.
    intros ->. rewrite IH by reflexivity. reflexivity.
  - exact IH.
Qed.

Lemma texts_of_body_all (whole : jsstring) :
  snd (texts_of_body whole) = false ->
  fst (texts_of_body whole) = concat (map text_of_line (split_nl whole)).
Proof.
  unfold texts_of_body.
  pose proof (pop_unpop (split_nl whole) (split_nl_nonempty whole)) as Hp.
  destruct (pop (split_nl whole)) as [lines frag]. cbn [fst snd] in Hp.
  pose proof (texts_of_all lines) as Ha.
  destruct (texts_of lines) as [ts e]. cbn [fst snd] in Ha.
  destruct e; [discriminate|]. intros _. cbn [fst].
  rewrite <- Hp, map_app, concat_app, Ha by reflexivity.
  cbn. rewrite app_nil_r. reflexivity.
Qed.

Lemma null_line_throws (line : jsstring) :
  is_null_line line = true -> throws_early line = true.
Proof.
  unfold is_null_line, throws_early.
  destruct (sseData line) as [s|]; [|discriminate].
  destruct (str_eqb s (lit "[DONE]")); [discriminate|].
  destruct (parse s) as [[]|]; cbn; congruence.
Qed.

Lemma texts_of_null (lines : list jsstring) :
  Exists (fun l => is_null_line l = true) lines -> snd (texts_of lines) = true.
Proof.
  induction 1 as [l ls H|l ls H IH]; cbn [texts_of].
  - rewrite (null_line_throws l H). reflexivity.
  - destruct (throws_early l); [reflexivity|].
    destruct (truthy (line_text l)); [|exact IH].
    destruct (throwsAt (line_text l)); [reflexivity|].
    destruct (texts_of ls) as [ts e]. exact IH.
Qed.

(** X23: Responses API, streamed against collected: when the body does not
    end inside a multi-byte character and no complete line makes
    [transform] throw, the text of [response.output_text.done] is the
    [content] that the non-streaming handler collects from the same body;
    with no text at all the stream has no such event. *)
Theorem resp_done_text_is_collected (respId itemId : jsstring) (model : json)
    (created_at : nat -> number) (chunks : list (list Byte.byte)) :
  let whole := fst (Utf8.decode_stream (concat chunks) Utf8.initial) in
  Utf8.finish (snd (Utf8.decode_stream (concat chunks) Utf8.initial)) = [] ->
  snd (texts_of_body whole) = false ->
  omap event_text (resp_stream respId itemId model created_at chunks)
  = if bool_decide (fst (texts_of_body whole) = []) then []
    else [JString (collectText (Utf8.text (concat chunks)))].
Proof.
  cbn zeta. intros Hfin Herr.
  pose proof (resp_stream_account respId itemId model created_at chunks) as H.
  cbn zeta in H. destruct H as (_ & -> & _). rewrite Herr. cbn [negb andb].
  destruct (bool_decide
              (fst (texts_of_body
                      (fst (Utf8.decode_stream (concat chunks) Utf8.initial)))
               = [])); [reflexivity|].
  cbn [negb]. rewrite texts_of_body_all by exact Herr.
  unfold collectText, Utf8.text, strings_of.
  destruct (Utf8.decode_stream (concat chunks) Utf8.initial) as [s st].
  cbn [fst snd] in *. rewrite Hfin, app_nil_r, collect_lines. reflexivity.
Qed.

Lemma resp_done_text_is_collected_witness :
  omap event_text
    (resp_stream (lit "r") (lit "i") (JStr "m") (fun _ => mkNum 1 0) split_body)
  = [JString (collectText (Utf8.text (concat split_body)))].
Proof.
  rewrite resp_done_text_is_collected by (vm_compute; reflexivity).
  vm_compute. reflexivity.
Defined.

(** X24: a complete line [data: null] errors the response-lifecycle
    stream: whatever text came before it, no [response.output_text.done]
    and no [response.completed] is emitted. *)
Theorem resp_stream_null_line (respId itemId : jsstring) (model : json)
    (created_at : nat -> number) (chunks : list (list Byte.byte)) :
  let whole := fst (Utf8.decode_stream (concat chunks) Utf8.initial) in
  let out := resp_stream respId itemId model created_at chunks in
  Exists (fun l => is_null_line l = true) (fst (pop (split_nl whole))) ->
  omap event_text out = []
  ∧ filter (fun f => is_event "response.completed" f = true) out = [].
Proof.
  cbn zeta. intros Hnull.
  pose proof (resp_stream_account respId itemId model created_at chunks) as H.
  cbn zeta in H. destruct H as (_ & H2 & H3 & _).
  assert (E : snd (texts_of_body
                     (fst (Utf8.decode_stream (concat chunks) Utf8.initial)))
              = true).
  { unfold texts_of_body.
    destruct (pop (split_nl (fst (Utf8.decode_stream (concat chunks) Utf8.initial))))
      as [lines frag]. cbn [fst] in Hnull.
    pose proof (texts_of_null lines Hnull) as Hn.
    destruct (texts_of lines) as [ts e]. cbn [snd] in Hn. subst e. reflexivity. }
  rewrite E in H2, H3. cbn [negb andb] in H2, H3. split; [exact H2|].
  destruct (filter _ _); [reflexivity|discriminate].
Qed.

Lemma resp_stream_null_line_witness :
  omap event_text
    (resp_stream (lit "r") (lit "i") (JStr "m") (fun _ => mkNum 1 0)
       [null_line_body]) = []
  ∧ filter (fun f => is_event "response.completed" f = true)
      (resp_stream (lit "r") (lit "i") (JStr "m") (fun _ => mkNum 1 0)
         [null_line_body]) = [].
Proof.
  apply resp_stream_null_line. vm_compute.
  apply Exists_cons_tl, Exists_cons_hd. reflexivity.
Defined.

Section DriverThrows.

Variable be : backend.

Lemma sendAndStream_from_thrown (prompt : jsstring) (m left attempt : nat)
    (w : world) (e : jsstring) :
  let run := sendAndStream_from be prompt m left attempt w in
  fst run = Throw e ->
  e = busy_message
  ∨ e = unreachable_message
  ∨ (n_stream w < n_stream (snd run)
     ∧ result (stream_chat be (n_stream (snd run) - 1)) = Rejects e).
Proof.
  cbn zeta. revert attempt w. induction left as [|left IH]; intros attempt w.
  - cbn. intros [= <-]. left. reflexivity.
  - destruct (sendAndStream_from_step be prompt m left attempt w)
      as (w1 & w2 & _ & P1 & _ & P2 & ->).
    destruct P1 as (_ & S2 & _). destruct P2 as (_ & S4 & _).
    cbn [after_set n_stream] in S4.
    assert (Hnext : ∀ w3, n_stream w <= n_stream w3 ->
              fst (sendAndStream_from be prompt m left (S attempt) w3) = Throw e ->
              e = busy_message
              ∨ e = unreachable_message
              ∨ (n_stream w
                 < n_stream (snd (sendAndStream_from be prompt m left (S attempt) w3))
                 ∧ result (stream_chat be
                     (n_stream (snd (sendAndStream_from be prompt m left
                                       (S attempt) w3)) - 1))
                   = Rejects e)).
    { intros w3 Hle H. destruct (IH _ _ H) as [?|[?|[A1 A2]]]; auto.
      right. right. split; [lia|exact A2]. }
    destruct (accepts (set_chat_message be (n_set w1))).
    + destruct (result (stream_chat be (n_stream w1))) as [e'|r] eqn:Er.
      * cbn [fst snd after_stream after_set n_stream]. intros [= <-].
        right. right. split; [lia|].
        replace (S (n_stream w1) - 1) with (n_stream w1) by lia. exact Er.
      * destruct (ok r); [discriminate|].
        destruct (status r =? 409)%Z; [|discriminate].
        apply Hnext. cbn [after_stream after_set n_stream]. lia.
    + destruct (attempt <? m - 1)%nat.
      * apply Hnext. lia.
      * cbn. intros [= <-]. right. left. reflexivity.
Qed.

End DriverThrows.

(** X25: [sendAndStream] throws one of three things only: the busy error,
    the error of a refused submission, or the rejection of the stream-open
    it sent last. *)
Theorem sendAndStream_thrown (be : backend) (prompt : jsstring)
    (maxRetries : nat) (w : world) (e : jsstring) :
  let run := sendAndStream be prompt maxRetries w in
  fst run = Throw e ->
  e = busy_message
  ∨ e = unreachable_message
  ∨ (n_stream w < n_stream (snd run)
     ∧ result (stream_chat be (n_stream (snd run) - 1)) = Rejects e).
Proof.
  unfold sendAndStream.
  exact (sendAndStream_from_thrown be prompt maxRetries maxRetries 0 w e).
Qed.

Lemma sendAndStream_thrown_witness :
  fst (sendAndStream busy_backend (lit "hi") 4 world0) = Throw busy_message
  ∧ (busy_message = busy_message
     ∨ busy_message = unreachable_message
     ∨ (n_stream world0
        < n_stream (snd (sendAndStream busy_backend (lit "hi") 4 world0))
        ∧ result (stream_chat busy_backend
                    (n_stream (snd (sendAndStream busy_backend (lit "hi") 4 world0))
                     - 1))
          = Rejects busy_message)).
Proof.
  assert (H : fst (sendAndStream busy_backend (lit "hi") 4 world0)
              = Throw busy_message) by (vm_compute; reflexivity).
  split; [exact H|].
  exact (sendAndStream_thrown busy_backend (lit "hi") 4 world0 busy_message H).
Defined.
